(** * Episode-label parsing and mirror reconciliation of the gimy.cc and
    idoltv.tv extractors ([GimyIE._parse_episode],
    [GimyIE._extract_other_src], [IdoltvIE._parse_episode] and the
    reconciliation loop of [IdoltvIE._real_extract]).

    Python [str] values are lists of code points.  The regular expressions
    of the source are written as syntax trees and run by a backtracking
    matcher with Python's leftmost, greedy, ordered-alternation semantics.
    Python [float] values are IEEE binary64 numbers ([spec_float] with
    precision 53 and maximal exponent 1024).  Raised exceptions are [None]. *)

From Stdlib Require Import ZArith List Bool String Ascii Lia.
From Stdlib Require Import Floats.SpecFloat Sorting.Permutation Sorting.Sorted.
Import ListNotations.

Open Scope Z_scope.

(** ** Characters and strings *)

Definition char := Z.
Definition pystr := list char.

(** First code points of the runs of ten decimal digits of Unicode category
    Nd (what [\d] matches in a [str] pattern, and what [int]/[float] accept
    as digits); the mathematical digits U+1D7CE..U+1D7FF are five runs. *)
Definition nd_starts : list Z :=
  [0x30; 0x660; 0x6F0; 0x7C0; 0x966; 0x9E6; 0xA66; 0xAE6; 0xB66; 0xBE6;
   0xC66; 0xCE6; 0xD66; 0xDE6; 0xE50; 0xED0; 0xF20; 0x1040; 0x1090; 0x17E0;
   0x1810; 0x1946; 0x19D0; 0x1A80; 0x1A90; 0x1B50; 0x1BB0; 0x1C40; 0x1C50;
   0xA620; 0xA8D0; 0xA900; 0xA9D0; 0xA9F0; 0xAA50; 0xABF0; 0xFF10; 0x104A0;
   0x10D30; 0x11066; 0x110F0; 0x11136; 0x111D0; 0x112F0; 0x11450; 0x114D0;
   0x11650; 0x116C0; 0x11730; 0x118E0; 0x11950; 0x11C50; 0x11D50; 0x11DA0;
   0x16A60; 0x16AC0; 0x16B50; 0x1D7CE; 0x1D7D8; 0x1D7E2; 0x1D7EC; 0x1D7F6;
   0x1E140; 0x1E2F0; 0x1E950; 0x1FBF0].

Fixpoint digit_value_in (starts : list Z) (c : char) : option Z :=
  match starts with
  | [] => None
  | b :: rest => if (b <=? c) && (c <? b + 10) then Some (c - b)
                 else digit_value_in rest c
  end.

Definition digit_value (c : char) : option Z := digit_value_in nd_starts c.

Definition is_digit (c : char) : bool :=
  match digit_value c with Some _ => true | None => false end.

(** [\s] in a [str] pattern. *)
Definition is_space (c : char) : bool :=
  existsb (Z.eqb c)
    [0x9; 0xA; 0xB; 0xC; 0xD; 0x1C; 0x1D; 0x1E; 0x1F; 0x20; 0x85; 0xA0;
     0x1680; 0x2000; 0x2001; 0x2002; 0x2003; 0x2004; 0x2005; 0x2006; 0x2007;
     0x2008; 0x2009; 0x200A; 0x2028; 0x2029; 0x202F; 0x205F; 0x3000].

(** Characters a pattern letter matches under [re.IGNORECASE]: both ASCII
    cases, plus U+0130/U+0131 for [i] and U+017F for [s]. *)
Definition ci_set (c : char) : list Z :=
  let lo := if (65 <=? c) && (c <=? 90) then c + 32 else c in
  let up := if (97 <=? c) && (c <=? 122) then c - 32 else c in
  [lo; up] ++ (if lo =? 105 then [0x130; 0x131] else [])
           ++ (if lo =? 115 then [0x17F] else []).

Definition ci_eq (c x : char) : bool := existsb (Z.eqb x) (ci_set c).

(** UTF-8 decoding of a Rocq string literal, used to write source
    literals such as ["第"] as they appear in the Python code. *)
Definition byte_of (a : ascii) : Z := Z.of_nat (nat_of_ascii a).

Fixpoint utf8 (s : string) : pystr :=
  match s with
  | EmptyString => []
  | String a r =>
      let b := byte_of a in
      if b <? 128 then b :: utf8 r
      else if b <? 224 then
        match r with
        | String a2 r2 => ((b - 192) * 64 + (byte_of a2 - 128)) :: utf8 r2
        | EmptyString => []
        end
      else if b <? 240 then
        match r with
        | String a2 (String a3 r3) =>
            ((b - 224) * 4096 + (byte_of a2 - 128) * 64 + (byte_of a3 - 128))
              :: utf8 r3
        | _ => []
        end
      else
        match r with
        | String a2 (String a3 (String a4 r4)) =>
            ((b - 240) * 262144 + (byte_of a2 - 128) * 4096
             + (byte_of a3 - 128) * 64 + (byte_of a4 - 128)) :: utf8 r4
        | _ => []
        end
  end.

Definition ch (s : string) : char := hd 0 (utf8 s).

(** ** Regular expressions and a backtracking matcher *)

Inductive regex : Type :=
| RClass (p : char -> bool)        (* one character satisfying [p] *)
| REps                             (* the empty pattern *)
| RSeq (r1 r2 : regex)
| RAlt (r1 r2 : regex)             (* ordered alternation [r1|r2] *)
| RStar (r : regex)                (* greedy [r*] *)
| RGroup (g : nat) (r : regex)     (* capturing group number [g] *)
| RBol                             (* [^] *)
| REol.                            (* [$]: end, or before a final newline *)

(** Captured groups: group number, text from the first suffix to the second;
    the most recent capture of a group comes first. *)
Definition caps := list (nat * (pystr * pystr)).

Section Matcher.
Context {A : Type}.
(** Length of the whole subject string (for [^]). *)
Variable n0 : nat.

Fixpoint star_loop (mr : pystr -> caps -> (pystr -> caps -> option A) -> option A)
    (k : pystr -> caps -> option A) (fuel : nat) (s : pystr) (c : caps)
    : option A :=
  match fuel with
  | O => k s c
  | S f =>
      match mr s c (fun s' c' => if Nat.ltb (List.length s') (List.length s)
                                 then star_loop mr k f s' c' else None) with
      | Some a => Some a
      | None => k s c
      end
  end.

Fixpoint mt (r : regex) (s : pystr) (c : caps)
    (k : pystr -> caps -> option A) {struct r} : option A :=
  match r with
  | RClass p => match s with
                | x :: s' => if p x then k s' c else None
                | [] => None
                end
  | REps => k s c
  | RSeq r1 r2 => mt r1 s c (fun s1 c1 => mt r2 s1 c1 k)
  | RAlt r1 r2 => match mt r1 s c k with
                  | Some a => Some a
                  | None => mt r2 s c k
                  end
  | RStar r1 => star_loop (mt r1) k (S (List.length s)) s c
  | RGroup g r1 => mt r1 s c (fun s1 c1 => k s1 ((g, (s, s1)) :: c1))
  | RBol => if Nat.eqb (List.length s) n0 then k s c else None
  | REol => match s with
            | [] => k s c
            | [x] => if x =? 10 then k s c else None
            | _ => None
            end
  end.
End Matcher.

(** [re.search]: the first start position (from the left, the end of the
    string included) at which the pattern matches. *)
Fixpoint search_from (r : regex) (n0 : nat) (s : pystr)
    : option (pystr * pystr * caps) :=
  match mt n0 r s [] (fun s' c => Some (s', c)) with
  | Some (s', c) => Some (s, s', c)
  | None => match s with
            | [] => None
            | _ :: t => search_from r n0 t
            end
  end.

Definition re_search (r : regex) (s : pystr) : option (pystr * pystr * caps) :=
  search_from r (List.length s) s.

Definition re_found (r : regex) (s : pystr) : bool :=
  match re_search r s with Some _ => true | None => false end.

Definition slice (a b : pystr) : pystr := firstn (List.length a - List.length b)%nat a.

Definition group_text (c : caps) (g : nat) : pystr :=
  match find (fun p => Nat.eqb (fst p) g) c with
  | Some (_, (a, b)) => slice a b
  | None => []
  end.

(** [re.findall(r, s)[0]] for a pattern with one group, with two groups and
    with none; [None] when the list is empty ([IndexError]).  The first
    element of [findall] is the match [re.search] finds. *)
Definition findall_first1 (r : regex) (s : pystr) : option pystr :=
  match re_search r s with
  | Some (_, _, c) => Some (group_text c 1)
  | None => None
  end.

Definition findall_first2 (r : regex) (s : pystr) : option (pystr * pystr) :=
  match re_search r s with
  | Some (_, _, c) => Some (group_text c 1, group_text c 2)
  | None => None
  end.

Definition findall_first0 (r : regex) (s : pystr) : option pystr :=
  match re_search r s with
  | Some (a, b, _) => Some (slice a b)
  | None => None
  end.

(** ** Pattern building blocks *)

Definition rchar (s : string) : regex := RClass (Z.eqb (ch s)).
(** A character set [[...]] listing its members. *)
Definition rset (s : string) : regex :=
  RClass (fun x => existsb (Z.eqb x) (utf8 s)).
Definition rlit (s : string) : regex :=
  fold_right (fun c r => RSeq (RClass (Z.eqb c)) r) REps (utf8 s).
(** A literal under [re.IGNORECASE]. *)
Definition rlit_i (s : string) : regex :=
  fold_right (fun c r => RSeq (RClass (ci_eq c)) r) REps (utf8 s).
Definition ropt (r : regex) : regex := RAlt r REps.
Definition rplus (r : regex) : regex := RSeq r (RStar r).
Definition rseq (l : list regex) : regex := fold_right RSeq REps l.
Fixpoint ralts (l : list regex) : regex :=
  match l with
  | [] => REps
  | [r] => r
  | r :: rest => RAlt r (ralts rest)
  end.
Definition rd : regex := RClass is_digit.                      (* \d *)
Definition rD : regex := RClass (fun x => negb (is_digit x)).  (* \D *)
Definition rs : regex := RClass is_space.                      (* \s *)
(** [r{1,4}] *)
Definition rrep14 (r : regex) : regex :=
  RSeq r (ropt (RSeq r (ropt (RSeq r (ropt r))))).

(** ** The patterns of [_parse_episode] *)

(** The two extractors carry their own copy of [_parse_episode]; they differ
    in the date patterns and in the quality marker [TC]. *)
Inductive site := Gimy | Idoltv.

(** [r'[-_]0?(\d+)[集）]?$'] *)
Definition re_part : regex :=
  rseq [rset "-_"; ropt (rchar "0"); RGroup 1 (rplus rd); ropt (rset "集）"); REol].

(** [r'預告'] *)
Definition re_preview : regex := rlit "預告".

(** gimy: [r'(19|20)?\d*\d{2}[01]\d[0-3]\d'];
    idoltv: [r'(19|20)?\d{6}'] *)
Definition re_date_search (st : site) : regex :=
  match st with
  | Gimy => rseq [ropt (RGroup 1 (RAlt (rlit "19") (rlit "20"))); RStar rd;
                  rd; rd; rset "01"; rd; rset "0123"; rd]
  | Idoltv => rseq [ropt (RGroup 1 (RAlt (rlit "19") (rlit "20")));
                    rd; rd; rd; rd; rd; rd]
  end.

(** gimy: [r'(?:19|20)?\d*(\d{2}[01]\d[0-3]\d)'];
    idoltv: [r'(?:19|20)?(\d{6})'] *)
Definition re_date_find (st : site) : regex :=
  match st with
  | Gimy => rseq [ropt (RAlt (rlit "19") (rlit "20")); RStar rd;
                  RGroup 1 (rseq [rd; rd; rset "01"; rd; rset "0123"; rd])]
  | Idoltv => rseq [ropt (RAlt (rlit "19") (rlit "20"));
                    RGroup 1 (rseq [rd; rd; rd; rd; rd; rd])]
  end.

(** [r'(第\d+集)|(ep?\s*\d+)|(episode\s*\d+)|（\d+）'] with [re.IGNORECASE] *)
Definition re_ep_search : regex :=
  ralts [RGroup 1 (rseq [rlit "第"; rplus rd; rlit "集"]);
         RGroup 2 (rseq [rlit_i "e"; ropt (rlit_i "p"); RStar rs; rplus rd]);
         RGroup 3 (rseq [rlit_i "episode"; RStar rs; rplus rd]);
         rseq [rlit "（"; rplus rd; rlit "）"]].

(** [r'(?:第|ep?\s*|episode\s*|（)+0?(\d+)[集）]?'] with [re.IGNORECASE] *)
Definition re_ep_find : regex :=
  rseq [rplus (ralts [rlit "第"; rseq [rlit_i "e"; ropt (rlit_i "p"); RStar rs];
                      rseq [rlit_i "episode"; RStar rs]; rlit "（"]);
        ropt (rchar "0"); RGroup 1 (rplus rd); ropt (rset "集）")].

(** [r'^\D*\d{1,4}\D*$'] *)
Definition re_num_search : regex :=
  rseq [RBol; RStar rD; rrep14 rd; RStar rD; REol].

(** [r'0?(\d{1,4})'] *)
Definition re_num_find : regex := rseq [ropt (rchar "0"); RGroup 1 (rrep14 rd)].

(** [r'^\D?\d{1,4}[-+]\d{1,4}'] *)
Definition re_range_search : regex :=
  rseq [RBol; ropt rD; rrep14 rd; rset "-+"; rrep14 rd].

(** [r'0?(\d{1,4})[-+]0?(\d{1,4})'] *)
Definition re_range_find : regex :=
  rseq [ropt (rchar "0"); RGroup 1 (rrep14 rd); rset "-+";
        ropt (rchar "0"); RGroup 2 (rrep14 rd)].

(** gimy: [r'^(SD|HD|FHD|\d{3,4}P|標清|超清|高清|正片|中字|TC)'];
    idoltv: the same without [TC]; both with [re.IGNORECASE] *)
Definition re_res (st : site) : regex :=
  rseq [RBol; RGroup 1 (ralts (
    [rlit_i "SD"; rlit_i "HD"; rlit_i "FHD"; rseq [rd; rd; rd; ropt rd; rlit_i "P"];
     rlit "標清"; rlit "超清"; rlit "高清"; rlit "正片"; rlit "中字"]
    ++ match st with Gimy => [rlit_i "TC"] | Idoltv => [] end))].

(** ** Python values used by the parser *)

(** [float] of an integer: round to nearest, ties to even, overflow to
    infinity (as [float] does on a long digit string). *)
Definition f64_of_Z (n : Z) : spec_float := binary_normalize 53 1024 n 0 false.

Fixpoint digits_value (acc : Z) (ds : pystr) : option Z :=
  match ds with
  | [] => Some acc
  | d :: rest => match digit_value d with
                 | Some v => digits_value (acc * 10 + v) rest
                 | None => None
                 end
  end.

(** [float(ds)] for a string of digits; [None] is the [ValueError] of any
    other string. *)
Definition py_float_int (ds : pystr) : option spec_float :=
  match ds with
  | [] => None
  | _ => match digits_value 0 ds with
         | Some n => Some (f64_of_Z n)
         | None => None
         end
  end.

(** [float(ip + '.' + fp)]: the quotient of two integers, each converted
    exactly (both are below 2^53 for the at most eight digits the parser
    produces), rounded once by the division. *)
Definition py_float_point (ip fp : pystr) : option spec_float :=
  match ip, fp with
  | [], [] => None
  | _, _ =>
      match digits_value 0 ip, digits_value 0 fp with
      | Some a, Some b =>
          let den := 10 ^ Z.of_nat (List.length fp) in
          Some (SFdiv 53 1024 (f64_of_Z (a * den + b)) (f64_of_Z den))
      | _, _ => None
      end
  end.

(** [str.zfill(4)] on a string without sign. *)
Definition zfill4 (s : pystr) : pystr :=
  repeat (ch "0") (4 - List.length s) ++ s.

(** A token [(value, part, kind)]: the value is a [str] (a date, ['RES'] or
    the literal segment) or a [float] (an episode number); the kind is the
    one-character string ['d'], ['e'], ['r'] or ['n']. *)
Inductive tval := TStr (s : pystr) | TNum (f : spec_float).
Definition token := (tval * pystr * char)%type.

Definition kind_d : char := ch "d".
Definition kind_e : char := ch "e".
Definition kind_r : char := ch "r".
Definition kind_n : char := ch "n".

Definition tok_value (t : token) : tval := fst (fst t).
Definition tok_part (t : token) : pystr := snd (fst t).
Definition tok_kind (t : token) : char := snd t.

Fixpoint str_eqb (a b : pystr) : bool :=
  match a, b with
  | [], [] => true
  | x :: a', y :: b' => (x =? y) && str_eqb a' b'
  | _, _ => false
  end.

(** [==] on token values ([float] equality is IEEE equality). *)
Definition tval_eqb (v w : tval) : bool :=
  match v, w with
  | TStr a, TStr b => str_eqb a b
  | TNum x, TNum y => SFeqb x y
  | _, _ => false
  end.

(** Tuple equality [==]. *)
Definition token_eqb (t u : token) : bool :=
  tval_eqb (tok_value t) (tok_value u) && str_eqb (tok_part t) (tok_part u)
  && (tok_kind t =? tok_kind u).

(** [t in l] *)
Definition tok_in (t : token) (l : list token) : bool := existsb (token_eqb t) l.

(** ** [_parse_episode] *)

(** [s.replace(c, rep)] for a one-character [c]. *)
Definition replace_char (c : char) (rep : pystr) (s : pystr) : pystr :=
  flat_map (fun x => if x =? c then rep else [x]) s.

(** [s.split(sep)] for a one-character separator. *)
Fixpoint split_on (sep : char) (s : pystr) : list pystr :=
  match s with
  | [] => [[]]
  | x :: rest =>
      if x =? sep then [] :: split_on sep rest
      else match split_on sep rest with
           | w :: ws => (x :: w) :: ws
           | [] => [[x]]
           end
  end.

(** [(re.findall(r'[-_]0?(\d+)[集）]?$', episode) or re.findall(r'預告', episode)
     or [''])[0]] *)
Definition episode_part (episode : pystr) : pystr :=
  match findall_first1 re_part episode with
  | Some g => g
  | None => match findall_first0 re_preview episode with
            | Some w => w
            | None => []
            end
  end.

(** [s[-6:]] *)
Definition last6 (s : pystr) : pystr := skipn (List.length s - 6) s.

(** The body of the loop over the segments: the tokens [x] of one
    segment [e] (named [x] and [z] in idoltv), built by three [if]
    statements; the second one is an [if]/[elif]/[elif] chain. *)
Definition seg_date (st : site) (part e : pystr) : option (list token) :=
  if re_found (re_date_search st) e then
    match findall_first1 (re_date_find st) e with
    | Some g => Some [(TStr (last6 g), part, kind_d)]
    | None => None
    end
  else Some [].

Definition seg_number (part e : pystr) : option (list token) :=
  if re_found re_ep_search e then
    match findall_first1 re_ep_find e with
    | Some g => match py_float_int g with
                | Some f => Some [(TNum f, part, kind_e)]
                | None => None
                end
    | None => None
    end
  else if re_found re_num_search e then
    match findall_first1 re_num_find e with
    | Some g => match py_float_int g with
                | Some f => Some [(TNum f, part, kind_e)]
                | None => None
                end
    | None => None
    end
  else if re_found re_range_search e then
    match findall_first2 re_range_find e with
    | Some (n1, n2) => match py_float_point n1 (zfill4 n2) with
                       | Some f => Some [(TNum f, part, kind_e)]
                       | None => None
                       end
    | None => None
    end
  else Some [].

Definition seg_res (st : site) (part e : pystr) : list token :=
  if re_found (re_res st) e then [(TStr (utf8 "RES"), part, kind_r)] else [].

(** [if len(x) == 0: x.append((e, part, 'n'))] *)
Definition parse_segment (st : site) (part : pystr) (e : pystr)
    : option (list token) :=
  match seg_date st part e, seg_number part e with
  | Some a, Some b =>
      match a ++ b ++ seg_res st part e with
      | [] => Some [(TStr e, part, kind_n)]
      | x => Some x
      end
  | _, _ => None
  end.

(** [sorted(ep, key=lambda x: x[2])]: a stable sort on the kind. *)
Fixpoint insert_by_kind (t : token) (l : list token) : list token :=
  match l with
  | [] => [t]
  | h :: rest => if tok_kind t <? tok_kind h then t :: h :: rest
                 else h :: insert_by_kind t rest
  end.

Definition sort_by_kind (l : list token) : list token :=
  fold_left (fun acc t => insert_by_kind t acc) l [].

Fixpoint map_opt {X Y : Type} (f : X -> option Y) (l : list X) : option (list Y) :=
  match l with
  | [] => Some []
  | x :: rest => match f x, map_opt f rest with
                 | Some y, Some ys => Some (y :: ys)
                 | _, _ => None
                 end
  end.

Definition normalize (s : pystr) : pystr :=
  replace_char (ch "下") (utf8 "-2") (replace_char (ch "上") (utf8 "-1") s).

Definition parse_episode (st : site) (s : pystr) : option (list token) :=
  let episode := normalize s in
  let part := episode_part episode in
  match map_opt (parse_segment st part) (split_on (ch " ") episode) with
  | Some xs => Some (sort_by_kind (List.concat xs))
  | None => None
  end.

(** ** [datetime.strptime(s, '%y%m%d')] *)

(** The pattern [_strptime] builds for ['%y%m%d']:
    [(?P<y>\d\d)(?P<m>1[0-2]|0[1-9]|[1-9])(?P<d>3[0-1]|[1-2]\d|0[1-9]|[1-9]| [1-9])] *)
Definition re_strptime : regex :=
  rseq [RGroup 1 (rseq [rd; rd]);
        RGroup 2 (ralts [rseq [rchar "1"; rset "012"];
                         rseq [rchar "0"; rset "123456789"];
                         rset "123456789"]);
        RGroup 3 (ralts [rseq [rchar "3"; rset "01"];
                         rseq [rset "12"; rd];
                         rseq [rchar "0"; rset "123456789"];
                         rset "123456789";
                         rseq [rchar " "; rset "123456789"]])].

Definition is_leap (y : Z) : bool :=
  (y mod 4 =? 0) && (negb (y mod 100 =? 0) || (y mod 400 =? 0)).

Definition days_in_month (y m : Z) : Z :=
  if m =? 2 then (if is_leap y then 29 else 28)
  else nth (Z.to_nat (m - 1)) [31; 28; 31; 30; 31; 30; 31; 31; 30; 31; 30; 31] 0.

Definition days_before_month (y m : Z) : Z :=
  nth (Z.to_nat (m - 1)) [0; 31; 59; 90; 120; 151; 181; 212; 243; 273; 304; 334] 0
  + (if (m >? 2) && is_leap y then 1 else 0).

(** [date.toordinal()] *)
Definition toordinal (y m d : Z) : Z :=
  let y1 := y - 1 in
  y1 * 365 + y1 / 4 - y1 / 100 + y1 / 400 + days_before_month y m + d.

Definition date := (Z * Z * Z)%type.

(** [re.match] at the start, the whole string consumed, the two-digit year
    mapped to 1969..2068, and the day checked against the month
    ([ValueError] otherwise). *)
Definition strptime_yymmdd (s : pystr) : option date :=
  match mt (List.length s) re_strptime s [] (fun s' c => Some (s', c)) with
  | Some ([], c) =>
      match digits_value 0 (group_text c 1), digits_value 0 (group_text c 2),
            digits_value 0 (group_text c 3) with
      | Some y, Some m, Some d =>
          let year := if y <=? 68 then y + 2000 else y + 1900 in
          if (1 <=? d) && (d <=? days_in_month year m) then Some (year, m, d)
          else None
      | _, _, _ => None
      end
  | _ => None
  end.

Definition py_strptime (v : tval) : option date :=
  match v with
  | TStr s => strptime_yymmdd s
  | TNum _ => None                     (* TypeError *)
  end.

Definition date_ordinal (d : date) : Z :=
  let '(y, m, dd) := d in toordinal y m dd.

(** ** [_extract_other_src] *)

(** [([x for x in ep if x[1] == e[1] and x[2] == 'd'] or [('500101', '', '')])[0][0]] *)
Definition date_value_for (part : pystr) (ep : list token) : tval :=
  match filter (fun x => str_eqb (tok_part x) part && (tok_kind x =? kind_d)) ep with
  | x :: _ => tok_value x
  | [] => TStr (utf8 "500101")
  end.

(** [e[2] == 'd' and abs((strptime(e[0], '%y%m%d')
       - strptime(date_value_for(e[1], ep), '%y%m%d')).days) == 1] *)
Definition near_match (e : token) (ep : list token) : option bool :=
  if tok_kind e =? kind_d then
    match py_strptime (tok_value e) with
    | None => None
    | Some d1 =>
        match py_strptime (date_value_for (tok_part e) ep) with
        | None => None
        | Some d2 => Some (Z.abs (date_ordinal d1 - date_ordinal d2) =? 1)
        end
    end
  else Some false.

(** An entry [(link, label)] of a source list, and the triple
    [(link, label, source)] built by [y += (l['source'],)]. *)
Definition entry := (pystr * pystr)%type.
Definition mirror := (pystr * pystr * pystr)%type.

Record group := mk_group { source : pystr; links : list entry }.

Definition mirror_eqb (a b : mirror) : bool :=
  let '(a1, a2, a3) := a in
  let '(b1, b2, b3) := b in
  str_eqb a1 b1 && str_eqb a2 b2 && str_eqb a3 b3.

Definition mirror_in (y : mirror) (l : list mirror) : bool :=
  existsb (mirror_eqb y) l.

(** The loop [for y in l['links']]: the lists [z] (exact matches not yet in
    [src]) and [d] (near matches). *)
Fixpoint scan_links (st : site) (src : list mirror) (e : token) (name : pystr)
    (ys : list entry) : option (list mirror * list mirror) :=
  match ys with
  | [] => Some ([], [])
  | (lk, lb) :: rest =>
      let y := (lk, lb, name) in
      match parse_episode st lb with
      | None => None
      | Some ep =>
          match near_match e ep with
          | None => None
          | Some nm =>
              match scan_links st src e name rest with
              | None => None
              | Some (z, d) =>
                  Some ((if negb (mirror_in y src) && tok_in e ep then y :: z else z),
                        (if nm then y :: d else d))
              end
          end
      end
  end.

(** [if len(z) == 1: src.append(z[0])
     elif len(z) == 0 and len(d) == 1: src.append(d[0])] *)
Definition decide (src z d : list mirror) : list mirror :=
  match z with
  | [y] => src ++ [y]
  | [] => match d with [y] => src ++ [y] | _ => src end
  | _ => src
  end.

Definition reconcile_token (st : site) (l : group) (src : list mirror) (e : token)
    : option (list mirror) :=
  match scan_links st src e (source l) (links l) with
  | Some (z, d) => Some (decide src z d)
  | None => None
  end.

Fixpoint fold_opt {X Y : Type} (f : X -> Y -> option X) (l : list Y) (a : X)
    : option X :=
  match l with
  | [] => Some a
  | y :: rest => match f a y with
                 | Some a' => fold_opt f rest a'
                 | None => None
                 end
  end.

Definition reconcile_group (st : site) (episode : pystr) (src : list mirror)
    (l : group) : option (list mirror) :=
  match parse_episode st episode with
  | Some toks => fold_opt (reconcile_token st l) toks src
  | None => None
  end.

(** [GimyIE._extract_other_src(links, episode, current_source)]; with
    [st = Idoltv], the same loop in [IdoltvIE._real_extract] (there
    [epsd = self._parse_episode(episode)] is computed before the loop and
    [other_src] starts empty). *)
Definition extract_other_src (st : site) (links : list group)
    (episode current_source : pystr) : option (list mirror) :=
  fold_opt (reconcile_group st episode)
    (filter (fun l => negb (str_eqb (source l) current_source)) links) [].

(** ** [_extract_other_src] over a heap of Python objects *)

(** The functions above treat the entries of [links] as values.  Here they
    are references to objects on a heap, as in Python: an entry is a tuple
    (what [_extract_links] builds, from [re.findall] with two groups) or a
    list, and [y += (l['source'],)] is [tuple.__add__] (a new tuple) on a
    tuple but [list.__iadd__] (in place) on a list.  The dicts and lists of
    [links] are only read by the loop, so they stay values; [src], [z] and
    [d] hold references. *)
Module Heap.

Inductive obj := OTuple (xs : list pystr) | OList (xs : list pystr).

Definition heap := list obj.

Record hgroup := mk_hgroup { hsource : pystr; hlinks : list nat }.

Fixpoint set_nth {X : Type} (l : list X) (n : nat) (x : X) : list X :=
  match l, n with
  | [], _ => []
  | _ :: rest, O => x :: rest
  | y :: rest, S n' => y :: set_nth rest n' x
  end.

(** [y += (v,)] on the object at [a]: the new heap and what [y] refers to. *)
Definition iadd (h : heap) (a : nat) (v : pystr) : option (heap * nat) :=
  match nth_error h a with
  | Some (OTuple xs) => Some (h ++ [OTuple (xs ++ [v])], List.length h)
  | Some (OList xs) => Some (set_nth h a (OList (xs ++ [v])), a)
  | None => None
  end.

(** [y[1]] ([IndexError] as [None]). *)
Definition item1 (h : heap) (y : nat) : option pystr :=
  match nth_error h y with
  | Some (OTuple xs) | Some (OList xs) => nth_error xs 1
  | None => None
  end.

Fixpoint strs_eqb (a b : list pystr) : bool :=
  match a, b with
  | [], [] => true
  | x :: a', y :: b' => str_eqb x y && strs_eqb a' b'
  | _, _ => false
  end.

(** [==] on tuples and lists of strings: a tuple never equals a list. *)
Definition obj_eqb (o1 o2 : obj) : bool :=
  match o1, o2 with
  | OTuple a, OTuple b | OList a, OList b => strs_eqb a b
  | _, _ => false
  end.

(** [y in src]: identity or equality. *)
Definition hmem (h : heap) (y : nat) (src : list nat) : bool :=
  existsb (fun a => Nat.eqb a y ||
                    match nth_error h y, nth_error h a with
                    | Some o1, Some o2 => obj_eqb o1 o2
                    | _, _ => false
                    end) src.

Fixpoint hscan (st : site) (h : heap) (src : list nat) (e : token) (name : pystr)
    (ys : list nat) : option (heap * list nat * list nat) :=
  match ys with
  | [] => Some (h, [], [])
  | a :: rest =>
      match iadd h a name with
      | None => None
      | Some (h1, y) =>
          match item1 h1 y with
          | None => None
          | Some lb =>
              match parse_episode st lb with
              | None => None
              | Some ep =>
                  let inz := negb (hmem h1 y src) && tok_in e ep in
                  match near_match e ep with
                  | None => None
                  | Some nm =>
                      match hscan st h1 src e name rest with
                      | None => None
                      | Some (h2, z, d) =>
                          Some (h2, (if inz then y :: z else z),
                                (if nm then y :: d else d))
                      end
                  end
              end
          end
      end
  end.

Definition hdecide (src z d : list nat) : list nat :=
  match z with
  | [y] => src ++ [y]
  | [] => match d with [y] => src ++ [y] | _ => src end
  | _ => src
  end.

Definition hreconcile_token (st : site) (l : hgroup) (hs : heap * list nat) (e : token)
    : option (heap * list nat) :=
  let '(h, src) := hs in
  match hscan st h src e (hsource l) (hlinks l) with
  | Some (h', z, d) => Some (h', hdecide src z d)
  | None => None
  end.

Definition hreconcile_group (st : site) (episode : pystr) (hs : heap * list nat)
    (l : hgroup) : option (heap * list nat) :=
  match parse_episode st episode with
  | Some toks => fold_opt (hreconcile_token st l) toks hs
  | None => None
  end.

Definition hextract_other_src (st : site) (h : heap) (links : list hgroup)
    (episode current_source : pystr) : option (heap * list nat) :=
  fold_opt (hreconcile_group st episode)
    (filter (fun l => negb (str_eqb (hsource l) current_source)) links) (h, []).

End Heap.

(** ** [_VALID_URL] and the ids read from it *)

(** [re.match]: the pattern is tried at the start of the string only. *)
Definition re_match (r : regex) (s : pystr) : option (pystr * caps) :=
  mt (List.length s) r s [] (fun s' c => Some (s', c)).

(** [(gimy:|https?://gimy\.cc/(?:index\.php/)?video/)(?P<id>\d+)-(?P<source_id>\d+)-(?P<episode_id>\d+)]
    of [GimyIE]: [id], [source_id] and [episode_id] are the groups 2, 3, 4. *)
Definition valid_url_gimy : regex :=
  rseq [RGroup 1 (RAlt (rlit "gimy:")
                      (rseq [rlit "http"; ropt (rchar "s"); rlit "://gimy.cc/";
                             ropt (rlit "index.php/"); rlit "video/"]));
        RGroup 2 (rplus rd); rchar "-"; RGroup 3 (rplus rd); rchar "-";
        RGroup 4 (rplus rd)].

(** [(gimy:|https?://gimy\.la/play/)(?P<id>\d+)/?ep(?P<episode_id>\d+)\??sid=?(?P<source_id>\d+)]
    of [GimyLaIE]: [id], [episode_id] and [source_id] are the groups 2, 3, 4. *)
Definition valid_url_gimyla : regex :=
  rseq [RGroup 1 (RAlt (rlit "gimy:")
                      (rseq [rlit "http"; ropt (rchar "s"); rlit "://gimy.la/play/"]));
        RGroup 2 (rplus rd); ropt (rchar "/"); rlit "ep"; RGroup 3 (rplus rd);
        ropt (rchar "?"); rlit "sid"; ropt (rchar "="); RGroup 4 (rplus rd)].

(** [(gimy:|https?://gimy\.(?:la|cc)/(?:index\.php/)?detail/)(?P<id>\d+)(?:/|\.html)?$]
    of [GimyDetailIE]: [id] is the group 2. *)
Definition valid_url_detail : regex :=
  rseq [RGroup 1 (RAlt (rlit "gimy:")
                      (rseq [rlit "http"; ropt (rchar "s"); rlit "://gimy.";
                             RAlt (rlit "la") (rlit "cc"); rlit "/";
                             ropt (rlit "index.php/"); rlit "detail/"]));
        RGroup 2 (rplus rd); ropt (RAlt (rchar "/") (rlit ".html")); REol].

(** [(idoltv:|https?://idoltv\.tv/play/)(?P<id>\d+)-(?P<source_id>\d+)-(?P<episode_id>\d+)]
    of [IdoltvIE]: groups 2, 3, 4. *)
Definition valid_url_idoltv : regex :=
  rseq [RGroup 1 (RAlt (rlit "idoltv:")
                      (rseq [rlit "http"; ropt (rchar "s"); rlit "://idoltv.tv/play/"]));
        RGroup 2 (rplus rd); rchar "-"; RGroup 3 (rplus rd); rchar "-";
        RGroup 4 (rplus rd)].

(** [(idoltv:|https?://idoltv\.tv/vod/)(?P<id>\d+)] of [IdoltvVodIE]: group 2. *)
Definition valid_url_vod : regex :=
  rseq [RGroup 1 (RAlt (rlit "idoltv:")
                      (rseq [rlit "http"; ropt (rchar "s"); rlit "://idoltv.tv/vod/"]));
        RGroup 2 (rplus rd)].

(** [self._match_valid_url(url).group(g1, g2, g3)]; [None] when the URL
    does not match (the [.group] of [None] raises).  The groups read are
    outside any [?] or [|], so a match always sets them. *)
Definition match_groups3 (r : regex) (g1 g2 g3 : nat) (url : pystr)
    : option (pystr * pystr * pystr) :=
  match re_match r url with
  | Some (_, c) => Some (group_text c g1, group_text c g2, group_text c g3)
  | None => None
  end.

(** [self._match_id(url)]: the group [id]. *)
Definition match_id (r : regex) (url : pystr) : option pystr :=
  match re_match r url with
  | Some (_, c) => Some (group_text c 2)
  | None => None
  end.

(** [GimyIE._real_extract]:
    [vid, sid, eid = self._match_valid_url(url).group('id', 'source_id', 'episode_id')],
    [video_id = f'{vid}-{sid}-{eid}'],
    [url = f'https://gimy.cc/index.php/video/{video_id}.html']. *)
Definition gimy_video_id (vid sid eid : pystr) : pystr :=
  vid ++ utf8 "-" ++ sid ++ utf8 "-" ++ eid.

Definition gimy_page_url (video_id : pystr) : pystr :=
  utf8 "https://gimy.cc/index.php/video/" ++ video_id ++ utf8 ".html".

Definition gimy_request (url : pystr) : option (pystr * pystr) :=
  match match_groups3 valid_url_gimy 2 3 4 url with
  | Some (vid, sid, eid) =>
      let video_id := gimy_video_id vid sid eid in
      Some (video_id, gimy_page_url video_id)
  | None => None
  end.

(** [GimyLaIE._real_extract]: the groups [id], [source_id], [episode_id]
    are 2, 4, 3; [video_id = f'{vid}ep{eid}sid{sid}'],
    [url = f'https://gimy.la/play/{vid}/ep{eid}?sid={sid}']. *)
Definition gimyla_video_id (vid sid eid : pystr) : pystr :=
  vid ++ utf8 "ep" ++ eid ++ utf8 "sid" ++ sid.

Definition gimyla_page_url (vid sid eid : pystr) : pystr :=
  utf8 "https://gimy.la/play/" ++ vid ++ utf8 "/ep" ++ eid ++ utf8 "?sid=" ++ sid.

Definition gimyla_request (url : pystr) : option (pystr * pystr) :=
  match match_groups3 valid_url_gimyla 2 4 3 url with
  | Some (vid, sid, eid) =>
      Some (gimyla_video_id vid sid eid, gimyla_page_url vid sid eid)
  | None => None
  end.

(** [IdoltvIE._real_extract]:
    [video_id = str(vid) + '-' + str(source_id) + '-' + str(episode_id)],
    [url = 'https://idoltv.tv/play/' + vid + '-' + source_id + '-' + episode_id + '.html']. *)
Definition idoltv_video_id (vid sid eid : pystr) : pystr :=
  vid ++ utf8 "-" ++ sid ++ utf8 "-" ++ eid.

Definition idoltv_page_url (vid sid eid : pystr) : pystr :=
  utf8 "https://idoltv.tv/play/" ++ vid ++ utf8 "-" ++ sid ++ utf8 "-" ++ eid
    ++ utf8 ".html".

Definition idoltv_request (url : pystr) : option (pystr * pystr) :=
  match match_groups3 valid_url_idoltv 2 3 4 url with
  | Some (vid, sid, eid) =>
      Some (idoltv_video_id vid sid eid, idoltv_page_url vid sid eid)
  | None => None
  end.

(** [GimyDetailIE._real_extract]: [video_id = self._match_id(url)], then
    [f'https://gimy.la/detail/{video_id}/'] and, when that page reports a
    failure, [f'https://gimy.cc/detail/{video_id}/']. *)
Definition detail_urls (video_id : pystr) : pystr * pystr :=
  (utf8 "https://gimy.la/detail/" ++ video_id ++ utf8 "/",
   utf8 "https://gimy.cc/detail/" ++ video_id ++ utf8 "/").

Definition detail_request (url : pystr) : option (pystr * (pystr * pystr)) :=
  match match_id valid_url_detail url with
  | Some video_id => Some (video_id, detail_urls video_id)
  | None => None
  end.

(** [IdoltvVodIE._real_extract]: [video_id = self._match_id(url)], page
    ['https://idoltv.tv/vod/' + video_id + '.html']. *)
Definition vod_page_url (video_id : pystr) : pystr :=
  utf8 "https://idoltv.tv/vod/" ++ video_id ++ utf8 ".html".

Definition vod_request (url : pystr) : option (pystr * pystr) :=
  match match_id valid_url_vod url with
  | Some video_id => Some (video_id, vod_page_url video_id)
  | None => None
  end.

(** ** The playlist of a series: [create_playlist] of [GimyDetailIE] and the
    loop of [IdoltvVodIE._real_extract] *)

(** The key [x[1]] of a playlist entry [(link, key)]: a [float] (the value of
    the first token) or an [int] (the two groups of the URL pattern). *)
Inductive pkey := KFloat (f : spec_float) | KInt (z : Z).
Definition pentry := (pystr * pkey)%type.

(** A [float] against an [int]: Python compares the exact values ([nan]
    compares neither way). *)
Definition float_cmp_int (f : spec_float) (z : Z) : option comparison :=
  match f with
  | S754_zero _ => Some (Z.compare 0 z)
  | S754_infinity s => Some (if s then Lt else Gt)
  | S754_nan => None
  | S754_finite s m e =>
      let v := if s then Z.neg m else Z.pos m in
      if 0 <=? e then Some (Z.compare (v * 2 ^ e) z)
      else Some (Z.compare v (z * 2 ^ (- e)))
  end.

(** [==] on keys. *)
Definition pkey_eqb (a b : pkey) : bool :=
  match a, b with
  | KFloat x, KFloat y => SFeqb x y
  | KFloat x, KInt z | KInt z, KFloat x =>
      match float_cmp_int x z with Some Eq => true | _ => false end
  | KInt p, KInt q => p =? q
  end.

(** [<] on keys. *)
Definition pkey_ltb (a b : pkey) : bool :=
  match a, b with
  | KFloat x, KFloat y => SFltb x y
  | KFloat x, KInt z => match float_cmp_int x z with Some Lt => true | _ => false end
  | KInt z, KFloat x => match float_cmp_int x z with Some Gt => true | _ => false end
  | KInt p, KInt q => p <? q
  end.

(** Tuple equality [==] and [entry in playlist]. *)
Definition pentry_eqb (a b : pentry) : bool :=
  str_eqb (fst a) (fst b) && pkey_eqb (snd a) (snd b).

Definition pentry_in (x : pentry) (l : list pentry) : bool := existsb (pentry_eqb x) l.

(** [float(v)] of the value of a token of kind ['d'] or ['e']: already a
    [float], or a date, whose six characters are digits ([re_date_find]). *)
Definition py_float_tval (v : tval) : option spec_float :=
  match v with
  | TNum f => Some f
  | TStr s => py_float_int s
  end.

(** [int(s)] of a string of digits: CPython refuses more than 4300 digits
    ([sys.get_int_max_str_digits()]) with a [ValueError]. *)
Definition py_int_digits (s : pystr) : option Z :=
  match s with
  | [] => None
  | _ => if (4300 <? List.length s)%nat then None else digits_value 0 s
  end.

(** [float(epsd[0][0]) if epsd[0][2] == 'd' or epsd[0][2] == 'e'
     else int(''.join(re.findall(regex, y[0])[0]))]; [None] is the
    [IndexError] of an empty list. *)
Definition playlist_key (rx : regex) (link : pystr) (epsd : list token) : option pkey :=
  match epsd with
  | [] => None
  | t :: _ =>
      if (tok_kind t =? kind_d) || (tok_kind t =? kind_e) then
        option_map KFloat (py_float_tval (tok_value t))
      else match findall_first2 rx link with
           | Some (g1, g2) => option_map KInt (py_int_digits (g1 ++ g2))
           | None => None
           end
  end.

(** [r'-(\d+)-(\d+)\.html'] (gimy.cc, and idoltv) *)
Definition re_key_cc : regex :=
  rseq [rchar "-"; RGroup 1 (rplus rd); rchar "-"; RGroup 2 (rplus rd); rlit ".html"].

(** [r'ep(\d+)\?sid=(\d+)'] (gimy.la) *)
Definition re_key_la : regex :=
  rseq [rlit "ep"; RGroup 1 (rplus rd); rlit "?sid="; RGroup 2 (rplus rd)].

Definition entry_eqb (a b : entry) : bool := str_eqb (fst a) (fst b) && str_eqb (snd a) (snd b).

(** [l.remove(x)]: the first element equal to [x] goes ([ValueError] if
    there is none). *)
Fixpoint list_remove (x : entry) (l : list entry) : option (list entry) :=
  match l with
  | [] => None
  | b :: rest => if entry_eqb b x then Some rest
                 else option_map (cons b) (list_remove x rest)
  end.

(** The loop [for b in a['links']]: [z], the entries whose label holds the
    token [e], and [d], the near matches. *)
Fixpoint scan_group (st : site) (e : token) (bs : list entry)
    : option (list entry * list entry) :=
  match bs with
  | [] => Some ([], [])
  | b :: rest =>
      match parse_episode st (snd b) with
      | None => None
      | Some ep =>
          match near_match e ep with
          | None => None
          | Some nm =>
              match scan_group st e rest with
              | None => None
              | Some (z, d) => Some ((if tok_in e ep then b :: z else z),
                                     (if nm then b :: d else d))
              end
          end
      end
  end.

(** [if len(z) == 1: links[j]['links'].remove(z[0])
     elif len(z) == 0 and len(d) == 1: links[j]['links'].remove(d[0])] *)
Definition prune (z d bs : list entry) : option (list entry) :=
  match z with
  | [b] => list_remove b bs
  | [] => match d with [b] => list_remove b bs | _ => Some bs end
  | _ => Some bs
  end.

Definition prune_token (st : site) (bs : list entry) (e : token) : option (list entry) :=
  match scan_group st e bs with
  | Some (z, d) => prune z d bs
  | None => None
  end.

(** [for j, a in enumerate(links): if <cond> and j > i: for e in epsd: ...];
    [skip] is the source test of the condition ([a['source'] != 'bilibili']
    in idoltv, none in gimy). *)
Fixpoint prune_later (st : site) (skip : pystr -> bool) (epsd : list token)
    (i j : nat) (gs : list group) : option (list group) :=
  match gs with
  | [] => Some []
  | a :: rest =>
      match (if negb (skip (source a)) && (i <? j)%nat
             then option_map (mk_group (source a)) (fold_opt (prune_token st) epsd (links a))
             else Some a),
            prune_later st skip epsd i (S j) rest with
      | Some a', Some rest' => Some (a' :: rest')
      | _, _ => None
      end
  end.

(** The body of [for y in x['links']] of the group [i]: the state is the
    playlist and the groups of [links] (their lists of links are mutated). *)
Definition playlist_step (st : site) (rx : regex) (skip : pystr -> bool) (i : nat)
    (s : list pentry * list group) (y : entry) : option (list pentry * list group) :=
  let '(playlist, gs) := s in
  match parse_episode st (snd y) with
  | None => None
  | Some epsd =>
      match playlist_key rx (fst y) epsd with
      | None => None
      | Some k =>
          let playlist' := if pentry_in (fst y, k) playlist then playlist
                           else playlist ++ [(fst y, k)] in
          match prune_later st skip epsd i 0 gs with
          | Some gs' => Some (playlist', gs')
          | None => None
          end
      end
  end.

(** [for i, x in enumerate(links)]: [x['links']] is read when the group is
    reached, with the removals made by the groups before it.  A group with a
    skipped source adds nothing to the playlist (in idoltv, the bilibili
    groups, whose entries are extracted by [IdoltvIE] instead). *)
Definition playlist_group (st : site) (rx : regex) (skip : pystr -> bool)
    (s : list pentry * list group) (i : nat) : option (list pentry * list group) :=
  match nth_error (snd s) i with
  | Some x => if skip (source x) then Some s
              else fold_opt (playlist_step st rx skip i) (links x) s
  | None => None
  end.

Definition playlist_loop (st : site) (rx : regex) (skip : pystr -> bool)
    (ls : list group) : option (list pentry) :=
  match fold_opt (playlist_group st rx skip) (seq 0 (List.length ls)) ([], ls) with
  | Some (playlist, _) => Some playlist
  | None => None
  end.

(** [GimyDetailIE]'s [create_playlist(links, regex)] ([self._parse_episode]
    is [GimyIE]'s). *)
Definition create_playlist (ls : list group) (rx : regex) : option (list pentry) :=
  playlist_loop Gimy rx (fun _ => false) ls.

(** The [playlist] of [IdoltvVodIE._real_extract]. *)
Definition vod_playlist (ls : list group) : option (list pentry) :=
  playlist_loop Idoltv re_key_cc (fun s => str_eqb s (utf8 "bilibili")) ls.

(** [sorted(playlist, key=lambda x: x[1])]: a stable sort with [<]. *)
Fixpoint insert_by_key (x : pentry) (l : list pentry) : list pentry :=
  match l with
  | [] => [x]
  | h :: rest => if pkey_ltb (snd x) (snd h) then x :: h :: rest
                 else h :: insert_by_key x rest
  end.

Definition sort_by_key (l : list pentry) : list pentry :=
  fold_left (fun acc x => insert_by_key x acc) l [].

(** The URLs of [entries]: [f'{url_prefix}{x[0]}'] (gimy) or
    ['https://idoltv.tv' + x[0]] (idoltv) in the sorted order. *)
Definition playlist_urls (url_prefix : pystr) (playlist : list pentry) : list pystr :=
  map (fun x => url_prefix ++ fst x) (sort_by_key playlist).

(** ** The search playlist of [IdoltvSearchIE] *)

(** [(idoltvsearch(?P<prefix>|[1-9][0-9]*|all):|(?P<http>http)s?://idoltv\.tv/vodsearch\.html\?wd=)(?P<query>[\s\S]+)]
    of [IdoltvSearchIE]: [prefix], [http] and [query] are the groups 2, 3
    and 4. *)
Definition valid_url_search : regex :=
  rseq [RGroup 1 (RAlt (rseq [rlit "idoltvsearch";
                              RGroup 2 (ralts [REps;
                                               RSeq (rset "123456789")
                                                    (RStar (rset "0123456789"));
                                               rlit "all"]);
                              rchar ":"])
                       (rseq [RGroup 3 (rlit "http"); ropt (rchar "s");
                              rlit "://idoltv.tv/vodsearch.html?wd="]));
        RGroup 4 (rplus (RClass (fun _ => true)))].

(** A Python number: an [int] or a [float]. *)
Inductive pnum := NInt (z : Z) | NFloat (f : spec_float).

(** An item of [PlaylistEntries.parse_playlist_items(...)]: an [int], or a
    [slice] of which the code reads [stop] (a number or [None]). *)
Inductive pitem := PInt (z : Z) | PSlice (stop : option pnum).

(** [bool(x)] of a number. *)
Definition pnum_truthy (x : pnum) : bool :=
  match x with
  | NInt z => negb (z =? 0)
  | NFloat (S754_zero _) => false
  | NFloat _ => true
  end.

(** [a > b] on numbers ([int] against [float] compares the exact values). *)
Definition pnum_gtb (a b : pnum) : bool :=
  match a, b with
  | NInt p, NInt q => q <? p
  | NFloat x, NFloat y => SFltb y x
  | NInt z, NFloat x => match float_cmp_int x z with Some Lt => true | _ => false end
  | NFloat x, NInt z => match float_cmp_int x z with Some Gt => true | _ => false end
  end.

(** [max(a, b)]: [a], unless [b > a]. *)
Definition py_max (a b : pnum) : pnum := if pnum_gtb b a then b else a.

(** The body of [for x in tuple(PlaylistEntries.parse_playlist_items(...))]. *)
Definition items_step (result_end : Z) (items_end : pnum) (x : pitem) : pnum :=
  match x with
  | PSlice stop =>
      match stop with
      | Some s => if pnum_truthy s then py_max s items_end else NInt result_end
      | None => NInt result_end
      end
  | PInt z => if 0 <? z then py_max (NInt z) items_end else NInt result_end
  end.

Definition items_end (result_end : Z) (l : list pitem) : pnum :=
  fold_left (items_step result_end) l (NInt 0).

(** [a / b] on two [int]s: correctly rounded; [None] is the
    [ZeroDivisionError] of [b == 0] and the [OverflowError] of a quotient
    too large for a [float]. *)
Definition py_int_truediv (a b : Z) : option spec_float :=
  if b =? 0 then None
  else match a with
       | Z0 => Some (S754_zero (b <? 0))
       | _ => match SFdiv 53 1024 (S754_finite (a <? 0) (Z.to_pos (Z.abs a)) 0)
                                  (S754_finite (b <? 0) (Z.to_pos (Z.abs b)) 0) with
              | S754_infinity _ => None
              | q => Some q
              end
       end.

(** [x / d] for a number [x] and an [int] [d]; a [float] divided by an
    [int] converts it first ([OverflowError] when it is too large). *)
Definition pnum_truediv (x : pnum) (d : Z) : option spec_float :=
  match x with
  | NInt a => py_int_truediv a d
  | NFloat f =>
      if d =? 0 then None
      else match f64_of_Z d with
           | S754_infinity _ => None
           | g => Some (SFdiv 53 1024 f g)
           end
  end.

(** [math.ceil(f)]: [None] is the [OverflowError] of an infinity and the
    [ValueError] of a nan. *)
Definition py_ceil (f : spec_float) : option Z :=
  match f with
  | S754_zero _ => Some 0
  | S754_infinity _ | S754_nan => None
  | S754_finite s m e =>
      let v := if s then Z.neg m else Z.pos m in
      if 0 <=? e then Some (v * 2 ^ e) else Some (- ((- v) / 2 ^ (- e)))
  end.

(** [range(a, b)] *)
Definition py_range (a b : Z) : list Z :=
  map (fun k => a + Z.of_nat k) (seq 0 (Z.to_nat (b - a))).

(** [l[:n]] for an [int] [n] (counted from the end when negative). *)
Definition py_slice_to {X : Type} (l : list X) (n : Z) : list X :=
  firstn (Z.to_nat (if n <? 0 then Z.of_nat (List.length l) + n else n)) l.

(** [int_or_none(prefix) or 1] *)
Definition prefix_count (prefix : pystr) : Z :=
  match py_int_digits prefix with
  | Some v => if v =? 0 then 1 else v
  | None => 1
  end.

(** [IdoltvSearchIE._real_extract]: the URLs of [entries].  [match_total]
    is the count the first result page reports, [playlistend] and
    [playlist_items] the parameters ([Some l] when [playlist_items] is set,
    [l] its parsed items), and [page i] the links found on the result page
    [i] ([None] when it is a 404 page, which raises).  A group that did not
    take part in the match reads as the empty string here: [http] is then
    falsy, as [None] is, and [prefix] is only read in the [idoltvsearch]
    branch, where it is set. *)
Definition search_entries (url : pystr) (match_total : Z) (playlistend : option Z)
    (playlist_items : option (list pitem)) (page : Z -> option (list pystr))
    : option (list pystr) :=
  match re_match valid_url_search url, page 1 with
  | Some (_, c), Some first =>
      let prefix := group_text c 2 in
      let http := group_text c 3 in
      let entries := map (fun x => utf8 "https://idoltv.tv" ++ x) in
      if 0 <? match_total then
        let items_per_page := Z.of_nat (List.length first) in
        let a := if str_eqb prefix (utf8 "all") || negb (str_eqb http [])
                 then match_total else prefix_count prefix in
        let b := match playlistend with
                 | Some p => if p =? 0 then match_total else p
                 | None => match_total
                 end in
        let result_end := Z.min a b in
        if items_per_page <? result_end then
          let result_end' := match playlist_items with
                             | Some l => items_end result_end l
                             | None => NInt result_end
                             end in
          match match pnum_truediv result_end' items_per_page with
                | Some q => py_ceil q
                | None => None
                end with
          | Some n =>
              match fold_opt (fun pl i => option_map (app pl) (page i))
                             (py_range 2 (n + 1)) first with
              | Some pl => match result_end' with
                           | NInt r => Some (entries (py_slice_to pl r))
                           | NFloat _ => None
                           end
              | None => None
              end
          | None => None
          end
        else Some (entries (py_slice_to first result_end))
      else Some []
  | _, _ => None
  end.

(** ** Text fields of the pages: the [description] of the gimy extractors and
    the heading of [IdoltvIE] *)

(** [s.startswith(p)] *)
Fixpoint prefixb (p s : pystr) : bool :=
  match p, s with
  | [], _ => true
  | x :: p', y :: s' => (x =? y) && prefixb p' s'
  | _ :: _, [] => false
  end.

(** The first position of [sub] in [s]: [s.find(sub)], or [None] where
    [find] gives [-1] and [s.index(sub)] raises [ValueError]. *)
Fixpoint find_sub (sub s : pystr) : option nat :=
  if prefixb sub s then Some 0%nat
  else match s with
       | [] => None
       | _ :: r => option_map S (find_sub sub r)
       end.

Definition py_find (s sub : pystr) : Z :=
  match find_sub sub s with Some k => Z.of_nat k | None => -1 end.

(** [intro[0:max(intro.find('，'), intro.find(','), 4)]] *)
Definition intro_head (intro : pystr) : pystr :=
  firstn (Z.to_nat (Z.max (Z.max (py_find intro [ch "，"]) (py_find intro [ch ","])) 4))
         intro.

(** [(desc_meta[:desc_meta.index(intro_head)] + intro) if intro else desc_meta],
    the same expression in [GimyIE], [GimyLaIE] and [GimyDetailIE]
    ([None] for a missing meta description or [intro]); the outer [None]
    is the exception: [ValueError] of [index], or the [AttributeError] of
    [None.index]. *)
Definition describe (desc_meta intro : option pystr) : option (option pystr) :=
  match intro with
  | Some ((_ :: _) as it) =>
      match desc_meta with
      | Some dm => match find_sub (intro_head it) dm with
                   | Some k => Some (Some (firstn k dm ++ it))
                   | None => None
                   end
      | None => None
      end
  | _ => Some desc_meta
  end.

(** [s.split(sep)] for a non-empty [sep]: the pieces between the
    occurrences of [sep] found from the left; each cut consumes [sep], so
    [length s + 1] rounds reach the last piece. *)
Fixpoint split_fuel (sep : pystr) (fuel : nat) (s : pystr) : list pystr :=
  match fuel with
  | O => [s]
  | S f => match find_sub sep s with
           | Some k => firstn k s :: split_fuel sep f (skipn (k + List.length sep) s)
           | None => [s]
           end
  end.

Definition py_split (sep s : pystr) : list pystr := split_fuel sep (S (List.length s)) s.

Definition bar : pystr := utf8 " | ".

(** [IdoltvIE._real_extract] from the page title [fulltitle] and the
    heading [video_inf[0]]:
    [catagory = fulltitle.split(' | ')[1]],
    [title = video_inf[0] or fulltitle.split(' | ')[0]],
    [episode = title.split(' | ')[1] or title.split(' ')[-1]];
    [None] is the [IndexError] of a missing piece. *)
Definition idoltv_heading (fulltitle h2 : pystr) : option (pystr * pystr * pystr) :=
  match nth_error (py_split bar fulltitle) 1 with
  | None => None
  | Some catagory =>
      let title := match h2 with [] => hd [] (py_split bar fulltitle) | _ => h2 end in
      match nth_error (py_split bar title) 1 with
      | None => None
      | Some e => Some (catagory, title,
                        match e with [] => last (split_on 32 title) [] | _ => e end)
      end
  end.

(** * Properties *)

(** ** The matcher against a declarative matching relation *)

Create HintDb mrel.

Section MatcherTheory.
Variable n0 : nat.

(** [mrel r s c s' c']: [r] can match a prefix of [s], leaving [s'], with
    the captures [c] extended to [c']. *)
Inductive mrel : regex -> pystr -> caps -> pystr -> caps -> Prop :=
| M_class p x s c : p x = true -> mrel (RClass p) (x :: s) c s c
| M_eps s c : mrel REps s c s c
| M_seq r1 r2 s c s1 c1 s2 c2 :
    mrel r1 s c s1 c1 -> mrel r2 s1 c1 s2 c2 -> mrel (RSeq r1 r2) s c s2 c2
| M_altl r1 r2 s c s' c' : mrel r1 s c s' c' -> mrel (RAlt r1 r2) s c s' c'
| M_altr r1 r2 s c s' c' : mrel r2 s c s' c' -> mrel (RAlt r1 r2) s c s' c'
| M_star0 r s c : mrel (RStar r) s c s c
| M_starS r s c s1 c1 s2 c2 :
    mrel r s c s1 c1 -> (List.length s1 < List.length s)%nat ->
    mrel (RStar r) s1 c1 s2 c2 -> mrel (RStar r) s c s2 c2
| M_group g r s c s1 c1 :
    mrel r s c s1 c1 -> mrel (RGroup g r) s c s1 ((g, (s, s1)) :: c1)
| M_bol s c : List.length s = n0 -> mrel RBol s c s c
| M_eol_end c : mrel REol [] c [] c
| M_eol_nl c : mrel REol [10] c [10] c.

Hint Constructors mrel : mrel.

Lemma star_loop_sound {A} (r : regex)
    (IH : forall s c (k : pystr -> caps -> option A) a,
        mt n0 r s c k = Some a ->
        exists s' c', mrel r s c s' c' /\ k s' c' = Some a) :
  forall fuel s c (k : pystr -> caps -> option A) a,
    star_loop (mt n0 r) k fuel s c = Some a ->
    exists s' c', mrel (RStar r) s c s' c' /\ k s' c' = Some a.
Proof.
  induction fuel as [|f IHf]; intros s c k a H; simpl in H.
  - eauto with mrel.
  - destruct (mt n0 r s c _) as [a'|] eqn:E.
    + inversion H; subst a'.
      apply IH in E as (s1 & c1 & Hm & Hk).
      destruct (Nat.ltb (List.length s1) (List.length s)) eqn:L; [|discriminate].
      apply Nat.ltb_lt in L.
      apply IHf in Hk as (s2 & c2 & Hm2 & Hk2).
      exists s2, c2. split; [econstructor; eauto | exact Hk2].
    + eauto with mrel.
Qed.

Lemma mt_sound {A} : forall r s c (k : pystr -> caps -> option A) a,
    mt n0 r s c k = Some a ->
    exists s' c', mrel r s c s' c' /\ k s' c' = Some a.
Proof.
  induction r as [p| |r1 IH1 r2 IH2|r1 IH1 r2 IH2|r1 IH1|g r1 IH1| |];
    intros s c k a H; simpl in H.
  - destruct s as [|x s]; [discriminate|].
    destruct (p x) eqn:P; [eauto with mrel|discriminate].
  - eauto with mrel.
  - apply IH1 in H as (s1 & c1 & Hm1 & H1).
    apply IH2 in H1 as (s2 & c2 & Hm2 & H2).
    eauto with mrel.
  - destruct (mt n0 r1 s c k) eqn:E.
    + inversion H; subst. apply IH1 in E as (s' & c' & ? & ?). eauto with mrel.
    + apply IH2 in H as (s' & c' & ? & ?). eauto with mrel.
  - apply (star_loop_sound r1 IH1 (S (List.length s))). simpl. exact H.
  - apply IH1 in H as (s1 & c1 & Hm & Hk). eauto with mrel.
  - destruct (Nat.eqb (List.length s) n0) eqn:E; [|discriminate].
    apply Nat.eqb_eq in E. eauto with mrel.
  - destruct s as [|x [|y s]]; [eauto with mrel| |discriminate].
    destruct (x =? 10) eqn:E; [|discriminate].
    apply Z.eqb_eq in E; subst. eauto with mrel.
Qed.

Lemma mt_complete {A} : forall r s c s' c', mrel r s c s' c' ->
    forall (k : pystr -> caps -> option A) a, k s' c' = Some a ->
    (exists a', mt n0 r s c k = Some a') /\
    (forall r0 f, r = RStar r0 -> (List.length s < f)%nat ->
       exists a', star_loop (mt n0 r0) k f s c = Some a').
Proof.
  induction 1; intros k a Hk;
    (split; [| intros r0 f Er Lf; try discriminate Er]).
  - simpl. rewrite H. eauto.
  - simpl. eauto.
  - simpl. destruct (IHmrel2 k a Hk) as [[a2 H2] _].
    destruct (IHmrel1 (fun s1 c1 => mt n0 r2 s1 c1 k) a2 H2) as [H1 _].
    exact H1.
  - simpl. destruct (IHmrel k a Hk) as [[a1 H1] _]. rewrite H1. eauto.
  - simpl. destruct (IHmrel k a Hk) as [[a1 H1] _].
    destruct (mt n0 r1 s c k); eauto.
  - simpl. destruct (List.length s); simpl.
    + destruct (mt n0 r s c _); eauto.
    + destruct (mt n0 r s c _); eauto.
  - injection Er as <-. destruct f as [|f]; [lia|]. simpl.
    destruct (mt n0 r s c _); eauto.
  - simpl. destruct (IHmrel2 k a Hk) as [_ H2].
    destruct (H2 r (List.length s) eq_refl ltac:(lia)) as [a2 Ha2].
    destruct (IHmrel1 (fun s' c' => if Nat.ltb (List.length s') (List.length s)
                                    then star_loop (mt n0 r) k (List.length s) s' c'
                                    else None) a2) as [[a1 Ha1] _].
    { apply Nat.ltb_lt in H0. rewrite H0. exact Ha2. }
    rewrite Ha1. eauto.
  - injection Er as <-. destruct f as [|f]; [lia|]. simpl.
    destruct (IHmrel2 k a Hk) as [_ H2].
    destruct (H2 r f eq_refl ltac:(lia)) as [a2 Ha2].
    destruct (IHmrel1 (fun s' c' => if Nat.ltb (List.length s') (List.length s)
                                    then star_loop (mt n0 r) k f s' c'
                                    else None) a2) as [[a1 Ha1] _].
    { apply Nat.ltb_lt in H0. rewrite H0. exact Ha2. }
    rewrite Ha1. eauto.
  - simpl. destruct (IHmrel (fun s1 c1 => k s1 ((g, (s, s1)) :: c1)) a Hk) as [H1 _].
    exact H1.
  - simpl. rewrite H, Nat.eqb_refl. eauto.
  - simpl. eauto.
  - simpl. eauto.
Qed.
End MatcherTheory.

Global Hint Constructors mrel : mrel.

(** *** Consumed prefixes, captures and [re.search] *)

Fixpoint gfree (r : regex) : bool :=
  match r with
  | RGroup _ _ => false
  | RSeq r1 r2 | RAlt r1 r2 => gfree r1 && gfree r2
  | RStar r1 => gfree r1
  | _ => true
  end.

Lemma mrel_prefix n0 r s c s' c' :
  mrel n0 r s c s' c' -> exists p, s = p ++ s'.
Proof.
  induction 1; try (exists []; reflexivity).
  - exists [x]; reflexivity.
  - destruct IHmrel1 as [p1 ->], IHmrel2 as [p2 ->]. exists (p1 ++ p2).
    now rewrite app_assoc.
  - exact IHmrel.
  - exact IHmrel.
  - destruct IHmrel1 as [p1 ->], IHmrel2 as [p2 ->]. exists (p1 ++ p2).
    now rewrite app_assoc.
  - exact IHmrel.
Qed.

(** A pattern without groups leaves the captures alone, whatever they are. *)
Lemma mrel_gfree n0 r s c s' c' :
  mrel n0 r s c s' c' -> gfree r = true ->
  c' = c /\ forall c0, mrel n0 r s c0 s' c0.
Proof.
  induction 1; simpl; intros G; try discriminate;
    try (split; [reflexivity | intros; eauto with mrel]).
  - apply andb_true_iff in G as [G1 G2].
    destruct (IHmrel1 G1) as [-> H1], (IHmrel2 G2) as [-> H2].
    split; [reflexivity | intros; eauto with mrel].
  - apply andb_true_iff in G as [G1 G2].
    destruct (IHmrel G1) as [-> K1]. split; [reflexivity | intros; eauto with mrel].
  - apply andb_true_iff in G as [G1 G2].
    destruct (IHmrel G2) as [-> K1]. split; [reflexivity | intros; eauto with mrel].
  - destruct (IHmrel1 G) as [-> K1], (IHmrel2 G) as [-> K2].
    split; [reflexivity | intros; eauto with mrel].
Qed.

(** A star of a character class consumes a run of such characters. *)
Lemma mrel_star_class n0 p s c s' c' :
  mrel n0 (RStar (RClass p)) s c s' c' ->
  c' = c /\ exists w, s = w ++ s' /\ Forall (fun x => p x = true) w.
Proof.
  remember (RStar (RClass p)) as r eqn:Er.
  induction 1; try discriminate; injection Er as E; subst.
  - split; [reflexivity|]. exists []. split; [reflexivity | constructor].
  - inversion H; subst.
    destruct (IHmrel2 eq_refl) as [-> (w & -> & Hw)].
    split; [reflexivity|]. exists (x :: w). split; [reflexivity | constructor; auto].
Qed.

Lemma mrel_star_class_intro n0 p w s c :
  Forall (fun x => p x = true) w -> mrel n0 (RStar (RClass p)) (w ++ s) c s c.
Proof.
  induction 1; simpl; [constructor|].
  apply (M_starS n0 (RClass p) (x :: l ++ s) c (l ++ s) c s c);
    [constructor; assumption | simpl; lia | exact IHForall].
Qed.

Lemma search_from_sound r n0 s t s' c :
  search_from r n0 s = Some (t, s', c) ->
  exists p, s = p ++ t /\ mrel n0 r t [] s' c.
Proof.
  induction s as [|x s IH]; simpl; intro H.
  - destruct (mt n0 r [] [] _) as [[s1 c1]|] eqn:E; [|discriminate].
    injection H as <- <- <-.
    apply mt_sound in E as (s2 & c2 & Hm & Hk). injection Hk as -> ->.
    exists []; split; [reflexivity | exact Hm].
  - destruct (mt n0 r (x :: s) [] _) as [[s1 c1]|] eqn:E.
    + injection H as <- <- <-.
      apply mt_sound in E as (s2 & c2 & Hm & Hk). injection Hk as -> ->.
      exists []; split; [reflexivity | exact Hm].
    + apply IH in H as (p & -> & Hm). exists (x :: p); split; [reflexivity | exact Hm].
Qed.

Lemma search_from_complete r n0 p t s' c :
  mrel n0 r t [] s' c -> exists x, search_from r n0 (p ++ t) = Some x.
Proof.
  intro Hm. induction p as [|x p IH]; simpl.
  - destruct (mt_complete n0 _ _ _ _ _ Hm (fun s' c => Some (s', c)) (s', c) eq_refl)
      as [[a Ha] _].
    destruct t as [|y t]; simpl; rewrite Ha; destruct a; eauto.
  - destruct (mt n0 r (x :: p ++ t) [] _) as [[s1 c1]|]; eauto.
Qed.

Lemma re_found_iff r s :
  re_found r s = true <->
  exists p t s' c, s = p ++ t /\ mrel (List.length s) r t [] s' c.
Proof.
  unfold re_found, re_search. split.
  - destruct (search_from r (List.length s) s) as [[[t s'] c]|] eqn:E; [|discriminate].
    intros _. apply search_from_sound in E as (p & Hp & Hm). eauto 6.
  - intros (p & t & s' & c & Hs & Hm).
    pose proof Hm as Hm'. rewrite Hs in Hm' at 1.
    destruct (search_from_complete r (List.length s) p t s' c Hm) as [x Hx].
    rewrite <- Hs in Hx. rewrite Hx. reflexivity.
Qed.

Lemma re_search_sound r s t s' c :
  re_search r s = Some (t, s', c) ->
  exists p, s = p ++ t /\ mrel (List.length s) r t [] s' c.
Proof. apply search_from_sound. Qed.

Lemma slice_app w b : slice (w ++ b) b = w.
Proof.
  unfold slice. rewrite length_app.
  replace (List.length w + List.length b - List.length b)%nat with (List.length w) by lia.
  rewrite firstn_app, firstn_all, Nat.sub_diag. simpl. apply app_nil_r.
Qed.

(** *** The [findall] after each [re.search] of [_parse_episode] finds a match *)

Ltac inv_m H := inversion H; subst; clear H.

Lemma mrel_seq_inv n r1 r2 s c s' c' :
  mrel n (RSeq r1 r2) s c s' c' ->
  exists s1 c1, mrel n r1 s c s1 c1 /\ mrel n r2 s1 c1 s' c'.
Proof. intro H. inversion H; subst. eauto. Qed.

Lemma mrel_alt_inv n r1 r2 s c s' c' :
  mrel n (RAlt r1 r2) s c s' c' -> mrel n r1 s c s' c' \/ mrel n r2 s c s' c'.
Proof. intro H. inversion H; subst; auto. Qed.

Lemma mrel_class_inv n p s c s' c' :
  mrel n (RClass p) s c s' c' -> exists x, s = x :: s' /\ p x = true /\ c' = c.
Proof. intro H. inversion H; subst. eauto. Qed.

Lemma mrel_eps_inv n s c s' c' : mrel n REps s c s' c' -> s' = s /\ c' = c.
Proof. intro H. inversion H; subst. auto. Qed.

Lemma mrel_group_inv n g r s c s' c' :
  mrel n (RGroup g r) s c s' c' ->
  exists c1, mrel n r s c s' c1 /\ c' = (g, (s, s')) :: c1.
Proof. intro H. inversion H; subst. eauto. Qed.

Lemma mrel_bol_inv n s c s' c' :
  mrel n RBol s c s' c' -> s' = s /\ c' = c /\ List.length s = n.
Proof. intro H. inversion H; subst. auto. Qed.

Ltac invert_mrel :=
  repeat match goal with
  | H : mrel _ (RSeq _ _) _ _ _ _ |- _ => apply mrel_seq_inv in H as (? & ? & ? & ?)
  | H : mrel _ (RAlt _ _) _ _ _ _ |- _ => apply mrel_alt_inv in H as [H|H]
  | H : mrel _ (RClass _) _ _ _ _ |- _ => apply mrel_class_inv in H as (? & ? & ? & ?); subst
  | H : mrel _ REps _ _ _ _ |- _ => apply mrel_eps_inv in H as [? ?]; subst
  | H : mrel _ (RGroup _ _) _ _ _ _ |- _ => apply mrel_group_inv in H as (? & ? & ?); subst
  | H : mrel _ RBol _ _ _ _ |- _ => apply mrel_bol_inv in H as (? & ? & ?); subst
  end.

Lemma digits_value_some acc w :
  Forall (fun x => is_digit x = true) w -> exists n, digits_value acc w = Some n.
Proof.
  intro H. revert acc. induction H as [|x w Hx Hw IH]; intro acc; simpl; eauto.
  unfold is_digit in Hx. destruct (digit_value x); [apply IH | discriminate].
Qed.

Lemma py_float_int_some w :
  w <> [] -> Forall (fun x => is_digit x = true) w ->
  exists f, py_float_int w = Some f.
Proof.
  intros Hne Hd. unfold py_float_int. destruct w as [|x w']; [congruence|].
  destruct (digits_value_some 0 _ Hd) as [n ->]. eauto.
Qed.

Lemma mrel_rseq_app n l1 l2 t c s c' :
  mrel n (rseq (l1 ++ l2)) t c s c' ->
  exists t' c'', mrel n (rseq l1) t c t' c'' /\ mrel n (rseq l2) t' c'' s c'.
Proof.
  revert t c. induction l1 as [|r l1 IH]; simpl; intros t c H.
  - exists t, c. split; [constructor | exact H].
  - apply mrel_seq_inv in H as (t1 & c1 & K0 & Hrest).
    apply IH in Hrest as (t' & c'' & K1 & K2).
    exists t', c''. split; [econstructor; eauto | exact K2].
Qed.

Lemma mrel_seq_eps n r t c s c' :
  mrel n (RSeq r REps) t c s c' -> mrel n r t c s c'.
Proof.
  intro H. apply mrel_seq_inv in H as (s1 & c1 & H1 & H2).
  apply mrel_eps_inv in H2 as [-> ->]. exact H1.
Qed.

(** [\d+] consumes a non-empty run of digits. *)
Lemma mrel_digits_plus n t c s c' :
  mrel n (rplus rd) t c s c' ->
  c' = c /\ exists x w, t = x :: w ++ s /\ is_digit x = true /\
                        Forall (fun y => is_digit y = true) w.
Proof.
  intro H. apply mrel_seq_inv in H as (s1 & c1 & H1 & H2).
  apply mrel_class_inv in H1 as (x & -> & Hx & ->).
  apply mrel_star_class in H2 as [-> (w & -> & Hw)].
  split; [reflexivity|]. exists x, w. auto.
Qed.

Definition ep_find_prefix : regex :=
  ralts [rlit "第"; rseq [rlit_i "e"; ropt (rlit_i "p"); RStar rs];
         rseq [rlit_i "episode"; RStar rs]; rlit "（"].

(** Erasing the groups of a pattern does not change what it matches. *)
Fixpoint ungroup (r : regex) : regex :=
  match r with
  | RGroup _ r1 => ungroup r1
  | RSeq r1 r2 => RSeq (ungroup r1) (ungroup r2)
  | RAlt r1 r2 => RAlt (ungroup r1) (ungroup r2)
  | RStar r1 => RStar (ungroup r1)
  | r1 => r1
  end.

Lemma mrel_ungroup n r t c s c' :
  mrel n r t c s c' -> forall c0, mrel n (ungroup r) t c0 s c0.
Proof. induction 1; intro c0; simpl; eauto with mrel. Qed.

Lemma mrel_regroup n r :
  forall t c0 s c0', mrel n (ungroup r) t c0 s c0' ->
  forall c, exists c', mrel n r t c s c'.
Proof.
  induction r as [p| |r1 IH1 r2 IH2|r1 IH1 r2 IH2|r1 IH1|g r1 IH1| |];
    simpl; intros t c0 s c0' H cc.
  - apply mrel_class_inv in H as (x & -> & Hx & ->). eauto with mrel.
  - apply mrel_eps_inv in H as [-> ->]. eauto with mrel.
  - apply mrel_seq_inv in H as (s1 & c1 & H1 & H2).
    destruct (IH1 _ _ _ _ H1 cc) as [d2 K1].
    destruct (IH2 _ _ _ _ H2 d2) as [d3 K2]. eauto with mrel.
  - apply mrel_alt_inv in H as [H|H].
    + destruct (IH1 _ _ _ _ H cc) as [d2 K]. eauto with mrel.
    + destruct (IH2 _ _ _ _ H cc) as [d2 K]. eauto with mrel.
  - remember (RStar (ungroup r1)) as R eqn:ER. revert cc.
    induction H; try discriminate; injection ER as E; subst; intro cc.
    + eauto with mrel.
    + destruct (IH1 _ _ _ _ H cc) as [d2 K1].
      destruct (IHmrel2 eq_refl d2) as [d3 K2]. eauto with mrel.
  - destruct (IH1 _ _ _ _ H cc) as [d2 K]. eauto with mrel.
  - apply mrel_bol_inv in H as (-> & -> & L). eauto with mrel.
  - inversion H; subst; eauto with mrel.
Qed.

(** [exists w, t = w ++ s /\ ...] with [t] a list written out before [s]. *)
Ltac prefix_of t s :=
  match t with
  | s => constr:(@nil char)
  | ?x :: ?t' => let w := prefix_of t' s in constr:(x :: w)
  end.

Ltac exists_prefix :=
  match goal with
  | |- exists w, ?t = w ++ ?s /\ _ => let w := prefix_of t s in exists w
  end.

(** [r{1,4}] with [r = \d] consumes one to four digits. *)
Lemma mrel_rep14_digits n t c s c' :
  mrel n (rrep14 rd) t c s c' ->
  c' = c /\ exists w, t = w ++ s /\ w <> [] /\ (List.length w <= 4)%nat /\
                      Forall (fun y => is_digit y = true) w.
Proof.
  unfold rrep14, ropt, rd. intro H. invert_mrel;
    (split; [reflexivity|]); exists_prefix;
    (split; [reflexivity|]); (split; [discriminate|]);
    (split; [simpl; lia|]); repeat constructor; assumption.
Qed.

Lemma mrel_rseq_cons n r l t c s c' :
  mrel n (rseq (r :: l)) t c s c' ->
  exists t1 c1, mrel n r t c t1 c1 /\ mrel n (rseq l) t1 c1 s c'.
Proof. apply mrel_seq_inv. Qed.

Ltac gfree_caps H :=
  apply mrel_gfree in H as [? H]; [subst | reflexivity].

Lemma ep_find_path n t t' s0 c0 :
  mrel n ep_find_prefix t [] t' [] -> mrel n (rplus rd) t' [] s0 c0 ->
  exists s c, mrel n re_ep_find t [] s c.
Proof.
  intros Ha Hd. do 2 eexists.
  unfold re_ep_find. cbn [rseq fold_right].
  eapply M_seq. { eapply M_seq. exact Ha. apply M_star0. }
  eapply M_seq. { apply M_altr. apply M_eps. }
  eapply M_seq. { apply M_group. exact Hd. }
  eapply M_seq. { apply M_altr. apply M_eps. }
  apply M_eps.
Qed.

Lemma group_text_head g a b c : group_text ((g, (a, b)) :: c) g = slice a b.
Proof. unfold group_text. simpl. rewrite Nat.eqb_refl. reflexivity. Qed.

Lemma group_text_other g g' a b c :
  g' <> g -> group_text ((g', (a, b)) :: c) g = group_text c g.
Proof.
  intro H. unfold group_text. simpl.
  apply Nat.eqb_neq in H. rewrite H. reflexivity.
Qed.

Lemma findall_first1_spec r e (P : pystr -> Prop) :
  re_found r e = true ->
  (forall n t s c, mrel n r t [] s c -> P (group_text c 1)) ->
  exists g, findall_first1 r e = Some g /\ P g.
Proof.
  unfold re_found, findall_first1. intros Hf HP.
  destruct (re_search r e) as [[[t s'] c]|] eqn:E; [|discriminate].
  apply re_search_sound in E as (p & _ & Hm). eauto.
Qed.

Lemma findall_first2_spec r e (P : pystr -> pystr -> Prop) :
  re_found r e = true ->
  (forall n t s c, mrel n r t [] s c -> P (group_text c 1) (group_text c 2)) ->
  exists g1 g2, findall_first2 r e = Some (g1, g2) /\ P g1 g2.
Proof.
  unfold re_found, findall_first2. intros Hf HP.
  destruct (re_search r e) as [[[t s'] c]|] eqn:E; [|discriminate].
  apply re_search_sound in E as (p & _ & Hm). eauto.
Qed.

Definition digit_string (w : pystr) : Prop :=
  w <> [] /\ Forall (fun y => is_digit y = true) w.

Lemma ep_find_group n t s c :
  mrel n re_ep_find t [] s c -> digit_string (group_text c 1).
Proof.
  unfold re_ep_find. cbn [rseq fold_right]. intro H.
  apply mrel_seq_inv in H as (s1 & c1 & H1 & H2).
  apply mrel_seq_inv in H2 as (s2 & c2 & H3 & H4).
  apply mrel_seq_inv in H4 as (s3 & c3 & H5 & H6).
  apply mrel_group_inv in H5 as (c4 & H7 & ->).
  gfree_caps H6.
  apply mrel_digits_plus in H7 as [_ (x & w & -> & Hx & Hw)].
  rewrite group_text_head.
  change (x :: w ++ s3) with ((x :: w) ++ s3). rewrite slice_app.
  split; [discriminate | constructor; assumption].
Qed.

Lemma num_find_group n t s c :
  mrel n re_num_find t [] s c -> digit_string (group_text c 1).
Proof.
  unfold re_num_find. cbn [rseq fold_right]. intro H.
  apply mrel_seq_inv in H as (s1 & c1 & H1 & H2).
  apply mrel_seq_inv in H2 as (s2 & c2 & H3 & H4).
  apply mrel_group_inv in H3 as (c4 & H5 & ->).
  apply mrel_eps_inv in H4 as [-> ->].
  apply mrel_rep14_digits in H5 as [_ (w & -> & Hne & _ & Hw)].
  rewrite group_text_head, slice_app. split; assumption.
Qed.

Lemma range_find_groups n t s c :
  mrel n re_range_find t [] s c ->
  digit_string (group_text c 1) /\ digit_string (group_text c 2).
Proof.
  unfold re_range_find. cbn [rseq fold_right]. intro H.
  apply mrel_seq_inv in H as (s1 & c1 & H1 & H2).
  apply mrel_seq_inv in H2 as (s2 & c2 & H3 & H4).
  apply mrel_group_inv in H3 as (c3 & H5 & ->).
  apply mrel_seq_inv in H4 as (s4 & c4 & H6 & H7).
  gfree_caps H6.
  apply mrel_seq_inv in H7 as (s5 & c5 & H8 & H9).
  gfree_caps H8.
  apply mrel_seq_inv in H9 as (s6 & c6 & H10 & H11).
  apply mrel_group_inv in H10 as (c7 & H12 & ->).
  apply mrel_eps_inv in H11 as [-> ->].
  apply mrel_rep14_digits in H5 as [E1 (w1 & -> & Hne1 & _ & Hw1)].
  apply mrel_rep14_digits in H12 as [E2 (w2 & -> & Hne2 & _ & Hw2)].
  subst. rewrite group_text_head, group_text_other, group_text_head by discriminate.
  rewrite !slice_app. split; split; assumption.
Qed.

(** Each [re.findall] of [_parse_episode] runs only after a [re.search]
    succeeded, and the two patterns match the same places. *)
Lemma re_found_at r p t s c :
  mrel (List.length (p ++ t)) r t [] s c -> re_found r (p ++ t) = true.
Proof. intro H. apply re_found_iff. exists p, t, s, c. auto. Qed.

Lemma date_search_find st e :
  re_found (re_date_search st) e = true -> re_found (re_date_find st) e = true.
Proof.
  rewrite re_found_iff. intros (p & t & s' & c & -> & H).
  destruct st; unfold re_date_search, re_date_find in *.
  - apply mrel_rseq_cons in H as (t1 & c1 & H1 & H2).
    apply mrel_rseq_cons in H2 as (t2 & c2 & H3 & H4).
    apply mrel_alt_inv in H1 as [H1|H1].
    + apply mrel_group_inv in H1 as (c3 & H1 & _). gfree_caps H1.
      gfree_caps H3. gfree_caps H4. eapply (re_found_at _ p t).
      eapply M_seq; [apply M_altl, H1|].
      eapply M_seq; [apply H3|].
      eapply M_seq; [apply M_group, H4 | apply M_eps].
    + apply mrel_eps_inv in H1 as [-> ->].
      gfree_caps H3. gfree_caps H4. eapply (re_found_at _ p t).
      eapply M_seq; [apply M_altr, M_eps|].
      eapply M_seq; [apply H3|].
      eapply M_seq; [apply M_group, H4 | apply M_eps].
  - apply mrel_rseq_cons in H as (t1 & c1 & H1 & H2).
    apply mrel_alt_inv in H1 as [H1|H1].
    + apply mrel_group_inv in H1 as (c3 & H1 & _). gfree_caps H1.
      gfree_caps H2. eapply (re_found_at _ p t).
      eapply M_seq; [apply M_altl, H1|].
      eapply M_seq; [apply M_group, H2 | apply M_eps].
    + apply mrel_eps_inv in H1 as [-> ->].
      gfree_caps H2. eapply (re_found_at _ p t).
      eapply M_seq; [apply M_altr, M_eps|].
      eapply M_seq; [apply M_group, H2 | apply M_eps].
Qed.

Lemma ep_search_find e :
  re_found re_ep_search e = true -> re_found re_ep_find e = true.
Proof.
  rewrite re_found_iff. intros (p & t & s' & c & -> & H).
  cut (exists s c, mrel (List.length (p ++ t)) re_ep_find t [] s c).
  { intros (s0 & c0 & K). apply re_found_iff. exists p, t, s0, c0. auto. }
  unfold re_ep_search in H. cbn [ralts] in H.
  apply mrel_alt_inv in H as [H|H];
    [|apply mrel_alt_inv in H as [H|H]; [|apply mrel_alt_inv in H as [H|H]]].
  - apply mrel_group_inv in H as (c1 & H & _).
    apply mrel_rseq_cons in H as (t1 & c2 & H1 & H2).
    apply mrel_rseq_cons in H2 as (t2 & c3 & H3 & _).
    gfree_caps H1. gfree_caps H3.
    apply (ep_find_path _ t t1 t2 []);
      [unfold ep_find_prefix; cbn [ralts]; apply M_altl, H1 | apply H3].
  - apply mrel_group_inv in H as (c1 & H & _).
    apply (mrel_rseq_app _ [rlit_i "e"; ropt (rlit_i "p"); RStar rs] [rplus rd])
      in H as (t1 & c2 & H1 & H2).
    gfree_caps H1. apply mrel_seq_eps in H2. gfree_caps H2.
    apply (ep_find_path _ t t1 s' []);
      [unfold ep_find_prefix; cbn [ralts]; apply M_altr, M_altl, H1 | apply H2].
  - apply mrel_group_inv in H as (c1 & H & _).
    apply (mrel_rseq_app _ [rlit_i "episode"; RStar rs] [rplus rd])
      in H as (t1 & c2 & H1 & H2).
    gfree_caps H1. apply mrel_seq_eps in H2. gfree_caps H2.
    apply (ep_find_path _ t t1 s' []);
      [unfold ep_find_prefix; cbn [ralts]; apply M_altr, M_altr, M_altl, H1 | apply H2].
  - apply mrel_rseq_cons in H as (t1 & c2 & H1 & H2).
    apply mrel_rseq_cons in H2 as (t2 & c3 & H3 & _).
    gfree_caps H1. gfree_caps H3.
    apply (ep_find_path _ t t1 t2 []);
      [unfold ep_find_prefix; cbn [ralts]; apply M_altr, M_altr, M_altr, H1 | apply H3].
Qed.

Lemma num_search_find e :
  re_found re_num_search e = true -> re_found re_num_find e = true.
Proof.
  rewrite re_found_iff. intros (p & t & s' & c & -> & H).
  unfold re_num_search in H.
  apply mrel_rseq_cons in H as (t1 & c1 & H1 & H2).
  apply mrel_rseq_cons in H2 as (t2 & c2 & H3 & H4).
  apply mrel_rseq_cons in H4 as (t3 & c3 & H5 & _).
  apply mrel_bol_inv in H1 as (-> & -> & _).
  destruct (mrel_prefix _ _ _ _ _ _ H3) as [pre ->].
  gfree_caps H5.
  pose proof (re_found_at re_num_find (p ++ pre) t2) as R.
  rewrite <- app_assoc in R. eapply R.
  unfold re_num_find. cbn [rseq fold_right].
  eapply M_seq; [apply M_altr, M_eps|].
  eapply M_seq; [apply M_group, H5 | apply M_eps].
Qed.

Lemma range_search_find e :
  re_found re_range_search e = true -> re_found re_range_find e = true.
Proof.
  rewrite re_found_iff. intros (p & t & s' & c & -> & H).
  unfold re_range_search in H.
  apply mrel_rseq_cons in H as (t1 & c1 & H1 & H2).
  apply mrel_rseq_cons in H2 as (t2 & c2 & H3 & H4).
  apply mrel_rseq_cons in H4 as (t3 & c3 & H5 & H6).
  apply mrel_rseq_cons in H6 as (t4 & c4 & H7 & H8).
  apply mrel_rseq_cons in H8 as (t5 & c5 & H9 & _).
  apply mrel_bol_inv in H1 as (-> & -> & _).
  destruct (mrel_prefix _ _ _ _ _ _ H3) as [pre ->].
  gfree_caps H5. gfree_caps H7. gfree_caps H9.
  pose proof (re_found_at re_range_find (p ++ pre) t2) as R.
  rewrite <- app_assoc in R. eapply R.
  unfold re_range_find. cbn [rseq fold_right].
  eapply M_seq; [apply M_altr, M_eps|].
  eapply M_seq; [apply M_group, H5|].
  eapply M_seq; [apply H7|].
  eapply M_seq; [apply M_altr, M_eps|].
  eapply M_seq; [apply M_group, H9 | apply M_eps].
Qed.

(** *** Every segment yields tokens *)

Lemma is_digit_zero : is_digit (ch "0") = true.
Proof. reflexivity. Qed.

Lemma digit_string_zfill4 w :
  Forall (fun y => is_digit y = true) w -> Forall (fun y => is_digit y = true) (zfill4 w).
Proof.
  intro H. unfold zfill4. apply Forall_app. split; [|exact H].
  apply Forall_forall. intros x Hx. apply repeat_spec in Hx. subst. apply is_digit_zero.
Qed.

Lemma py_float_point_some n1 n2 :
  digit_string n1 -> digit_string n2 -> exists f, py_float_point n1 (zfill4 n2) = Some f.
Proof.
  intros [Hne1 Hd1] [_ Hd2]. unfold py_float_point.
  destruct (digits_value_some 0 _ Hd1) as [a Ha].
  destruct (digits_value_some 0 _ (digit_string_zfill4 _ Hd2)) as [b Hb].
  destruct n1 as [|x n1]; [congruence|]. rewrite Ha, Hb. eauto.
Qed.

Lemma seg_date_some st part e :
  exists a, seg_date st part e = Some a /\
    (a = [] \/ exists v, a = [(TStr v, part, kind_d)]) /\
    (re_found (re_date_search st) e = false -> a = []).
Proof.
  unfold seg_date. destruct (re_found (re_date_search st) e) eqn:Ed.
  - destruct (findall_first1_spec _ _ (fun _ => True) (date_search_find _ _ Ed)
                (fun _ _ _ _ _ => I)) as [g [-> _]].
    eexists. split; [reflexivity|]. split; [right; eauto | discriminate].
  - eauto.
Qed.

Lemma seg_number_some part e :
  exists b, seg_number part e = Some b /\
    (b = [] \/ exists f, b = [(TNum f, part, kind_e)]) /\
    (re_found re_ep_search e = false -> re_found re_num_search e = false ->
     re_found re_range_search e = false -> b = []).
Proof.
  unfold seg_number.
  destruct (re_found re_ep_search e) eqn:Ee; [|destruct (re_found re_num_search e) eqn:En;
    [|destruct (re_found re_range_search e) eqn:Er]].
  - destruct (findall_first1_spec _ _ digit_string (ep_search_find _ Ee) ep_find_group)
      as [g [-> [Hne Hd]]].
    destruct (py_float_int_some g Hne Hd) as [f ->].
    eexists. split; [reflexivity|]. split; [right; eauto | discriminate].
  - destruct (findall_first1_spec _ _ digit_string (num_search_find _ En) num_find_group)
      as [g [-> [Hne Hd]]].
    destruct (py_float_int_some g Hne Hd) as [f ->].
    eexists. split; [reflexivity|]. split; [right; eauto | discriminate].
  - destruct (findall_first2_spec _ _ (fun g1 g2 => digit_string g1 /\ digit_string g2)
                (range_search_find _ Er) range_find_groups) as (g1 & g2 & -> & H1 & H2).
    destruct (py_float_point_some g1 g2 H1 H2) as [f ->].
    eexists. split; [reflexivity|]. split; [right; eauto | discriminate].
  - eauto.
Qed.

Definition token_kinds : list char := [kind_d; kind_e; kind_r; kind_n].

Ltac single_tok :=
  constructor; [split; [reflexivity | unfold token_kinds; simpl; auto 6] | constructor].

Lemma parse_segment_some st part e :
  exists toks, parse_segment st part e = Some toks /\ toks <> [] /\
    Forall (fun t => tok_part t = part /\ In (tok_kind t) token_kinds) toks /\
    (re_found (re_date_search st) e = false -> re_found re_ep_search e = false ->
     re_found re_num_search e = false -> re_found re_range_search e = false ->
     re_found (re_res st) e = false -> toks = [(TStr e, part, kind_n)]).
Proof.
  unfold parse_segment.
  destruct (seg_date_some st part e) as (a & -> & Ha & Ha0).
  destruct (seg_number_some part e) as (b & -> & Hb & Hb0).
  assert (HF : Forall (fun t => tok_part t = part /\ In (tok_kind t) token_kinds)
                 (a ++ b ++ seg_res st part e)).
  { apply Forall_app; split; [|apply Forall_app; split].
    - destruct Ha as [-> | [v ->]]; [constructor | single_tok].
    - destruct Hb as [-> | [f ->]]; [constructor | single_tok].
    - unfold seg_res. destruct (re_found (re_res st) e); [single_tok | constructor]. }
  destruct (a ++ b ++ seg_res st part e) as [|t l] eqn:E.
  - eexists. split; [reflexivity|]. split; [discriminate|].
    split; [single_tok | reflexivity].
  - eexists. split; [reflexivity|]. split; [discriminate|]. split; [exact HF|].
    intros H1 H2 H3 H4 H5. rewrite Ha0, Hb0 in E by assumption.
    unfold seg_res in E. rewrite H5 in E. discriminate.
Qed.

(** *** Every label yields tokens *)

Lemma map_opt_some {X Y} (f : X -> option Y) (P : X -> Y -> Prop) l :
  (forall x, exists y, f x = Some y /\ P x y) ->
  exists ys, map_opt f l = Some ys /\ Forall2 P l ys.
Proof.
  intro Hf. induction l as [|x l IH]; simpl.
  - eauto.
  - destruct (Hf x) as (y & -> & Hy). destruct IH as (ys & -> & Hys). eauto.
Qed.

Lemma split_on_nonempty sep s : split_on sep s <> [].
Proof.
  induction s as [|x s IH]; simpl; [discriminate|].
  destruct (x =? sep); [discriminate|]. destruct (split_on sep s); discriminate.
Qed.

Lemma insert_by_kind_perm t l : Permutation (insert_by_kind t l) (t :: l).
Proof.
  induction l as [|h l IH]; simpl; [reflexivity|].
  destruct (tok_kind t <? tok_kind h); [reflexivity|].
  rewrite IH. apply perm_swap.
Qed.

Lemma sort_by_kind_perm l : Permutation (sort_by_kind l) l.
Proof.
  unfold sort_by_kind.
  cut (forall acc, Permutation (fold_left (fun acc t => insert_by_kind t acc) l acc)
                               (l ++ acc)).
  { intro H. rewrite H, app_nil_r. reflexivity. }
  induction l as [|t l IH]; intro acc; simpl; [reflexivity|].
  rewrite IH, insert_by_kind_perm. symmetry. apply Permutation_middle.
Qed.

Definition kind_le (a b : token) : Prop := tok_kind a <= tok_kind b.

Lemma insert_by_kind_sorted t l :
  Sorted kind_le l -> Sorted kind_le (insert_by_kind t l).
Proof.
  unfold kind_le. induction l as [|h l IH]; simpl; intro S.
  - repeat constructor.
  - destruct (tok_kind t <? tok_kind h) eqn:E.
    + apply Z.ltb_lt in E. constructor; [exact S | constructor; lia].
    + apply Z.ltb_ge in E. inversion S as [|h' l' S' Hd]; subst.
      constructor; [apply IH, S'|].
      destruct l as [|h2 l]; simpl; [constructor; lia|].
      destruct (tok_kind t <? tok_kind h2); constructor; [lia|].
      inversion Hd; assumption.
Qed.

Lemma sort_by_kind_sorted l : StronglySorted kind_le (sort_by_kind l).
Proof.
  apply Sorted_StronglySorted; [intros a b c; unfold kind_le; lia|].
  unfold sort_by_kind.
  cut (forall acc, Sorted kind_le acc ->
                   Sorted kind_le (fold_left (fun acc t => insert_by_kind t acc) l acc)).
  { intro H. apply H. constructor. }
  induction l as [|t l IH]; intros acc S; simpl; [exact S|].
  apply IH, insert_by_kind_sorted, S.
Qed.

(** What [_parse_episode] returns: the tokens of the segments, sorted. *)
Lemma parse_episode_some st s :
  let episode := normalize s in
  let part := episode_part episode in
  exists xs, map_opt (parse_segment st part) (split_on (ch " ") episode) = Some xs /\
    parse_episode st s = Some (sort_by_kind (List.concat xs)) /\
    Forall2 (fun e toks =>
      parse_segment st part e = Some toks /\ toks <> [] /\
      Forall (fun t => tok_part t = part /\ In (tok_kind t) token_kinds) toks /\
      (re_found (re_date_search st) e = false -> re_found re_ep_search e = false ->
       re_found re_num_search e = false -> re_found re_range_search e = false ->
       re_found (re_res st) e = false -> toks = [(TStr e, part, kind_n)]))
      (split_on (ch " ") episode) xs.
Proof.
  intros episode part.
  destruct (map_opt_some (parse_segment st part) _ (split_on (ch " ") episode)
              (fun e => match parse_segment_some st part e with
                        | ex_intro _ y (conj H1 H2) => ex_intro _ y (conj H1 (conj H1 H2))
                        end)) as (xs & Hxs & Hall).
  exists xs. split; [exact Hxs|]. split; [|exact Hall].
  unfold parse_episode. fold episode part. rewrite Hxs. reflexivity.
Qed.

Lemma Forall2_in_left {X Y} (P : X -> Y -> Prop) l1 l2 x :
  Forall2 P l1 l2 -> In x l1 -> exists y, In y l2 /\ P x y.
Proof.
  induction 1 as [|a b l1 l2 Hab _ IH]; simpl; [tauto|].
  intros [<- | Hx]; [eauto|]. destruct (IH Hx) as (y & Hy & Py). eauto.
Qed.

Lemma Forall2_nonempty {X Y} (P : X -> Y -> Prop) l1 l2 :
  Forall2 P l1 l2 -> l1 <> [] -> exists x y l1' l2', l1 = x :: l1' /\ l2 = y :: l2' /\ P x y.
Proof. destruct 1; [congruence|]. eauto 7. Qed.

Lemma concat_tokens_forall (P : token -> Prop) (Q : pystr -> list token -> Prop) segs xs :
  Forall2 Q segs xs -> (forall e toks, Q e toks -> Forall P toks) ->
  Forall P (List.concat xs).
Proof.
  intros H HQ. induction H as [|e toks segs xs Hq _ IH]; simpl; [constructor|].
  apply Forall_app. split; [apply (HQ e toks Hq) | exact IH].
Qed.

(** *** A segment of three or four digits and ['P'] *)

Fixpoint minlen (r : regex) : nat :=
  match r with
  | RClass _ => 1
  | RSeq r1 r2 => minlen r1 + minlen r2
  | RAlt r1 r2 => Nat.min (minlen r1) (minlen r2)
  | RGroup _ r1 => minlen r1
  | _ => 0
  end.

Lemma mrel_minlen n r t c s c' :
  mrel n r t c s c' -> (minlen r + List.length s <= List.length t)%nat.
Proof. induction 1; simpl in *; lia. Qed.

Lemma date_search_short st e :
  (List.length e < 6)%nat -> re_found (re_date_search st) e = false.
Proof.
  intro L. destruct (re_found (re_date_search st) e) eqn:E; [|reflexivity].
  apply re_found_iff in E as (p & t & s' & c & -> & H).
  apply mrel_minlen in H. rewrite length_app in L.
  assert (M : minlen (re_date_search st) = 6%nat) by (destruct st; reflexivity).
  lia.
Qed.

Lemma mrel_first_class n p r t c s c' :
  mrel n (RSeq (RClass p) r) t c s c' -> exists x t', t = x :: t' /\ p x = true.
Proof.
  intro H. apply mrel_seq_inv in H as (s1 & c1 & H1 & _).
  apply mrel_class_inv in H1 as (x & -> & Hx & _). eauto.
Qed.

(** Each alternative of the episode-number pattern starts with ['第'],
    ['e'] or ['E'], or ['（']. *)
Lemma ep_search_first n t c s c' :
  mrel n re_ep_search t c s c' ->
  exists x t', t = x :: t' /\
    (x = ch "第" \/ ci_eq (ch "e") x = true \/ x = ch "（").
Proof.
  unfold re_ep_search. cbn [ralts]. intro H.
  apply mrel_alt_inv in H as [H|H];
    [|apply mrel_alt_inv in H as [H|H]; [|apply mrel_alt_inv in H as [H|H]]].
  - apply mrel_group_inv in H as (c1 & H & _).
    apply mrel_rseq_cons in H as (t1 & c2 & H & _).
    change (rlit "第") with (RSeq (RClass (Z.eqb (ch "第"))) REps) in H.
    apply mrel_first_class in H as (x & t' & -> & Hx).
    apply Z.eqb_eq in Hx. exists x, t'. split; [reflexivity | left; congruence].
  - apply mrel_group_inv in H as (c1 & H & _).
    apply mrel_rseq_cons in H as (t1 & c2 & H & _).
    change (rlit_i "e") with (RSeq (RClass (ci_eq (ch "e"))) REps) in H.
    apply mrel_first_class in H as (x & t' & -> & Hx).
    exists x, t'. split; [reflexivity | right; left; exact Hx].
  - apply mrel_group_inv in H as (c1 & H & _).
    apply mrel_rseq_cons in H as (t1 & c2 & H & _).
    change (rlit_i "episode") with (RSeq (RClass (ci_eq (ch "e"))) (rlit_i "pisode")) in H.
    apply mrel_first_class in H as (x & t' & -> & Hx).
    exists x, t'. split; [reflexivity | right; left; exact Hx].
  - apply mrel_rseq_cons in H as (t1 & c2 & H & _).
    change (rlit "（") with (RSeq (RClass (Z.eqb (ch "（"))) REps) in H.
    apply mrel_first_class in H as (x & t' & -> & Hx).
    apply Z.eqb_eq in Hx. exists x, t'. split; [reflexivity | right; right; congruence].
Qed.

Lemma ci_eq_e x : ci_eq (ch "e") x = true -> x = 101 \/ x = 69.
Proof.
  unfold ci_eq. replace (ci_set (ch "e")) with [101; 69] by reflexivity.
  intro H. cbn [existsb] in H.
  destruct (Z.eqb_spec x 101) as [|N1]; [auto|].
  destruct (Z.eqb_spec x 69) as [|N2]; [auto | discriminate].
Qed.

Lemma ep_search_digits e :
  (forall x, In x e -> is_digit x = true \/ x = ch "P") ->
  re_found re_ep_search e = false.
Proof.
  intro He. destruct (re_found re_ep_search e) eqn:E; [|reflexivity].
  apply re_found_iff in E as (p & t & s' & c & -> & H).
  apply ep_search_first in H as (x & t' & -> & Hx).
  assert (In x (p ++ x :: t')) as Hin by (apply in_or_app; right; left; reflexivity).
  destruct (He x Hin) as [Hd | ->].
  - destruct Hx as [-> | [Hx | ->]]; [discriminate Hd| |discriminate Hd].
    destruct (ci_eq_e x Hx) as [-> | ->]; discriminate Hd.
  - destruct Hx as [Hx | [Hx | Hx]]; [discriminate Hx | discriminate Hx | discriminate Hx].
Qed.

Lemma is_digit_P : is_digit 80 = false.
Proof. reflexivity. Qed.

Lemma num_find_3 a b c :
  is_digit a = true -> is_digit b = true -> is_digit c = true ->
  findall_first1 re_num_find [a; b; c; 80] =
    Some (if ch "0" =? a then [b; c] else [a; b; c]).
Proof.
  intros Ha Hb Hc. destruct (ch "0" =? a) eqn:E;
    unfold findall_first1, re_search, re_num_find, ropt, rrep14, rd, rchar;
    cbn -[is_digit Z.eqb ch]; rewrite ?E, ?Ha, ?Hb, ?Hc, ?is_digit_P;
    cbn -[is_digit Z.eqb ch]; reflexivity.
Qed.

Lemma num_find_4 a b c d :
  is_digit a = true -> is_digit b = true -> is_digit c = true -> is_digit d = true ->
  findall_first1 re_num_find [a; b; c; d; 80] =
    Some (if ch "0" =? a then [b; c; d] else [a; b; c; d]).
Proof.
  intros Ha Hb Hc Hd. destruct (ch "0" =? a) eqn:E;
    unfold findall_first1, re_search, re_num_find, ropt, rrep14, rd, rchar;
    cbn -[is_digit Z.eqb ch]; rewrite ?E, ?Ha, ?Hb, ?Hc, ?Hd, ?is_digit_P;
    cbn -[is_digit Z.eqb ch]; reflexivity.
Qed.

Lemma ci_eq_P : ci_eq (ch "P") 80 = true.
Proof. reflexivity. Qed.

(** [^\D*\d{1,4}\D*$] and [^(...|\d{3,4}P|...)] match [ds + 'P']. *)
Lemma num_res_found st ds :
  (3 <= List.length ds <= 4)%nat -> Forall (fun x => is_digit x = true) ds ->
  re_found re_num_search (ds ++ [80]) = true /\ re_found (re_res st) (ds ++ [80]) = true.
Proof.
  intros L D. split.
  - apply (re_found_at _ [] (ds ++ [80]) [] []).
    unfold re_num_search. cbn [rseq fold_right].
    eapply M_seq; [apply M_bol; reflexivity|].
    eapply M_seq; [apply M_star0|].
    destruct ds as [|a [|b [|c [|d [|e ds]]]]]; simpl in L; try lia;
      inversion D as [|? ? Ha D1]; inversion D1 as [|? ? Hb D2];
      inversion D2 as [|? ? Hc D3]; subst; unfold rrep14, ropt, rd.
    + eapply M_seq.
      { eapply M_seq; [apply M_class, Ha|]. apply M_altl.
        eapply M_seq; [apply M_class, Hb|]. apply M_altl.
        eapply M_seq; [apply M_class, Hc|]. apply M_altr, M_eps. }
      eapply M_seq; [apply (mrel_star_class_intro _ _ [80] []); repeat constructor|].
      eapply M_seq; [apply M_eol_end | apply M_eps].
    + inversion D3 as [|? ? Hd D4]; subst. eapply M_seq.
      { eapply M_seq; [apply M_class, Ha|]. apply M_altl.
        eapply M_seq; [apply M_class, Hb|]. apply M_altl.
        eapply M_seq; [apply M_class, Hc|]. apply M_altl.
        apply M_class, Hd. }
      eapply M_seq; [apply (mrel_star_class_intro _ _ [80] []); repeat constructor|].
      eapply M_seq; [apply M_eol_end | apply M_eps].
  - apply (re_found_at _ [] (ds ++ [80]) [] [(1%nat, (ds ++ [80], []))]).
    unfold re_res. cbn [rseq fold_right].
    eapply M_seq; [apply M_bol; reflexivity|].
    eapply M_seq; [|apply M_eps].
    apply M_group.
    assert (K : mrel (List.length ([] ++ ds ++ [80]))
                  (rseq [rd; rd; rd; ropt rd; rlit_i "P"]) (ds ++ [80]) [] [] []).
    { destruct ds as [|a [|b [|c [|d [|e ds]]]]]; simpl in L; try lia;
        inversion D as [|? ? Ha D1]; inversion D1 as [|? ? Hb D2];
        inversion D2 as [|? ? Hc D3]; subst; unfold ropt, rd; cbn [rseq fold_right].
      - eapply M_seq; [apply M_class, Ha|]. eapply M_seq; [apply M_class, Hb|].
        eapply M_seq; [apply M_class, Hc|]. eapply M_seq; [apply M_altr, M_eps|].
        eapply M_seq; [|apply M_eps].
        change (rlit_i "P") with (RSeq (RClass (ci_eq (ch "P"))) REps).
        eapply M_seq; [apply M_class, ci_eq_P | apply M_eps].
      - inversion D3 as [|? ? Hd D4]; subst.
        eapply M_seq; [apply M_class, Ha|]. eapply M_seq; [apply M_class, Hb|].
        eapply M_seq; [apply M_class, Hc|]. eapply M_seq; [apply M_altl, M_class, Hd|].
        eapply M_seq; [|apply M_eps].
        change (rlit_i "P") with (RSeq (RClass (ci_eq (ch "P"))) REps).
        eapply M_seq; [apply M_class, ci_eq_P | apply M_eps]. }
    destruct st; cbn [ralts app];
      apply M_altr, M_altr, M_altr, M_altl; exact K.
Qed.

Lemma digits_value_zero w : digits_value 0 (ch "0" :: w) = digits_value 0 w.
Proof. reflexivity. Qed.

(** [float(re.findall(r'0?(\d{1,4})', e)[0])] on [ds + 'P'] is the value
    of [ds]. *)
Lemma num_find_value ds :
  (3 <= List.length ds <= 4)%nat -> Forall (fun x => is_digit x = true) ds ->
  exists n g, digits_value 0 ds = Some n /\
    findall_first1 re_num_find (ds ++ [80]) = Some g /\ py_float_int g = Some (f64_of_Z n).
Proof.
  intros L D. destruct (digits_value_some 0 ds D) as [n Hn]. exists n.
  destruct ds as [|a [|b [|c [|d [|e ds]]]]]; simpl in L; try lia;
    inversion D as [|? ? Ha D1]; inversion D1 as [|? ? Hb D2];
    inversion D2 as [|? ? Hc D3]; subst.
  - cbn [app]. rewrite (num_find_3 a b c Ha Hb Hc). eexists. split; [exact Hn|].
    split; [reflexivity|].
    destruct (ch "0" =? a) eqn:E.
    + apply Z.eqb_eq in E. subst a. rewrite digits_value_zero in Hn.
      unfold py_float_int. rewrite Hn. reflexivity.
    + unfold py_float_int. rewrite Hn. reflexivity.
  - inversion D3 as [|? ? Hd D4]; subst. cbn [app].
    rewrite (num_find_4 a b c d Ha Hb Hc Hd). eexists. split; [exact Hn|].
    split; [reflexivity|].
    destruct (ch "0" =? a) eqn:E.
    + apply Z.eqb_eq in E. subst a. rewrite digits_value_zero in Hn.
      unfold py_float_int. rewrite Hn. reflexivity.
    + unfold py_float_int. rewrite Hn. reflexivity.
Qed.

(** *** The heap reconciler on tuple entries *)

Lemma fold_opt_inv {X Y : Type} (P : X -> Prop) (Q : Y -> Prop) (f : X -> Y -> option X) :
  (forall x y x', Q y -> P x -> f x y = Some x' -> P x') ->
  forall l a b, Forall Q l -> P a -> fold_opt f l a = Some b -> P b.
Proof.
  intros Hf l. induction l as [|y rest IH]; intros a b HQ Ha H; simpl in H.
  - injection H as <-. exact Ha.
  - inversion HQ as [|? ? Hy Hrest]; subst.
    destruct (f a y) as [a'|] eqn:E; [|discriminate].
    exact (IH a' b Hrest (Hf _ _ _ Hy Ha E) H).
Qed.

Module HeapFacts.
Import Heap.

Lemma nth_error_extend (h k : heap) a o :
  nth_error h a = Some o -> nth_error (h ++ k) a = Some o.
Proof.
  intro H. rewrite nth_error_app1; [exact H|].
  apply nth_error_Some. congruence.
Qed.

(** [y] refers to a tuple built by [+=] from the tuple entry [a] of [name]. *)
Definition built (h0 : heap) (ys : list nat) (name : pystr) (h : heap) (y : nat) : Prop :=
  exists a xs, In a ys /\ nth_error h0 a = Some (OTuple xs) /\
    nth_error h y = Some (OTuple (xs ++ [name])) /\ (List.length h0 <= y)%nat.

Lemma built_extend h0 ys name h k y : built h0 ys name h y -> built h0 ys name (h ++ k) y.
Proof.
  intros (a & xs & H1 & H2 & H3 & H4). exists a, xs.
  repeat split; auto. apply nth_error_extend, H3.
Qed.

Lemma built_sub h0 ys ys' name h y :
  incl ys ys' -> built h0 ys name h y -> built h0 ys' name h y.
Proof. intros I (a & xs & H1 & H2). exists a, xs. auto. Qed.

Definition tuples (h0 : heap) (ys : list nat) : Prop :=
  Forall (fun a => exists xs, nth_error h0 a = Some (OTuple xs)) ys.

Lemma Forall_app_cond {X} (P : X -> Prop) (b1 b2 : bool) y l1 l2 :
  P y -> Forall P (l1 ++ l2) ->
  Forall P ((if b1 then y :: l1 else l1) ++ (if b2 then y :: l2 else l2)).
Proof.
  intros Hy H. apply Forall_app in H as [H1 H2].
  apply Forall_app. destruct b1, b2; split; auto.
Qed.

Lemma hscan_frame st src e name h0 ys :
  tuples h0 ys ->
  forall k h2 z d, hscan st (h0 ++ k) src e name ys = Some (h2, z, d) ->
  (exists k', h2 = h0 ++ k ++ k') /\ Forall (built h0 ys name h2) (z ++ d).
Proof.
  induction ys as [|a rest IH]; intros T k h2 z d H; simpl in H.
  - injection H as <- <- <-. split; [exists []; now rewrite app_nil_r | constructor].
  - inversion T as [|? ? [xs Ha] Trest]; subst.
    unfold iadd in H. rewrite (nth_error_extend _ k _ _ Ha) in H.
    assert (Hy : nth_error ((h0 ++ k) ++ [OTuple (xs ++ [name])]) (List.length (h0 ++ k))
                 = Some (OTuple (xs ++ [name]))).
    { rewrite nth_error_app2 by lia. rewrite Nat.sub_diag. reflexivity. }
    destruct (item1 _ _) as [lb|]; [|discriminate].
    destruct (parse_episode st lb) as [ep|]; [|discriminate].
    destruct (near_match e ep) as [nm|]; [|discriminate].
    rewrite <- app_assoc in H.
    destruct (hscan st (h0 ++ k ++ _) src e name rest) as [[[h3 z'] d']|] eqn:E;
      [|discriminate].
    injection H as <- <- <-.
    destruct (IH Trest _ _ _ _ E) as [[k' ->] HF].
    split; [exists ([OTuple (xs ++ [name])] ++ k'); now rewrite !app_assoc|].
    apply Forall_app_cond.
    + exists a, xs. split; [left; reflexivity|]. split; [exact Ha|]. split.
      * replace (h0 ++ (k ++ [OTuple (xs ++ [name])]) ++ k')
          with (((h0 ++ k) ++ [OTuple (xs ++ [name])]) ++ k') by now rewrite !app_assoc.
        apply nth_error_extend, Hy.
      * rewrite length_app. lia.
    + revert HF. apply Forall_impl. intros y0. apply built_sub.
      intros x Hx. right. exact Hx.
Qed.

(** [y] was built from a tuple entry of one of the groups [G]. *)
Definition from_group (h0 : heap) (G : list hgroup) (h : heap) (y : nat) : Prop :=
  exists l, In l G /\ built h0 (hlinks l) (hsource l) h y.

Lemma from_group_extend h0 G h k y :
  from_group h0 G h y -> from_group h0 G (h ++ k) y.
Proof. intros (l & H1 & H2). exists l. split; [exact H1 | apply built_extend, H2]. Qed.

Definition hinv (h0 : heap) (G : list hgroup) (hs : heap * list nat) : Prop :=
  (exists k, fst hs = h0 ++ k) /\ Forall (from_group h0 G (fst hs)) (snd hs).

Lemma hdecide_in src z d y :
  In y (hdecide src z d) -> In y src \/ In y z \/ In y d.
Proof.
  unfold hdecide. intro H.
  destruct z as [|a [|b z]]; [destruct d as [|a [|b d]]|..];
    try (left; exact H); apply in_app_or in H as [H|[<-|[]]]; auto;
    right; [right|left]; left; reflexivity.
Qed.

Lemma hreconcile_token_inv st h0 G l e hs hs' :
  In l G -> tuples h0 (hlinks l) -> hinv h0 G hs ->
  hreconcile_token st l hs e = Some hs' -> hinv h0 G hs'.
Proof.
  destruct hs as [h src]. intros HG T [[k Hk] HF] H. simpl in Hk, HF, H. subst h.
  destruct (hscan st (h0 ++ k) src e (hsource l) (hlinks l)) as [[[h2 z] d]|] eqn:E;
    [|discriminate].
  injection H as <-.
  destruct (hscan_frame _ _ _ _ _ _ T _ _ _ _ E) as [[k' ->] HB].
  split; simpl; [exists (k ++ k'); reflexivity|].
  apply Forall_forall. intros y Hy. apply hdecide_in in Hy as [Hy|[Hy|Hy]].
  - rewrite Forall_forall in HF. rewrite app_assoc. apply from_group_extend, HF, Hy.
  - rewrite Forall_forall in HB. exists l. split; [exact HG|].
    apply HB, in_or_app. left. exact Hy.
  - rewrite Forall_forall in HB. exists l. split; [exact HG|].
    apply HB, in_or_app. right. exact Hy.
Qed.

Lemma hreconcile_group_inv st episode h0 G l hs hs' :
  In l G -> tuples h0 (hlinks l) -> hinv h0 G hs ->
  hreconcile_group st episode hs l = Some hs' -> hinv h0 G hs'.
Proof.
  intros HG T Hi H. unfold hreconcile_group in H.
  destruct (parse_episode st episode) as [toks|]; [|discriminate].
  refine (fold_opt_inv (hinv h0 G) (fun _ => True) _ _ toks hs hs' _ Hi H).
  - intros x y x' _ Hx Hf. exact (hreconcile_token_inv _ _ _ _ _ _ _ HG T Hx Hf).
  - apply Forall_forall. intros; exact I.
Qed.

Lemma hextract_inv st h links episode cur h' res :
  Forall (fun l => tuples h (hlinks l)) links ->
  hextract_other_src st h links episode cur = Some (h', res) ->
  hinv h (filter (fun l => negb (str_eqb (hsource l) cur)) links) (h', res).
Proof.
  intros T H. unfold hextract_other_src in H.
  set (G := filter _ links) in H |- *.
  refine (fold_opt_inv (hinv h G) (fun l => In l G /\ tuples h (hlinks l)) _ _ G (h, []) _ _ _ H).
  - intros x l x' [HG Tl] Hx Hf. exact (hreconcile_group_inv _ _ _ _ _ _ _ HG Tl Hx Hf).
  - apply Forall_forall. intros l Hl. split; [exact Hl|].
    rewrite Forall_forall in T. apply T. unfold G in Hl. apply filter_In in Hl. apply Hl.
  - split; simpl; [exists []; symmetry; apply app_nil_r | constructor].
Qed.

(** Were an entry a list, [y += (name,)] would extend it in place: the
    group's entry at [0] changes from [[l; t]] to [[l; t; name]]. *)
Example hscan_list_entry_mutated :
  iadd [OList [utf8 "/1"; utf8 "E1"]] 0 (utf8 "B")
  = Some ([OList [utf8 "/1"; utf8 "E1"; utf8 "B"]], 0%nat).
Proof. reflexivity. Qed.

End HeapFacts.

(** ** The reconciler, token by token *)

Definition parsed (st : site) (lb : pystr) : list token :=
  match parse_episode st lb with Some t => t | None => [] end.

(** The triples [y += (name,)] of a group's entries, in order. *)
Definition named (name : pystr) (ys : list entry) : list mirror :=
  map (fun '(lk, lb) => (lk, lb, name)) ys.

Definition label (y : mirror) : pystr := snd (fst y).

(** The exact candidates for [e]: entries holding [e] and not in [src]. *)
Definition exact_new (st : site) (src : list mirror) (e : token) (l : group) : list mirror :=
  filter (fun y => negb (mirror_in y src) && tok_in e (parsed st (label y)))
    (named (source l) (links l)).

(** The near candidates for [e]. *)
Definition near_all (st : site) (e : token) (l : group) : list mirror :=
  filter (fun y => match near_match e (parsed st (label y)) with
                   | Some true => true
                   | _ => false
                   end) (named (source l) (links l)).

(** One exact candidate is accepted; with none, one near candidate is;
    otherwise nothing is. *)
Definition decision (src z d src' : list mirror) : Prop :=
  (exists y, z = [y] /\ src' = src ++ [y]) \/
  (z = [] /\ exists y, d = [y] /\ src' = src ++ [y]) \/
  (src' = src /\ ((2 <= List.length z)%nat \/ (z = [] /\ List.length d <> 1%nat))).

Definition accepted (st : site) (l : group) (e : token) (src src' : list mirror) : Prop :=
  decision src (exact_new st src e l) (near_all st e l) src'.

Inductive tok_steps (st : site) (l : group) : list token -> list mirror -> list mirror -> Prop :=
| ts_nil src : tok_steps st l [] src src
| ts_cons e es src src1 src2 :
    accepted st l e src src1 -> tok_steps st l es src1 src2 -> tok_steps st l (e :: es) src src2.

Inductive grp_steps (st : site) (toks : list token)
    : list group -> list mirror -> list mirror -> Prop :=
| gs_nil src : grp_steps st toks [] src src
| gs_cons l ls src src1 src2 :
    tok_steps st l toks src src1 -> grp_steps st toks ls src1 src2 ->
    grp_steps st toks (l :: ls) src src2.

Lemma scan_links_spec st src e name ys z d :
  scan_links st src e name ys = Some (z, d) ->
  z = filter (fun y => negb (mirror_in y src) && tok_in e (parsed st (label y)))
        (named name ys) /\
  d = filter (fun y => match near_match e (parsed st (label y)) with
                       | Some true => true
                       | _ => false
                       end) (named name ys).
Proof.
  revert z d. induction ys as [|[lk lb] rest IH]; intros z d H; simpl in H.
  - injection H as <- <-. split; reflexivity.
  - destruct (parse_episode st lb) as [ep|] eqn:Hp; [|discriminate].
    destruct (near_match e ep) as [nm|] eqn:Hn; [|discriminate].
    destruct (scan_links st src e name rest) as [[z' d']|] eqn:E; [|discriminate].
    injection H as <- <-. destruct (IH _ _ eq_refl) as [-> ->].
    assert (Hl : parsed st (label (lk, lb, name)) = ep)
      by (unfold parsed, label; simpl; rewrite Hp; reflexivity).
    cbn [named map filter]. rewrite Hl, Hn.
    split; [reflexivity|]. destruct nm; reflexivity.
Qed.

Lemma reconcile_token_accepted st l src e src' :
  reconcile_token st l src e = Some src' -> accepted st l e src src'.
Proof.
  unfold reconcile_token, accepted. intro H.
  destruct (scan_links st src e (source l) (links l)) as [[z d]|] eqn:E; [|discriminate].
  injection H as <-. apply scan_links_spec in E as [Ez Ed].
  unfold exact_new, near_all. rewrite <- Ez, <- Ed.
  unfold decide, decision.
  destruct z as [|y [|y' z]].
  - destruct d as [|y [|y' d]].
    + right. right. split; [reflexivity|]. right. split; [reflexivity|]. simpl. lia.
    + right. left. split; [reflexivity|]. exists y. split; reflexivity.
    + right. right. split; [reflexivity|]. right. split; [reflexivity|]. simpl. lia.
  - left. exists y. split; reflexivity.
  - right. right. split; [reflexivity|]. left. simpl. lia.
Qed.

Lemma tok_fold_steps st l toks src src' :
  fold_opt (reconcile_token st l) toks src = Some src' -> tok_steps st l toks src src'.
Proof.
  revert src. induction toks as [|e es IH]; intros src H; simpl in H.
  - injection H as <-. constructor.
  - destruct (reconcile_token st l src e) as [src1|] eqn:E; [|discriminate].
    econstructor; [apply reconcile_token_accepted, E | apply IH, H].
Qed.

Lemma grp_fold_steps st episode toks G src res :
  parse_episode st episode = Some toks ->
  fold_opt (reconcile_group st episode) G src = Some res -> grp_steps st toks G src res.
Proof.
  intro Hp. revert src. induction G as [|l ls IH]; intros src H; simpl in H.
  - injection H as <-. constructor.
  - unfold reconcile_group at 1 in H. rewrite Hp in H.
    destruct (fold_opt (reconcile_token st l) toks src) as [src1|] eqn:E; [|discriminate].
    econstructor; [apply tok_fold_steps, E | apply IH, H].
Qed.

Lemma accepted_from st l e src src' y :
  accepted st l e src src' -> In y src' -> In y src \/ In y (named (source l) (links l)).
Proof.
  unfold accepted, decision, exact_new, near_all.
  intros [(y' & Ez & ->) | [(_ & y' & Ed & ->) | (-> & _)]] Hy; auto;
    apply in_app_or in Hy as [Hy | [-> | []]]; auto; right.
  - assert (In y (filter (fun y => negb (mirror_in y src) && tok_in e (parsed st (label y)))
                    (named (source l) (links l)))) as Hf by (rewrite Ez; left; reflexivity).
    apply filter_In in Hf. apply Hf.
  - assert (In y (filter (fun y => match near_match e (parsed st (label y)) with
                                   | Some true => true
                                   | _ => false
                                   end) (named (source l) (links l)))) as Hf
      by (rewrite Ed; left; reflexivity).
    apply filter_In in Hf. apply Hf.
Qed.

Lemma tok_steps_from st l toks src src' y :
  tok_steps st l toks src src' -> In y src' -> In y src \/ In y (named (source l) (links l)).
Proof.
  induction 1 as [|e es src src1 src2 Ha _ IH]; [auto|].
  intro Hy. destruct (IH Hy) as [H1|H1]; [|auto].
  exact (accepted_from _ _ _ _ _ _ Ha H1).
Qed.

Lemma grp_steps_from st toks G src src' y :
  grp_steps st toks G src src' -> In y src' ->
  In y src \/ exists l, In l G /\ In y (named (source l) (links l)).
Proof.
  induction 1 as [|l ls src src1 src2 Ht _ IH]; [auto|].
  intro Hy. destruct (IH Hy) as [H1 | (l' & Hl' & H1)].
  - destruct (tok_steps_from _ _ _ _ _ _ Ht H1) as [H2|H2]; [auto|].
    right. exists l. split; [left; reflexivity | exact H2].
  - right. exists l'. split; [right; exact Hl' | exact H1].
Qed.

(** * URL patterns and the requests built from them *)

(** ** What [re.match] returns on the URLs the extractors build *)

(** [runs r s c s' c']: the matcher, on [r] from [s] with captures [c],
    first reaches the state [(s', c')], and returns what its continuation
    returns there when that succeeds. *)
Definition runs (n : nat) (r : regex) (s : pystr) (c : caps) (s' : pystr) (c' : caps) : Prop :=
  forall A (k : pystr -> caps -> option A) v, k s' c' = Some v -> mt n r s c k = Some v.

(** [fails r s c]: the matcher finds no way to match [r] from [s]. *)
Definition fails (n : nat) (r : regex) (s : pystr) (c : caps) : Prop :=
  forall A (k : pystr -> caps -> option A), mt n r s c k = None.

Definition nodigit_head (s : pystr) : Prop :=
  match s with x :: _ => is_digit x = false | [] => True end.

Section Runs.
Variable n : nat.

Lemma runs_eps s c : runs n REps s c s c.
Proof. intros A k v H. exact H. Qed.

Lemma runs_seq r1 r2 s c s1 c1 s2 c2 :
  runs n r1 s c s1 c1 -> runs n r2 s1 c1 s2 c2 -> runs n (RSeq r1 r2) s c s2 c2.
Proof. intros H1 H2 A k v Hk. simpl. apply H1. apply H2. exact Hk. Qed.

Lemma runs_rseq_cons r l s c s1 c1 s2 c2 :
  runs n r s c s1 c1 -> runs n (rseq l) s1 c1 s2 c2 -> runs n (rseq (r :: l)) s c s2 c2.
Proof. apply runs_seq. Qed.

Lemma runs_rseq_nil s c : runs n (rseq []) s c s c.
Proof. apply runs_eps. Qed.

Lemma runs_group g r s c s' c' :
  runs n r s c s' c' -> runs n (RGroup g r) s c s' ((g, (s, s')) :: c').
Proof. intros H A k v Hk. simpl. apply (H A (fun s1 c1 => k s1 ((g, (s, s1)) :: c1))). exact Hk. Qed.

Lemma runs_alt_l r1 r2 s c s' c' :
  runs n r1 s c s' c' -> runs n (RAlt r1 r2) s c s' c'.
Proof. intros H A k v Hk. simpl. rewrite (H A k v Hk). reflexivity. Qed.

Lemma runs_alt_r r1 r2 s c s' c' :
  fails n r1 s c -> runs n r2 s c s' c' -> runs n (RAlt r1 r2) s c s' c'.
Proof. intros F H A k v Hk. simpl. rewrite F. apply H. exact Hk. Qed.

Lemma runs_class (p : char -> bool) x s c : p x = true -> runs n (RClass p) (x :: s) c s c.
Proof. intros P A k v Hk. simpl. rewrite P. exact Hk. Qed.

Lemma runs_lit str s c : runs n (rlit str) (utf8 str ++ s) c s c.
Proof.
  unfold rlit. induction (utf8 str) as [|x u IH]; intros A k v Hk; simpl.
  - exact Hk.
  - rewrite Z.eqb_refl. apply IH. exact Hk.
Qed.

Lemma runs_char str s c : utf8 str = [ch str] -> runs n (rchar str) (utf8 str ++ s) c s c.
Proof. intro E. rewrite E. apply runs_class. apply Z.eqb_refl. Qed.

Lemma runs_char_end str c : utf8 str = [ch str] -> runs n (rchar str) (utf8 str) c [] c.
Proof. intro E. rewrite <- (app_nil_r (utf8 str)) at 1. apply runs_char. exact E. Qed.

Lemma runs_eol c : runs n REol [] c [] c.
Proof. intros A k v Hk. exact Hk. Qed.

Lemma star_loop_class_max (p : char -> bool) w s c A (k : pystr -> caps -> option A) v fuel :
  Forall (fun x => p x = true) w ->
  match s with x :: _ => p x = false | [] => True end ->
  k s c = Some v -> (List.length w < fuel)%nat ->
  star_loop (mt n (RClass p)) k fuel (w ++ s) c = Some v.
Proof.
  intros Hw. revert fuel. induction Hw as [|x w Hx Hw IH]; intros fuel Hs Hk Hf;
    (destruct fuel as [|f]; [simpl in Hf; lia|]).
  - simpl. destruct s as [|y s]; [exact Hk|]. rewrite Hs. exact Hk.
  - assert (H := IH f Hs Hk ltac:(simpl in Hf; lia)).
    simpl in H |- *. rewrite Hx.
    rewrite (proj2 (Nat.ltb_lt (List.length (w ++ s)) (S (List.length (w ++ s))))
               (Nat.lt_succ_diag_r _)).
    rewrite H. reflexivity.
Qed.

(** [\d+] is greedy: it takes the whole run of digits. *)
Lemma runs_digits w s c :
  digit_string w -> nodigit_head s -> runs n (rplus rd) (w ++ s) c s c.
Proof.
  intros [Hne Hw] Hs A k v Hk. destruct w as [|x w]; [congruence|].
  inversion Hw as [|? ? Hx Hw']; subst.
  change (mt n (RClass is_digit) (x :: w ++ s) c
            (fun s1 c1 => star_loop (mt n (RClass is_digit)) k (S (List.length s1)) s1 c1)
          = Some v).
  apply (runs_class is_digit x (w ++ s) c Hx).
  apply star_loop_class_max; auto. rewrite length_app. lia.
Qed.

Lemma fails_class (p : char -> bool) x s c : p x = false -> fails n (RClass p) (x :: s) c.
Proof. intros P A k. simpl. rewrite P. reflexivity. Qed.

Lemma fails_class_nil (p : char -> bool) c : fails n (RClass p) [] c.
Proof. intros A k. reflexivity. Qed.

Lemma fails_seq r1 r2 s c : fails n r1 s c -> fails n (RSeq r1 r2) s c.
Proof. intros F A k. simpl. apply F. Qed.

Lemma fails_alt r1 r2 s c : fails n r1 s c -> fails n r2 s c -> fails n (RAlt r1 r2) s c.
Proof. intros F1 F2 A k. simpl. rewrite F1. apply F2. Qed.

(** A literal fails on a string whose first character is not its first. *)
Lemma fails_lit str y u x s c : utf8 str = y :: u -> y <> x -> fails n (rlit str) (x :: s) c.
Proof.
  intros E D. unfold rlit. rewrite E. simpl. apply fails_seq, fails_class.
  apply Z.eqb_neq. exact D.
Qed.

Lemma fails_lit_nil str y u c : utf8 str = y :: u -> fails n (rlit str) [] c.
Proof. intro E. unfold rlit. rewrite E. simpl. apply fails_seq, fails_class_nil. Qed.

Lemma fails_char_digit str x s c :
  is_digit (ch str) = false -> is_digit x = true -> fails n (rchar str) (x :: s) c.
Proof.
  intros D X. apply fails_class. apply Z.eqb_neq. intros E. rewrite <- E in X. congruence.
Qed.

Lemma fails_class_app (p : char -> bool) str s c :
  utf8 str <> [] -> p (hd 0 (utf8 str)) = false -> fails n (RClass p) (utf8 str ++ s) c.
Proof.
  intros E P. destruct (utf8 str) as [|y u]; [congruence|]. apply fails_class. exact P.
Qed.

Lemma fails_lit_app str1 str2 s c :
  utf8 str1 <> [] -> utf8 str2 <> [] -> hd 0 (utf8 str1) <> hd 0 (utf8 str2) ->
  fails n (rlit str1) (utf8 str2 ++ s) c.
Proof.
  intros E1 E2 D. destruct (utf8 str2) as [|y2 u2] eqn:F; [congruence|].
  destruct (utf8 str1) as [|y1 u1] eqn:F1; [congruence|].
  eapply fails_lit; eauto.
Qed.

Lemma runs_digits_end w c : digit_string w -> runs n (rplus rd) w c [] c.
Proof.
  intro H. rewrite <- (app_nil_r w) at 1. apply runs_digits; [exact H | exact I].
Qed.

End Runs.

Lemma re_match_runs r s s' c' :
  runs (List.length s) r s [] s' c' -> re_match r s = Some (s', c').
Proof. intro H. apply H. reflexivity. Qed.

Lemma nodigit_app_head str s :
  (exists x u, utf8 str = x :: u /\ is_digit x = false) -> nodigit_head (utf8 str ++ s).
Proof. intros (x & u & E & D). rewrite E. exact D. Qed.

Lemma gimy_ids_page vid sid eid :
  digit_string vid -> digit_string sid -> digit_string eid ->
  match_groups3 valid_url_gimy 2 3 4 (gimy_page_url (gimy_video_id vid sid eid))
  = Some (vid, sid, eid).
Proof.
  intros Hv Hs He. unfold match_groups3, gimy_page_url, gimy_video_id.
  replace (utf8 "https://gimy.cc/index.php/video/") with
    (utf8 "http" ++ utf8 "s" ++ utf8 "://gimy.cc/" ++ utf8 "index.php/" ++ utf8 "video/")
    by (vm_compute; reflexivity).
  rewrite <- !app_assoc.
  match goal with |- context [re_match _ ?S] =>
    eassert (R : runs (List.length S) valid_url_gimy S [] _ _) end.
  { unfold valid_url_gimy.
    eapply runs_rseq_cons.
    { apply runs_group. apply runs_alt_r.
      { apply fails_lit_app; vm_compute; discriminate. }
      eapply runs_rseq_cons; [apply runs_lit|].
      eapply runs_rseq_cons; [apply runs_alt_l, runs_char; reflexivity|].
      eapply runs_rseq_cons; [apply runs_lit|].
      eapply runs_rseq_cons; [apply runs_alt_l, runs_lit|].
      eapply runs_rseq_cons; [apply runs_lit|].
      apply runs_rseq_nil. }
    eapply runs_rseq_cons; [apply runs_group, runs_digits; [exact Hv | reflexivity]|].
    eapply runs_rseq_cons; [apply runs_char; reflexivity|].
    eapply runs_rseq_cons; [apply runs_group, runs_digits; [exact Hs | reflexivity]|].
    eapply runs_rseq_cons; [apply runs_char; reflexivity|].
    eapply runs_rseq_cons; [apply runs_group, runs_digits; [exact He | reflexivity]|].
    apply runs_rseq_nil. }
  apply re_match_runs in R. rewrite R.
  cbn [group_text find fst snd Nat.eqb]. rewrite !slice_app. reflexivity.
Qed.

Lemma gimy_ids_short vid sid eid :
  digit_string vid -> digit_string sid -> digit_string eid ->
  match_groups3 valid_url_gimy 2 3 4 (utf8 "gimy:" ++ gimy_video_id vid sid eid)
  = Some (vid, sid, eid).
Proof.
  intros Hv Hs He. unfold match_groups3, gimy_video_id.
  match goal with |- context [re_match _ ?S] =>
    eassert (R : runs (List.length S) valid_url_gimy S [] _ _) end.
  { unfold valid_url_gimy.
    eapply runs_rseq_cons; [apply runs_group, runs_alt_l, runs_lit|].
    eapply runs_rseq_cons; [apply runs_group, runs_digits; [exact Hv | reflexivity]|].
    eapply runs_rseq_cons; [apply runs_char; reflexivity|].
    eapply runs_rseq_cons; [apply runs_group, runs_digits; [exact Hs | reflexivity]|].
    eapply runs_rseq_cons; [apply runs_char; reflexivity|].
    eapply runs_rseq_cons; [apply runs_group, runs_digits_end; exact He|].
    apply runs_rseq_nil. }
  apply re_match_runs in R. rewrite R.
  cbn [group_text find fst snd Nat.eqb]. rewrite !slice_app.
  unfold slice. rewrite Nat.sub_0_r, firstn_all. reflexivity.
Qed.

Lemma re_match_sound r s s' c :
  re_match r s = Some (s', c) -> mrel (List.length s) r s [] s' c.
Proof.
  unfold re_match. intro H. apply mt_sound in H as (s1 & c1 & Hm & Hk).
  injection Hk as -> ->. exact Hm.
Qed.

Lemma mrel_group_digits n g t c s c' :
  mrel n (RGroup g (rplus rd)) t c s c' ->
  c' = (g, (t, s)) :: c /\ digit_string (slice t s).
Proof.
  intro H. apply mrel_group_inv in H as (c1 & H & ->).
  apply mrel_digits_plus in H as [-> (x & w & -> & Hx & Hw)].
  split; [reflexivity|].
  change (x :: w ++ s) with ((x :: w) ++ s). rewrite slice_app.
  split; [discriminate | constructor; assumption].
Qed.

Lemma gimy_groups n t s c :
  mrel n valid_url_gimy t [] s c ->
  digit_string (group_text c 2) /\ digit_string (group_text c 3) /\
  digit_string (group_text c 4).
Proof.
  unfold valid_url_gimy. cbn [rseq fold_right]. intro H.
  apply mrel_seq_inv in H as (s1 & c1 & H1 & H).
  apply mrel_group_inv in H1 as (c0 & H1 & ->). gfree_caps H1.
  apply mrel_seq_inv in H as (s2 & c2 & H2 & H).
  apply mrel_group_digits in H2 as [-> D2].
  apply mrel_seq_inv in H as (s3 & c3 & H3 & H). gfree_caps H3.
  apply mrel_seq_inv in H as (s4 & c4 & H4 & H).
  apply mrel_group_digits in H4 as [-> D4].
  apply mrel_seq_inv in H as (s5 & c5 & H5 & H). gfree_caps H5.
  apply mrel_seq_inv in H as (s6 & c6 & H6 & H).
  apply mrel_group_digits in H6 as [-> D6].
  apply mrel_eps_inv in H as [-> ->].
  cbn [group_text find fst snd Nat.eqb]. auto.
Qed.

(** [GimyIE]: the page URL built from an accepted URL, and the short
    [gimy:] form of its id, are accepted again with the same id and the
    same page URL. *)
Theorem gimy_request_canonical url video_id page :
  gimy_request url = Some (video_id, page) ->
  gimy_request page = Some (video_id, page) /\
  gimy_request (utf8 "gimy:" ++ video_id) = Some (video_id, page).
Proof.
  unfold gimy_request. intro H.
  destruct (match_groups3 valid_url_gimy 2 3 4 url) as [[[vid sid] eid]|] eqn:E;
    [|discriminate].
  injection H as <- <-.
  unfold match_groups3 in E.
  destruct (re_match valid_url_gimy url) as [[s c]|] eqn:M; [|discriminate].
  injection E as <- <- <-.
  apply re_match_sound, gimy_groups in M as (Hv & Hs & He).
  rewrite gimy_ids_page, gimy_ids_short by assumption. auto.
Qed.


Lemma gimyla_ids_page vid sid eid :
  digit_string vid -> digit_string sid -> digit_string eid ->
  match_groups3 valid_url_gimyla 2 4 3 (gimyla_page_url vid sid eid)
  = Some (vid, sid, eid).
Proof.
  intros Hv Hs He. unfold match_groups3, gimyla_page_url.
  replace (utf8 "https://gimy.la/play/") with
    (utf8 "http" ++ utf8 "s" ++ utf8 "://gimy.la/play/") by (vm_compute; reflexivity).
  replace (utf8 "/ep") with (utf8 "/" ++ utf8 "ep") by (vm_compute; reflexivity).
  replace (utf8 "?sid=") with (utf8 "?" ++ utf8 "sid" ++ utf8 "=") by (vm_compute; reflexivity).
  rewrite <- !app_assoc.
  match goal with |- context [re_match _ ?S] =>
    eassert (R : runs (List.length S) valid_url_gimyla S [] _ _) end.
  { unfold valid_url_gimyla.
    eapply runs_rseq_cons.
    { apply runs_group. apply runs_alt_r.
      { apply fails_lit_app; vm_compute; discriminate. }
      eapply runs_rseq_cons; [apply runs_lit|].
      eapply runs_rseq_cons; [apply runs_alt_l, runs_char; reflexivity|].
      eapply runs_rseq_cons; [apply runs_lit|].
      apply runs_rseq_nil. }
    eapply runs_rseq_cons; [apply runs_group, runs_digits; [exact Hv | reflexivity]|].
    eapply runs_rseq_cons; [apply runs_alt_l, runs_char; reflexivity|].
    eapply runs_rseq_cons; [apply runs_lit|].
    eapply runs_rseq_cons; [apply runs_group, runs_digits; [exact He | reflexivity]|].
    eapply runs_rseq_cons; [apply runs_alt_l, runs_char; reflexivity|].
    eapply runs_rseq_cons; [apply runs_lit|].
    eapply runs_rseq_cons; [apply runs_alt_l, runs_char; reflexivity|].
    eapply runs_rseq_cons; [apply runs_group, runs_digits_end; exact Hs|].
    apply runs_rseq_nil. }
  apply re_match_runs in R. rewrite R.
  cbn [group_text find fst snd Nat.eqb]. rewrite !slice_app.
  unfold slice. rewrite Nat.sub_0_r, firstn_all. reflexivity.
Qed.

Lemma digit_string_head w : digit_string w -> exists x u, w = x :: u /\ is_digit x = true.
Proof.
  intros [Hne Hw]. destruct w as [|x u]; [congruence|].
  inversion Hw; subst. eauto.
Qed.

Lemma gimyla_ids_short vid sid eid :
  digit_string vid -> digit_string sid -> digit_string eid ->
  match_groups3 valid_url_gimyla 2 4 3 (utf8 "gimy:" ++ gimyla_video_id vid sid eid)
  = Some (vid, sid, eid).
Proof.
  intros Hv Hs He. unfold match_groups3, gimyla_video_id.
  destruct (digit_string_head sid Hs) as (x & u & Es & Hx).
  match goal with |- context [re_match _ ?S] =>
    eassert (R : runs (List.length S) valid_url_gimyla S [] _ _) end.
  { unfold valid_url_gimyla.
    eapply runs_rseq_cons; [apply runs_group, runs_alt_l, runs_lit|].
    eapply runs_rseq_cons; [apply runs_group, runs_digits; [exact Hv | reflexivity]|].
    eapply runs_rseq_cons.
    { apply runs_alt_r; [|apply runs_eps].
      apply fails_class_app; vm_compute; [discriminate | reflexivity]. }
    eapply runs_rseq_cons; [apply runs_lit|].
    eapply runs_rseq_cons; [apply runs_group, runs_digits; [exact He | reflexivity]|].
    eapply runs_rseq_cons.
    { apply runs_alt_r; [|apply runs_eps].
      apply fails_class_app; vm_compute; [discriminate | reflexivity]. }
    eapply runs_rseq_cons; [apply runs_lit|].
    eapply runs_rseq_cons.
    { apply runs_alt_r; [|apply runs_eps].
      rewrite Es. apply fails_char_digit; [reflexivity | exact Hx]. }
    eapply runs_rseq_cons; [apply runs_group, runs_digits_end; exact Hs|].
    apply runs_rseq_nil. }
  apply re_match_runs in R. rewrite R.
  cbn [group_text find fst snd Nat.eqb]. rewrite !slice_app.
  unfold slice. rewrite Nat.sub_0_r, firstn_all. reflexivity.
Qed.

Lemma gimyla_groups n t s c :
  mrel n valid_url_gimyla t [] s c ->
  digit_string (group_text c 2) /\ digit_string (group_text c 4) /\
  digit_string (group_text c 3).
Proof.
  unfold valid_url_gimyla. cbn [rseq fold_right]. intro H.
  apply mrel_seq_inv in H as (s1 & c1 & H1 & H).
  apply mrel_group_inv in H1 as (c0 & H1 & ->). gfree_caps H1.
  apply mrel_seq_inv in H as (s2 & c2 & H2 & H).
  apply mrel_group_digits in H2 as [-> D2].
  apply mrel_seq_inv in H as (s3 & c3 & H3 & H). gfree_caps H3.
  apply mrel_seq_inv in H as (s4 & c4 & H4 & H). gfree_caps H4.
  apply mrel_seq_inv in H as (s5 & c5 & H5 & H).
  apply mrel_group_digits in H5 as [-> D5].
  apply mrel_seq_inv in H as (s6 & c6 & H6 & H). gfree_caps H6.
  apply mrel_seq_inv in H as (s7 & c7 & H7 & H). gfree_caps H7.
  apply mrel_seq_inv in H as (s8 & c8 & H8 & H). gfree_caps H8.
  apply mrel_seq_inv in H as (s9 & c9 & H9 & H).
  apply mrel_group_digits in H9 as [-> D9].
  apply mrel_eps_inv in H as [-> ->].
  cbn [group_text find fst snd Nat.eqb]. auto.
Qed.

(** [GimyLaIE]: the page URL built from an accepted URL, and the short
    [gimy:] form of its id, are accepted again with the same id and the
    same page URL. *)
Theorem gimyla_request_canonical url video_id page :
  gimyla_request url = Some (video_id, page) ->
  gimyla_request page = Some (video_id, page) /\
  gimyla_request (utf8 "gimy:" ++ video_id) = Some (video_id, page).
Proof.
  unfold gimyla_request. intro H.
  destruct (match_groups3 valid_url_gimyla 2 4 3 url) as [[[vid sid] eid]|] eqn:E;
    [|discriminate].
  injection H as <- <-.
  unfold match_groups3 in E.
  destruct (re_match valid_url_gimyla url) as [[s c]|] eqn:M; [|discriminate].
  injection E as <- <- <-.
  apply re_match_sound, gimyla_groups in M as (Hv & Hs & He).
  rewrite gimyla_ids_page, gimyla_ids_short by assumption. auto.
Qed.


Lemma idoltv_ids_page vid sid eid :
  digit_string vid -> digit_string sid -> digit_string eid ->
  match_groups3 valid_url_idoltv 2 3 4 (idoltv_page_url vid sid eid)
  = Some (vid, sid, eid).
Proof.
  intros Hv Hs He. unfold match_groups3, idoltv_page_url.
  replace (utf8 "https://idoltv.tv/play/") with
    (utf8 "http" ++ utf8 "s" ++ utf8 "://idoltv.tv/play/") by (vm_compute; reflexivity).
  rewrite <- !app_assoc.
  match goal with |- context [re_match _ ?S] =>
    eassert (R : runs (List.length S) valid_url_idoltv S [] _ _) end.
  { unfold valid_url_idoltv.
    eapply runs_rseq_cons.
    { apply runs_group. apply runs_alt_r.
      { apply fails_lit_app; vm_compute; discriminate. }
      eapply runs_rseq_cons; [apply runs_lit|].
      eapply runs_rseq_cons; [apply runs_alt_l, runs_char; reflexivity|].
      eapply runs_rseq_cons; [apply runs_lit|].
      apply runs_rseq_nil. }
    eapply runs_rseq_cons; [apply runs_group, runs_digits; [exact Hv | reflexivity]|].
    eapply runs_rseq_cons; [apply runs_char; reflexivity|].
    eapply runs_rseq_cons; [apply runs_group, runs_digits; [exact Hs | reflexivity]|].
    eapply runs_rseq_cons; [apply runs_char; reflexivity|].
    eapply runs_rseq_cons; [apply runs_group, runs_digits; [exact He | reflexivity]|].
    apply runs_rseq_nil. }
  apply re_match_runs in R. rewrite R.
  cbn [group_text find fst snd Nat.eqb]. rewrite !slice_app. reflexivity.
Qed.

Lemma idoltv_ids_short vid sid eid :
  digit_string vid -> digit_string sid -> digit_string eid ->
  match_groups3 valid_url_idoltv 2 3 4 (utf8 "idoltv:" ++ idoltv_video_id vid sid eid)
  = Some (vid, sid, eid).
Proof.
  intros Hv Hs He. unfold match_groups3, idoltv_video_id.
  match goal with |- context [re_match _ ?S] =>
    eassert (R : runs (List.length S) valid_url_idoltv S [] _ _) end.
  { unfold valid_url_idoltv.
    eapply runs_rseq_cons; [apply runs_group, runs_alt_l, runs_lit|].
    eapply runs_rseq_cons; [apply runs_group, runs_digits; [exact Hv | reflexivity]|].
    eapply runs_rseq_cons; [apply runs_char; reflexivity|].
    eapply runs_rseq_cons; [apply runs_group, runs_digits; [exact Hs | reflexivity]|].
    eapply runs_rseq_cons; [apply runs_char; reflexivity|].
    eapply runs_rseq_cons; [apply runs_group, runs_digits_end; exact He|].
    apply runs_rseq_nil. }
  apply re_match_runs in R. rewrite R.
  cbn [group_text find fst snd Nat.eqb]. rewrite !slice_app.
  unfold slice. rewrite Nat.sub_0_r, firstn_all. reflexivity.
Qed.

Lemma idoltv_groups n t s c :
  mrel n valid_url_idoltv t [] s c ->
  digit_string (group_text c 2) /\ digit_string (group_text c 3) /\
  digit_string (group_text c 4).
Proof.
  unfold valid_url_idoltv. cbn [rseq fold_right]. intro H.
  apply mrel_seq_inv in H as (s1 & c1 & H1 & H).
  apply mrel_group_inv in H1 as (c0 & H1 & ->). gfree_caps H1.
  apply mrel_seq_inv in H as (s2 & c2 & H2 & H).
  apply mrel_group_digits in H2 as [-> D2].
  apply mrel_seq_inv in H as (s3 & c3 & H3 & H). gfree_caps H3.
  apply mrel_seq_inv in H as (s4 & c4 & H4 & H).
  apply mrel_group_digits in H4 as [-> D4].
  apply mrel_seq_inv in H as (s5 & c5 & H5 & H). gfree_caps H5.
  apply mrel_seq_inv in H as (s6 & c6 & H6 & H).
  apply mrel_group_digits in H6 as [-> D6].
  apply mrel_eps_inv in H as [-> ->].
  cbn [group_text find fst snd Nat.eqb]. auto.
Qed.

(** [IdoltvIE]: the page URL built from an accepted URL, and the short
    [idoltv:] form of its id, are accepted again with the same id and the
    same page URL. *)
Theorem idoltv_request_canonical url video_id page :
  idoltv_request url = Some (video_id, page) ->
  idoltv_request page = Some (video_id, page) /\
  idoltv_request (utf8 "idoltv:" ++ video_id) = Some (video_id, page).
Proof.
  unfold idoltv_request. intro H.
  destruct (match_groups3 valid_url_idoltv 2 3 4 url) as [[[vid sid] eid]|] eqn:E;
    [|discriminate].
  injection H as <- <-.
  unfold match_groups3 in E.
  destruct (re_match valid_url_idoltv url) as [[s c]|] eqn:M; [|discriminate].
  injection E as <- <- <-.
  apply re_match_sound, idoltv_groups in M as (Hv & Hs & He).
  rewrite idoltv_ids_page, idoltv_ids_short by assumption. auto.
Qed.

(** [GimyDetailIE] *)

Lemma detail_id_la v :
  digit_string v -> match_id valid_url_detail (fst (detail_urls v)) = Some v.
Proof.
  intro Hv. unfold match_id, detail_urls, fst.
  replace (utf8 "https://gimy.la/detail/") with
    (utf8 "http" ++ utf8 "s" ++ utf8 "://gimy." ++ utf8 "la" ++ utf8 "/" ++ utf8 "detail/")
    by (vm_compute; reflexivity).
  rewrite <- !app_assoc.
  match goal with |- context [re_match _ ?S] =>
    eassert (R : runs (List.length S) valid_url_detail S [] _ _) end.
  { unfold valid_url_detail.
    eapply runs_rseq_cons.
    { apply runs_group. apply runs_alt_r.
      { apply fails_lit_app; vm_compute; discriminate. }
      eapply runs_rseq_cons; [apply runs_lit|].
      eapply runs_rseq_cons; [apply runs_alt_l, runs_char; reflexivity|].
      eapply runs_rseq_cons; [apply runs_lit|].
      eapply runs_rseq_cons; [apply runs_alt_l, runs_lit|].
      eapply runs_rseq_cons; [apply runs_lit|].
      eapply runs_rseq_cons.
      { apply runs_alt_r; [|apply runs_eps].
        apply fails_lit_app; vm_compute; discriminate. }
      eapply runs_rseq_cons; [apply runs_lit|].
      apply runs_rseq_nil. }
    eapply runs_rseq_cons; [apply runs_group, runs_digits; [exact Hv | reflexivity]|].
    eapply runs_rseq_cons; [apply runs_alt_l, runs_alt_l, runs_char_end; reflexivity|].
    eapply runs_rseq_cons; [apply runs_eol|].
    apply runs_rseq_nil. }
  apply re_match_runs in R. rewrite R.
  cbn [group_text find fst snd Nat.eqb]. rewrite !slice_app. reflexivity.
Qed.

Lemma detail_id_cc v :
  digit_string v -> match_id valid_url_detail (snd (detail_urls v)) = Some v.
Proof.
  intro Hv. unfold match_id, detail_urls, snd.
  replace (utf8 "https://gimy.cc/detail/") with
    (utf8 "http" ++ utf8 "s" ++ utf8 "://gimy." ++ utf8 "cc" ++ utf8 "/" ++ utf8 "detail/")
    by (vm_compute; reflexivity).
  rewrite <- !app_assoc.
  match goal with |- context [re_match _ ?S] =>
    eassert (R : runs (List.length S) valid_url_detail S [] _ _) end.
  { unfold valid_url_detail.
    eapply runs_rseq_cons.
    { apply runs_group. apply runs_alt_r.
      { apply fails_lit_app; vm_compute; discriminate. }
      eapply runs_rseq_cons; [apply runs_lit|].
      eapply runs_rseq_cons; [apply runs_alt_l, runs_char; reflexivity|].
      eapply runs_rseq_cons; [apply runs_lit|].
      eapply runs_rseq_cons.
      { apply runs_alt_r; [|apply runs_lit].
        apply fails_lit_app; vm_compute; discriminate. }
      eapply runs_rseq_cons; [apply runs_lit|].
      eapply runs_rseq_cons.
      { apply runs_alt_r; [|apply runs_eps].
        apply fails_lit_app; vm_compute; discriminate. }
      eapply runs_rseq_cons; [apply runs_lit|].
      apply runs_rseq_nil. }
    eapply runs_rseq_cons; [apply runs_group, runs_digits; [exact Hv | reflexivity]|].
    eapply runs_rseq_cons; [apply runs_alt_l, runs_alt_l, runs_char_end; reflexivity|].
    eapply runs_rseq_cons; [apply runs_eol|].
    apply runs_rseq_nil. }
  apply re_match_runs in R. rewrite R.
  cbn [group_text find fst snd Nat.eqb]. rewrite !slice_app. reflexivity.
Qed.

Lemma detail_id_short v :
  digit_string v -> match_id valid_url_detail (utf8 "gimy:" ++ v) = Some v.
Proof.
  intro Hv. unfold match_id.
  match goal with |- context [re_match _ ?S] =>
    eassert (R : runs (List.length S) valid_url_detail S [] _ _) end.
  { unfold valid_url_detail.
    eapply runs_rseq_cons; [apply runs_group, runs_alt_l, runs_lit|].
    eapply runs_rseq_cons; [apply runs_group, runs_digits_end; exact Hv|].
    eapply runs_rseq_cons.
    { apply runs_alt_r; [|apply runs_eps].
      apply fails_alt; [apply fails_class_nil|].
      eapply fails_lit_nil. reflexivity. }
    eapply runs_rseq_cons; [apply runs_eol|].
    apply runs_rseq_nil. }
  apply re_match_runs in R. rewrite R.
  cbn [group_text find fst snd Nat.eqb].
  unfold slice. rewrite Nat.sub_0_r, firstn_all. reflexivity.
Qed.

Lemma detail_groups n t s c :
  mrel n valid_url_detail t [] s c -> digit_string (group_text c 2).
Proof.
  unfold valid_url_detail. cbn [rseq fold_right]. intro H.
  apply mrel_seq_inv in H as (s1 & c1 & H1 & H).
  apply mrel_group_inv in H1 as (c0 & H1 & ->). gfree_caps H1.
  apply mrel_seq_inv in H as (s2 & c2 & H2 & H).
  apply mrel_group_digits in H2 as [-> D2]. gfree_caps H.
  cbn [group_text find fst snd Nat.eqb]. exact D2.
Qed.

(** [GimyDetailIE]: the id of an accepted URL is a digit string, and the
    two detail pages built from it (gimy.la and gimy.cc) and the short
    [gimy:] form are accepted again with the same id and the same pair
    of page URLs. *)
Theorem detail_request_canonical url video_id la cc :
  detail_request url = Some (video_id, (la, cc)) ->
  digit_string video_id /\
  detail_request la = Some (video_id, (la, cc)) /\
  detail_request cc = Some (video_id, (la, cc)) /\
  detail_request (utf8 "gimy:" ++ video_id) = Some (video_id, (la, cc)).
Proof.
  unfold detail_request. intro H.
  destruct (match_id valid_url_detail url) as [v|] eqn:E; [|discriminate].
  assert (E2 : detail_urls v = (la, cc)) by congruence.
  assert (Ev : v = video_id) by congruence. subst video_id. clear H. unfold match_id in E.
  destruct (re_match valid_url_detail url) as [[s c]|] eqn:M; [|discriminate].
  injection E as <-.
  apply re_match_sound, detail_groups in M.
  pose proof (detail_id_la _ M) as L. pose proof (detail_id_cc _ M) as C.
  rewrite E2 in L, C. cbn [fst snd] in L, C.
  rewrite L, C, detail_id_short, E2 by exact M. auto.
Qed.

(** [IdoltvVodIE] *)

Lemma vod_id_page v : digit_string v -> match_id valid_url_vod (vod_page_url v) = Some v.
Proof.
  intro Hv. unfold match_id, vod_page_url.
  replace (utf8 "https://idoltv.tv/vod/") with
    (utf8 "http" ++ utf8 "s" ++ utf8 "://idoltv.tv/vod/") by (vm_compute; reflexivity).
  rewrite <- !app_assoc.
  match goal with |- context [re_match _ ?S] =>
    eassert (R : runs (List.length S) valid_url_vod S [] _ _) end.
  { unfold valid_url_vod.
    eapply runs_rseq_cons.
    { apply runs_group. apply runs_alt_r.
      { apply fails_lit_app; vm_compute; discriminate. }
      eapply runs_rseq_cons; [apply runs_lit|].
      eapply runs_rseq_cons; [apply runs_alt_l, runs_char; reflexivity|].
      eapply runs_rseq_cons; [apply runs_lit|].
      apply runs_rseq_nil. }
    eapply runs_rseq_cons; [apply runs_group, runs_digits; [exact Hv | reflexivity]|].
    apply runs_rseq_nil. }
  apply re_match_runs in R. rewrite R.
  cbn [group_text find fst snd Nat.eqb]. rewrite !slice_app. reflexivity.
Qed.

Lemma vod_id_short_prefix v r :
  digit_string v -> nodigit_head r ->
  match_id valid_url_vod (utf8 "idoltv:" ++ v ++ r) = Some v.
Proof.
  intros Hv Hr. unfold match_id.
  match goal with |- context [re_match _ ?S] =>
    eassert (R : runs (List.length S) valid_url_vod S [] _ _) end.
  { unfold valid_url_vod.
    eapply runs_rseq_cons; [apply runs_group, runs_alt_l, runs_lit|].
    eapply runs_rseq_cons; [apply runs_group, runs_digits; [exact Hv | exact Hr]|].
    apply runs_rseq_nil. }
  apply re_match_runs in R. rewrite R.
  cbn [group_text find fst snd Nat.eqb]. rewrite !slice_app. reflexivity.
Qed.

Lemma vod_groups n t s c :
  mrel n valid_url_vod t [] s c -> digit_string (group_text c 2).
Proof.
  unfold valid_url_vod. cbn [rseq fold_right]. intro H.
  apply mrel_seq_inv in H as (s1 & c1 & H1 & H).
  apply mrel_group_inv in H1 as (c0 & H1 & ->). gfree_caps H1.
  apply mrel_seq_inv in H as (s2 & c2 & H2 & H).
  apply mrel_group_digits in H2 as [-> D2].
  apply mrel_eps_inv in H as [-> ->].
  cbn [group_text find fst snd Nat.eqb]. exact D2.
Qed.

(** [IdoltvVodIE]: the page URL built from an accepted URL, and the short
    [idoltv:] form of its id, are accepted again with the same id and the
    same page URL. *)
Theorem vod_request_canonical url video_id page :
  vod_request url = Some (video_id, page) ->
  vod_request page = Some (video_id, page) /\
  vod_request (utf8 "idoltv:" ++ video_id) = Some (video_id, page).
Proof.
  unfold vod_request. intro H.
  destruct (match_id valid_url_vod url) as [v|] eqn:E; [|discriminate].
  injection H as Ev Ep. subst video_id page. unfold match_id in E.
  destruct (re_match valid_url_vod url) as [[s c]|] eqn:M; [|discriminate].
  injection E as Ev.
  apply re_match_sound, vod_groups in M. rewrite Ev in M.
  rewrite vod_id_page by exact M.
  pose proof (vod_id_short_prefix v [] M I) as Q. rewrite app_nil_r in Q. rewrite Q.
  auto.
Qed.

(** The short [idoltv:] id of an [IdoltvIE] episode is also accepted by
    [IdoltvVodIE], which reads its first number as the id of a whole
    series. *)
Theorem idoltv_short_id_also_vod vid sid eid :
  digit_string vid -> digit_string sid -> digit_string eid ->
  idoltv_request (utf8 "idoltv:" ++ idoltv_video_id vid sid eid)
    = Some (idoltv_video_id vid sid eid, idoltv_page_url vid sid eid) /\
  vod_request (utf8 "idoltv:" ++ idoltv_video_id vid sid eid) = Some (vid, vod_page_url vid).
Proof.
  intros Hv Hs He. unfold idoltv_request, vod_request.
  rewrite idoltv_ids_short by assumption.
  unfold idoltv_video_id. rewrite vod_id_short_prefix by (assumption || reflexivity).
  auto.
Qed.


(** *** Which extractor takes a URL *)

Lemma mrel_lit n str t c s c' :
  mrel n (rlit str) t c s c' -> t = utf8 str ++ s /\ c' = c.
Proof.
  unfold rlit. revert t c. induction (utf8 str) as [|x u IH]; simpl; intros t c H.
  - apply mrel_eps_inv in H as [-> ->]. auto.
  - apply mrel_seq_inv in H as (s1 & c1 & H1 & H2).
    apply mrel_class_inv in H1 as (y & -> & Hy & ->).
    apply Z.eqb_eq in Hy as ->.
    apply IH in H2 as [-> ->]. auto.
Qed.

Lemma mrel_char n str t c s c' :
  mrel n (rchar str) t c s c' -> t = ch str :: s /\ c' = c.
Proof.
  intro H. apply mrel_class_inv in H as (y & -> & Hy & ->).
  apply Z.eqb_eq in Hy as ->. auto.
Qed.

Lemma digit_run_unique w1 w2 t1 t2 :
  Forall (fun y => is_digit y = true) w1 -> Forall (fun y => is_digit y = true) w2 ->
  nodigit_head t1 -> nodigit_head t2 -> w1 ++ t1 = w2 ++ t2 -> w1 = w2 /\ t1 = t2.
Proof.
  intros H1. revert w2. induction H1 as [|x w1 Hx H1 IH]; intros w2 H2 N1 N2 E;
    destruct H2 as [|y w2 Hy H2]; simpl in E.
  - auto.
  - subst t1. simpl in N1. congruence.
  - subst t2. simpl in N2. congruence.
  - injection E as -> E. destruct (IH w2 H2 N1 N2 E) as [-> ->]. auto.
Qed.

Ltac norm_utf8 :=
  repeat match goal with
  | |- context [utf8 ?s] => let v := eval vm_compute in (utf8 s) in change (utf8 s) with v
  | |- context [ch ?s] => let v := eval vm_compute in (ch s) in change (ch s) with v
  end.

Ltac solve_exists_with tac :=
  repeat (first [apply Exists_cons_hd; tac | apply Exists_cons_tl]).

Ltac mrel_steps :=
  repeat match goal with
  | H : mrel _ (RSeq _ _) _ _ _ _ |- _ => apply mrel_seq_inv in H as (? & ? & ? & ?)
  | H : mrel _ (RAlt _ _) _ _ _ _ |- _ => apply mrel_alt_inv in H as [H|H]
  | H : mrel _ REps _ _ _ _ |- _ => apply mrel_eps_inv in H as [? ?]; subst
  | H : mrel _ (RGroup _ _) _ _ _ _ |- _ => apply mrel_group_inv in H as (? & ? & ?); subst
  | H : mrel _ (rlit _) _ _ _ _ |- _ => apply mrel_lit in H as [? ?]; subst
  | H : mrel _ (rchar _) _ _ _ _ |- _ => apply mrel_char in H as [? ?]; subst
  | H : mrel _ (rplus rd) _ _ _ _ |- _ =>
      apply mrel_digits_plus in H as [? (? & ? & ? & ? & ?)]; subst
  | H : mrel _ REol _ _ _ _ |- _ => inversion H; subst; clear H
  end.

Definition gimy_prefixes : list pystr :=
  [utf8 "gimy:"; utf8 "http://gimy.cc/video/"; utf8 "https://gimy.cc/video/";
   utf8 "http://gimy.cc/index.php/video/"; utf8 "https://gimy.cc/index.php/video/"].

Definition gimyla_prefixes : list pystr :=
  [utf8 "gimy:"; utf8 "http://gimy.la/play/"; utf8 "https://gimy.la/play/"].

Definition detail_prefixes : list pystr :=
  [utf8 "gimy:";
   utf8 "http://gimy.la/detail/"; utf8 "https://gimy.la/detail/";
   utf8 "http://gimy.cc/detail/"; utf8 "https://gimy.cc/detail/";
   utf8 "http://gimy.la/index.php/detail/"; utf8 "https://gimy.la/index.php/detail/";
   utf8 "http://gimy.cc/index.php/detail/"; utf8 "https://gimy.cc/index.php/detail/"].

Definition detail_tails : list pystr :=
  [[]; [10]; utf8 "/"; utf8 "/" ++ [10]; utf8 ".html"; utf8 ".html" ++ [10]].

Lemma gimy_shape n t s c :
  mrel n valid_url_gimy t [] s c ->
  exists d r, Exists (fun p => t = p ++ d ++ ch "-" :: r) gimy_prefixes /\
    digit_string d.
Proof.
  unfold valid_url_gimy, ropt. cbn [rseq fold_right]. intro H. mrel_steps;
    (eexists (_ :: _), _; split;
      [unfold gimy_prefixes; norm_utf8; solve_exists_with ltac:(reflexivity) | split; [discriminate | constructor; assumption]]).
Qed.

Lemma gimyla_shape n t s c :
  mrel n valid_url_gimyla t [] s c ->
  exists d r, Exists (fun p => t = p ++ d ++ utf8 "ep" ++ r \/
                               t = p ++ d ++ utf8 "/ep" ++ r) gimyla_prefixes /\
    digit_string d.
Proof.
  unfold valid_url_gimyla, ropt. cbn [rseq fold_right]. intro H. mrel_steps;
    (eexists (_ :: _), _; split;
      [unfold gimyla_prefixes; norm_utf8;
       solve_exists_with ltac:(first [left; reflexivity | right; reflexivity])
      | split; [discriminate | constructor; assumption]]).
Qed.

Lemma detail_shape n t s c :
  mrel n valid_url_detail t [] s c ->
  exists d, Exists (fun p => Exists (fun q => t = p ++ d ++ q) detail_tails)
              detail_prefixes /\
    digit_string d.
Proof.
  unfold valid_url_detail. cbn [rseq fold_right]. intro H.
  apply mrel_seq_inv in H as (s1 & c1 & H1 & H).
  apply mrel_seq_inv in H as (s2 & c2 & H2 & H).
  apply mrel_group_inv in H2 as (c3 & H2 & ->).
  apply mrel_digits_plus in H2 as [-> (x & w & -> & Hx & Hw)].
  assert (P : Exists (fun p => t = p ++ x :: w ++ s2) detail_prefixes).
  { clear H. unfold ropt in H1. mrel_steps;
      unfold detail_prefixes; norm_utf8; solve_exists_with ltac:(reflexivity). }
  assert (Q : Exists (fun q => s2 = q) detail_tails).
  { clear H1 P. unfold ropt in H. mrel_steps;
      unfold detail_tails; norm_utf8; solve_exists_with ltac:(reflexivity). }
  exists (x :: w). split; [|split; [discriminate | constructor; assumption]].
  eapply Exists_impl; [|exact P]. intros p Hp.
  eapply Exists_impl; [|exact Q]. intros q Hq. cbv beta in Hp, Hq |- *. subst q. exact Hp.
Qed.


Ltac norm_utf8_in H :=
  repeat match type of H with
  | context [utf8 ?s] => let v := eval vm_compute in (utf8 s) in change (utf8 s) with v in H
  | context [ch ?s] => let v := eval vm_compute in (ch s) in change (ch s) with v in H
  end.

Ltac exists_cases H :=
  repeat (match type of H with
  | Exists _ (_ :: _) => apply Exists_cons in H as [H|H]; cbv beta in H
  | Exists _ [] => apply Exists_nil in H; contradiction
  end).

(** Two decompositions [p ++ d1 ++ t1 = p' ++ d2 ++ t2] of one URL, with
    [d1], [d2] runs of digits, are impossible unless the prefixes and the
    text after the digits agree. *)
Ltac clash E D1 D2 :=
  first
    [ apply app_inv_head in E;
      apply digit_run_unique in E as [_ E];
      [ simpl in E; discriminate E | exact D1 | exact D2
      | simpl; first [reflexivity | exact I] | simpl; first [reflexivity | exact I] ]
    | simpl in E; discriminate E ].

Lemma gimy_not_gimyla n1 n2 t s1 c1 s2 c2 :
  mrel n1 valid_url_gimy t [] s1 c1 -> mrel n2 valid_url_gimyla t [] s2 c2 -> False.
Proof.
  intros H1 H2.
  apply gimy_shape in H1 as (d1 & r1 & P1 & _ & D1).
  apply gimyla_shape in H2 as (d2 & r2 & P2 & _ & D2).
  unfold gimy_prefixes in P1. unfold gimyla_prefixes in P2.
  norm_utf8_in P1. norm_utf8_in P2.
  exists_cases P1; exists_cases P2; destruct P2 as [P2|P2]; rewrite P1 in P2;
    clash P2 D1 D2.
Qed.

Lemma gimy_not_detail n1 n2 t s1 c1 s2 c2 :
  mrel n1 valid_url_gimy t [] s1 c1 -> mrel n2 valid_url_detail t [] s2 c2 -> False.
Proof.
  intros H1 H2.
  apply gimy_shape in H1 as (d1 & r1 & P1 & _ & D1).
  apply detail_shape in H2 as (d2 & P2 & _ & D2).
  unfold gimy_prefixes in P1. unfold detail_prefixes, detail_tails in P2.
  norm_utf8_in P1. norm_utf8_in P2.
  exists_cases P1; exists_cases P2; rewrite P1 in P2; clash P2 D1 D2.
Qed.

Lemma gimyla_not_detail n1 n2 t s1 c1 s2 c2 :
  mrel n1 valid_url_gimyla t [] s1 c1 -> mrel n2 valid_url_detail t [] s2 c2 -> False.
Proof.
  intros H1 H2.
  apply gimyla_shape in H1 as (d1 & r1 & P1 & _ & D1).
  apply detail_shape in H2 as (d2 & P2 & _ & D2).
  unfold gimyla_prefixes in P1. unfold detail_prefixes, detail_tails in P2.
  norm_utf8_in P1. norm_utf8_in P2.
  exists_cases P1; destruct P1 as [P1|P1]; exists_cases P2; rewrite P1 in P2;
    clash P2 D1 D2.
Qed.

(** No URL is matched by two of the [_VALID_URL] patterns of [GimyIE],
    [GimyLaIE] and [GimyDetailIE]. *)
Theorem gimy_url_patterns_disjoint url :
  (re_match valid_url_gimy url = None \/ re_match valid_url_gimyla url = None) /\
  (re_match valid_url_gimy url = None \/ re_match valid_url_detail url = None) /\
  (re_match valid_url_gimyla url = None \/ re_match valid_url_detail url = None).
Proof.
  destruct (re_match valid_url_gimy url) as [[s1 c1]|] eqn:E1;
  destruct (re_match valid_url_gimyla url) as [[s2 c2]|] eqn:E2;
  destruct (re_match valid_url_detail url) as [[s3 c3]|] eqn:E3; auto;
  apply re_match_sound in E1 || idtac; apply re_match_sound in E2 || idtac;
  apply re_match_sound in E3 || idtac; exfalso;
  first [ eapply gimy_not_gimyla; eassumption | eapply gimy_not_detail; eassumption
        | eapply gimyla_not_detail; eassumption ].
Qed.

Lemma gimy_request_canonical_witness :
  gimy_request (utf8 "https://gimy.cc/video/59937-10-24.html")
    = Some (utf8 "59937-10-24", utf8 "https://gimy.cc/index.php/video/59937-10-24.html") /\
  gimy_request (utf8 "https://gimy.cc/index.php/video/59937-10-24.html")
    = Some (utf8 "59937-10-24", utf8 "https://gimy.cc/index.php/video/59937-10-24.html") /\
  gimy_request (utf8 "gimy:" ++ utf8 "59937-10-24")
    = Some (utf8 "59937-10-24", utf8 "https://gimy.cc/index.php/video/59937-10-24.html").
Proof.
  assert (H : gimy_request (utf8 "https://gimy.cc/video/59937-10-24.html")
    = Some (utf8 "59937-10-24", utf8 "https://gimy.cc/index.php/video/59937-10-24.html"))
    by (vm_compute; reflexivity).
  split; [exact H | exact (gimy_request_canonical _ _ _ H)].
Defined.

Lemma gimyla_request_canonical_witness :
  gimyla_request (utf8 "https://gimy.la/play/59937/ep24?sid=10")
    = Some (utf8 "59937ep24sid10", utf8 "https://gimy.la/play/59937/ep24?sid=10") /\
  gimyla_request (utf8 "https://gimy.la/play/59937/ep24?sid=10")
    = Some (utf8 "59937ep24sid10", utf8 "https://gimy.la/play/59937/ep24?sid=10") /\
  gimyla_request (utf8 "gimy:" ++ utf8 "59937ep24sid10")
    = Some (utf8 "59937ep24sid10", utf8 "https://gimy.la/play/59937/ep24?sid=10").
Proof.
  assert (H : gimyla_request (utf8 "https://gimy.la/play/59937/ep24?sid=10")
    = Some (utf8 "59937ep24sid10", utf8 "https://gimy.la/play/59937/ep24?sid=10"))
    by (vm_compute; reflexivity).
  split; [exact H | exact (gimyla_request_canonical _ _ _ H)].
Defined.

Lemma idoltv_request_canonical_witness :
  idoltv_request (utf8 "https://idoltv.tv/play/552-2-60.html")
    = Some (utf8 "552-2-60", utf8 "https://idoltv.tv/play/552-2-60.html") /\
  idoltv_request (utf8 "https://idoltv.tv/play/552-2-60.html")
    = Some (utf8 "552-2-60", utf8 "https://idoltv.tv/play/552-2-60.html") /\
  idoltv_request (utf8 "idoltv:" ++ utf8 "552-2-60")
    = Some (utf8 "552-2-60", utf8 "https://idoltv.tv/play/552-2-60.html").
Proof.
  assert (H : idoltv_request (utf8 "https://idoltv.tv/play/552-2-60.html")
    = Some (utf8 "552-2-60", utf8 "https://idoltv.tv/play/552-2-60.html"))
    by (vm_compute; reflexivity).
  split; [exact H | exact (idoltv_request_canonical _ _ _ H)].
Defined.

Lemma detail_request_canonical_witness :
  detail_request (utf8 "https://gimy.la/detail/18677/")
    = Some (utf8 "18677", (utf8 "https://gimy.la/detail/18677/",
                           utf8 "https://gimy.cc/detail/18677/")) /\
  digit_string (utf8 "18677") /\
  detail_request (utf8 "https://gimy.la/detail/18677/")
    = Some (utf8 "18677", (utf8 "https://gimy.la/detail/18677/",
                           utf8 "https://gimy.cc/detail/18677/")) /\
  detail_request (utf8 "https://gimy.cc/detail/18677/")
    = Some (utf8 "18677", (utf8 "https://gimy.la/detail/18677/",
                           utf8 "https://gimy.cc/detail/18677/")) /\
  detail_request (utf8 "gimy:" ++ utf8 "18677")
    = Some (utf8 "18677", (utf8 "https://gimy.la/detail/18677/",
                           utf8 "https://gimy.cc/detail/18677/")).
Proof.
  assert (H : detail_request (utf8 "https://gimy.la/detail/18677/")
    = Some (utf8 "18677", (utf8 "https://gimy.la/detail/18677/",
                           utf8 "https://gimy.cc/detail/18677/")))
    by (vm_compute; reflexivity).
  split; [exact H | exact (detail_request_canonical _ _ _ _ H)].
Defined.

Lemma vod_request_canonical_witness :
  vod_request (utf8 "https://idoltv.tv/vod/5310.html")
    = Some (utf8 "5310", utf8 "https://idoltv.tv/vod/5310.html") /\
  vod_request (utf8 "https://idoltv.tv/vod/5310.html")
    = Some (utf8 "5310", utf8 "https://idoltv.tv/vod/5310.html") /\
  vod_request (utf8 "idoltv:" ++ utf8 "5310")
    = Some (utf8 "5310", utf8 "https://idoltv.tv/vod/5310.html").
Proof.
  assert (H : vod_request (utf8 "https://idoltv.tv/vod/5310.html")
    = Some (utf8 "5310", utf8 "https://idoltv.tv/vod/5310.html"))
    by (vm_compute; reflexivity).
  split; [exact H | exact (vod_request_canonical _ _ _ H)].
Defined.

Lemma idoltv_short_id_also_vod_witness :
  digit_string (utf8 "552") /\ digit_string (utf8 "2") /\ digit_string (utf8 "60") /\
  idoltv_request (utf8 "idoltv:" ++ idoltv_video_id (utf8 "552") (utf8 "2") (utf8 "60"))
    = Some (idoltv_video_id (utf8 "552") (utf8 "2") (utf8 "60"),
            idoltv_page_url (utf8 "552") (utf8 "2") (utf8 "60")) /\
  vod_request (utf8 "idoltv:" ++ idoltv_video_id (utf8 "552") (utf8 "2") (utf8 "60"))
    = Some (utf8 "552", vod_page_url (utf8 "552")).
Proof.
  assert (D1 : digit_string (utf8 "552"))
    by (split; [vm_compute; discriminate | repeat constructor]).
  assert (D2 : digit_string (utf8 "2"))
    by (split; [vm_compute; discriminate | repeat constructor]).
  assert (D3 : digit_string (utf8 "60"))
    by (split; [vm_compute; discriminate | repeat constructor]).
  split; [exact D1|]. split; [exact D2|]. split; [exact D3|].
  exact (idoltv_short_id_also_vod _ _ _ D1 D2 D3).
Defined.

(** * The playlist of a series *)

(** ** The playlist loops *)

Lemma fold_opt_app {X Y : Type} (f : X -> Y -> option X) l1 l2 a :
  fold_opt f (l1 ++ l2) a =
    match fold_opt f l1 a with Some b => fold_opt f l2 b | None => None end.
Proof.
  revert a. induction l1 as [|y rest IH]; intros a; simpl; [reflexivity|].
  destruct (f a y); [apply IH | reflexivity].
Qed.

Lemma fold_opt_none_in {X Y : Type} (f : X -> Y -> option X) y :
  (forall a, f a y = None) -> forall l a, In y l -> fold_opt f l a = None.
Proof.
  intros Hy l. induction l as [|y' rest IH]; intros a Hin; simpl in *; [contradiction|].
  destruct Hin as [<-|Hin].
  - rewrite Hy. reflexivity.
  - destruct (f a y'); [apply IH, Hin | reflexivity].
Qed.

Lemma fold_opt_const {X Y : Type} (f : X -> Y -> option X) a l :
  (forall y, In y l -> f a y = Some a) -> fold_opt f l a = Some a.
Proof.
  induction l as [|y rest IH]; intros H; simpl; [reflexivity|].
  rewrite (H y (or_introl eq_refl)). apply IH. intros y' Hy'. apply H. right. exact Hy'.
Qed.

Lemma str_eqb_eq a b : str_eqb a b = true -> a = b.
Proof.
  revert b. induction a as [|x a IH]; intros [|y b]; simpl; try discriminate; [reflexivity|].
  intros H. apply andb_prop in H as [H1 H2]. apply Z.eqb_eq in H1. subst y.
  f_equal. apply IH, H2.
Qed.

Lemma pentry_in_link x l :
  pentry_in x l = true -> exists k, In (fst x, k) l.
Proof.
  unfold pentry_in. rewrite existsb_exists. intros (p & Hp & E).
  unfold pentry_eqb in E. apply andb_prop in E as [E _].
  apply str_eqb_eq in E. exists (snd p). rewrite E. destruct p. exact Hp.
Qed.

Lemma list_remove_incl x l l' : list_remove x l = Some l' -> incl l' l.
Proof.
  revert l'. induction l as [|b rest IH]; intros l' H; simpl in H; [discriminate|].
  destruct (entry_eqb b x).
  - injection H as <-. intros a Ha. right. exact Ha.
  - destruct (list_remove x rest) as [r|] eqn:E; [|discriminate].
    injection H as <-. intros a [<-|Ha]; [left; reflexivity|].
    right. exact (IH r eq_refl a Ha).
Qed.

Lemma prune_incl z d bs bs' : prune z d bs = Some bs' -> incl bs' bs.
Proof.
  unfold prune. destruct z as [|b [|b' z]].
  - destruct d as [|b [|b' d]]; try (injection 1 as <-; apply incl_refl).
    apply list_remove_incl.
  - apply list_remove_incl.
  - injection 1 as <-. apply incl_refl.
Qed.

Lemma fold_prune_incl st es bs bs' :
  fold_opt (prune_token st) es bs = Some bs' -> incl bs' bs.
Proof.
  revert bs. induction es as [|e rest IH]; intros bs H; simpl in H.
  - injection H as <-. apply incl_refl.
  - unfold prune_token at 1 in H.
    destruct (scan_group st e bs) as [[z d]|]; [|discriminate].
    destruct (prune z d bs) as [bs1|] eqn:E; [|discriminate].
    exact (incl_tran (IH bs1 H) (prune_incl _ _ _ _ E)).
Qed.

(** A group of the state against the same group of [links] at the start. *)
Definition grp_sub (g0 g : group) : Prop :=
  source g = source g0 /\ incl (links g) (links g0).

Lemma grp_sub_refl g : grp_sub g g.
Proof. split; [reflexivity | apply incl_refl]. Qed.

Lemma Forall2_grp_sub_trans l1 l2 l3 :
  Forall2 grp_sub l1 l2 -> Forall2 grp_sub l2 l3 -> Forall2 grp_sub l1 l3.
Proof.
  intros H12. revert l3. induction H12 as [|a b l1 l2 [S1 I1] _ IH]; intros l3 H23;
    inversion H23 as [|b' c l2' l3' [S2 I2] H23']; subst; constructor.
  - split; [congruence | exact (incl_tran I2 I1)].
  - apply IH, H23'.
Qed.

Lemma prune_later_sub st skip epsd i j gs gs' :
  prune_later st skip epsd i j gs = Some gs' -> Forall2 grp_sub gs gs'.
Proof.
  revert j gs'. induction gs as [|a rest IH]; intros j gs' H; simpl in H.
  - injection H as <-. constructor.
  - destruct (negb (skip (source a)) && (i <? j)%nat).
    + destruct (fold_opt (prune_token st) epsd (links a)) as [l'|] eqn:E; [|discriminate].
      destruct (prune_later st skip epsd i (S j) rest) as [rest'|] eqn:R; [|discriminate].
      injection H as <-. constructor; [|exact (IH _ _ R)].
      split; [reflexivity | exact (fold_prune_incl _ _ _ _ E)].
    + destruct (prune_later st skip epsd i (S j) rest) as [rest'|] eqn:R; [|discriminate].
      injection H as <-. constructor; [apply grp_sub_refl | exact (IH _ _ R)].
Qed.

Lemma Forall2_nth_error_r {X Y : Type} (R : X -> Y -> Prop) l1 l2 i y :
  Forall2 R l1 l2 -> nth_error l2 i = Some y -> exists x, nth_error l1 i = Some x /\ R x y.
Proof.
  intros H. revert i. induction H as [|a b l1 l2 Hab _ IH]; intros [|i] E; simpl in E;
    try discriminate.
  - injection E as <-. exists a. split; [reflexivity | exact Hab].
  - exact (IH i E).
Qed.

Lemma playlist_step_grow st rx skip i s y s' :
  playlist_step st rx skip i s y = Some s' ->
  incl (fst s) (fst s') /\ exists k, In (fst y, k) (fst s').
Proof.
  destruct s as [pl gs]. unfold playlist_step.
  destruct (parse_episode st (snd y)) as [epsd|]; [|discriminate].
  destruct (playlist_key rx (fst y) epsd) as [k|]; [|discriminate].
  destruct (prune_later st skip epsd i 0 gs) as [gs'|]; [|discriminate].
  intros H. injection H as <-. cbn [fst].
  destruct (pentry_in (fst y, k) pl) eqn:E.
  - split; [apply incl_refl | exact (pentry_in_link _ _ E)].
  - split; [apply incl_appl, incl_refl|].
    exists k. apply in_or_app. right. left. reflexivity.
Qed.

Lemma fold_step_grow st rx skip i ys s s' :
  fold_opt (playlist_step st rx skip i) ys s = Some s' ->
  incl (fst s) (fst s') /\ forall y, In y ys -> exists k, In (fst y, k) (fst s').
Proof.
  revert s. induction ys as [|y rest IH]; intros s H; simpl in H.
  - injection H as <-. split; [apply incl_refl | intros y []].
  - destruct (playlist_step st rx skip i s y) as [s1|] eqn:E; [|discriminate].
    destruct (playlist_step_grow _ _ _ _ _ _ _ E) as [I1 (k & Hk)].
    destruct (IH s1 H) as [I2 Hall]. split; [exact (incl_tran I1 I2)|].
    intros y' [<-|Hy']; [exists k; exact (I2 _ Hk) | exact (Hall y' Hy')].
Qed.

Lemma playlist_group_grow st rx skip s i s' :
  playlist_group st rx skip s i = Some s' -> incl (fst s) (fst s').
Proof.
  unfold playlist_group. destruct (nth_error (snd s) i) as [x|]; [|discriminate].
  destruct (skip (source x)).
  - injection 1 as <-. apply incl_refl.
  - intros H. exact (proj1 (fold_step_grow _ _ _ _ _ _ _ H)).
Qed.

Lemma fold_groups_grow st rx skip idx s s' :
  fold_opt (playlist_group st rx skip) idx s = Some s' -> incl (fst s) (fst s').
Proof.
  revert s. induction idx as [|i rest IH]; intros s H; simpl in H.
  - injection H as <-. apply incl_refl.
  - destruct (playlist_group st rx skip s i) as [s1|] eqn:E; [|discriminate].
    exact (incl_tran (playlist_group_grow _ _ _ _ _ _ E) (IH s1 H)).
Qed.

(** The groups before the first one that is not skipped leave the state as
    it is. *)
Lemma fold_groups_skipped st rx skip bs rest pl :
  Forall (fun g => skip (source g) = true) bs ->
  fold_opt (playlist_group st rx skip) (seq 0 (List.length bs)) (pl, bs ++ rest)
    = Some (pl, bs ++ rest).
Proof.
  intros Hbs. apply fold_opt_const. intros k Hk. apply in_seq in Hk.
  unfold playlist_group. cbn [snd].
  rewrite nth_error_app1 by lia.
  destruct (nth_error bs k) as [g|] eqn:E.
  - rewrite (proj1 (Forall_forall _ _) Hbs g (nth_error_In _ _ E)). reflexivity.
  - apply nth_error_None in E. lia.
Qed.

Lemma seq_split_at (bs : list group) g rest :
  seq 0 (List.length (bs ++ g :: rest)) =
    seq 0 (List.length bs) ++ [List.length bs] ++ seq (S (List.length bs)) (List.length rest).
Proof.
  rewrite length_app. cbn [List.length]. rewrite seq_app. reflexivity.
Qed.

Lemma playlist_loop_at_first st rx skip bs g rest :
  Forall (fun g => skip (source g) = true) bs -> skip (source g) = false ->
  playlist_loop st rx skip (bs ++ g :: rest) =
    match fold_opt (playlist_step st rx skip (List.length bs)) (links g) ([], bs ++ g :: rest) with
    | Some s => match fold_opt (playlist_group st rx skip)
                        (seq (S (List.length bs)) (List.length rest)) s with
                | Some (playlist, _) => Some playlist
                | None => None
                end
    | None => None
    end.
Proof.
  intros Hbs Hg. unfold playlist_loop. rewrite seq_split_at, !fold_opt_app.
  rewrite fold_groups_skipped by exact Hbs.
  assert (G : playlist_group st rx skip ([], bs ++ g :: rest) (List.length bs) =
              fold_opt (playlist_step st rx skip (List.length bs)) (links g) ([], bs ++ g :: rest)).
  { unfold playlist_group. cbn [snd].
    rewrite nth_error_app2, Nat.sub_diag by lia. cbn [nth_error]. rewrite Hg. reflexivity. }
  cbn [app fold_opt]. rewrite G.
  destruct (fold_opt (playlist_step st rx skip (List.length bs)) (links g) ([], bs ++ g :: rest))
    as [s|]; [|reflexivity].
  destruct (fold_opt (playlist_group st rx skip) (seq (S (List.length bs)) (List.length rest)) s)
    as [[pl gs]|]; reflexivity.
Qed.

(** Every link of the first group that is not skipped has an entry. *)
Lemma playlist_loop_first_group st rx skip bs g rest pl :
  Forall (fun g => skip (source g) = true) bs -> skip (source g) = false ->
  playlist_loop st rx skip (bs ++ g :: rest) = Some pl ->
  forall y, In y (links g) -> exists k, In (fst y, k) pl.
Proof.
  intros Hbs Hg. rewrite playlist_loop_at_first by assumption.
  destruct (fold_opt (playlist_step st rx skip (List.length bs)) (links g) ([], bs ++ g :: rest))
    as [s|] eqn:E1; [|discriminate].
  destruct (fold_opt (playlist_group st rx skip) (seq (S (List.length bs)) (List.length rest)) s)
    as [[pl' gs]|] eqn:E2; [|discriminate].
  injection 1 as <-. intros y Hy.
  destruct (proj2 (fold_step_grow _ _ _ _ _ _ _ E1) y Hy) as [k Hk].
  exists k. exact (fold_groups_grow _ _ _ _ _ _ E2 _ Hk).
Qed.

(** A link of the first group that is not skipped whose key cannot be
    computed makes the whole loop fail. *)
Lemma playlist_loop_first_group_fails st rx skip bs g rest y :
  Forall (fun g => skip (source g) = true) bs -> skip (source g) = false ->
  In y (links g) ->
  (forall epsd, parse_episode st (snd y) = Some epsd -> playlist_key rx (fst y) epsd = None) ->
  playlist_loop st rx skip (bs ++ g :: rest) = None.
Proof.
  intros Hbs Hg Hy Hk. rewrite playlist_loop_at_first by assumption.
  rewrite (fold_opt_none_in _ y); [reflexivity | | exact Hy].
  intros [pl gs]. unfold playlist_step.
  destruct (parse_episode st (snd y)) as [epsd|] eqn:E; [|reflexivity].
  rewrite (Hk epsd eq_refl). reflexivity.
Qed.

(** No entry of the playlist is [==] to an earlier one. *)
Definition no_equal_later (pl : list pentry) : Prop :=
  ForallOrdPairs (fun a b => pentry_eqb b a = false) pl.

Lemma ForallOrdPairs_snoc {X : Type} (R : X -> X -> Prop) l x :
  ForallOrdPairs R l -> Forall (fun a => R a x) l -> ForallOrdPairs R (l ++ [x]).
Proof.
  induction l as [|a l IH]; intros H Hx; simpl.
  - constructor; constructor.
  - inversion H as [|? ? Ha Hl]; subst. inversion Hx as [|? ? Hax Hlx]; subst.
    constructor; [apply Forall_app; split; [exact Ha | constructor; [exact Hax | constructor]]|].
    apply IH; assumption.
Qed.

Lemma playlist_step_nodup st rx skip i s y s' :
  playlist_step st rx skip i s y = Some s' -> no_equal_later (fst s) -> no_equal_later (fst s').
Proof.
  destruct s as [pl gs]. unfold playlist_step.
  destruct (parse_episode st (snd y)) as [epsd|]; [|discriminate].
  destruct (playlist_key rx (fst y) epsd) as [k|]; [|discriminate].
  destruct (prune_later st skip epsd i 0 gs) as [gs'|]; [|discriminate].
  intros H. injection H as <-. cbn [fst]. intros N.
  destruct (pentry_in (fst y, k) pl) eqn:E; [exact N|].
  apply ForallOrdPairs_snoc; [exact N|].
  apply Forall_forall. intros a Ha.
  destruct (pentry_eqb (fst y, k) a) eqn:Ea; [|reflexivity].
  unfold pentry_in in E. rewrite (proj2 (existsb_exists _ _) (ex_intro _ a (conj Ha Ea))) in E.
  discriminate.
Qed.

Lemma Forall_True {X : Type} (l : list X) : Forall (fun _ => True) l.
Proof. apply Forall_forall. intros; exact I. Qed.

Lemma playlist_group_nodup st rx skip s i s' :
  playlist_group st rx skip s i = Some s' -> no_equal_later (fst s) -> no_equal_later (fst s').
Proof.
  unfold playlist_group. destruct (nth_error (snd s) i) as [x|]; [|discriminate].
  destruct (skip (source x)); [injection 1 as <-; auto|].
  intros H N.
  exact (fold_opt_inv (fun s => no_equal_later (fst s)) (fun _ => True) _
           (fun s y s' _ N E => playlist_step_nodup _ _ _ _ _ _ _ E N)
           (links x) s s' (Forall_True _) N H).
Qed.

Lemma playlist_loop_nodup st rx skip ls pl :
  playlist_loop st rx skip ls = Some pl -> no_equal_later pl.
Proof.
  unfold playlist_loop.
  destruct (fold_opt (playlist_group st rx skip) (seq 0 (List.length ls)) ([], ls))
    as [[pl' gs]|] eqn:E; [|discriminate].
  injection 1 as <-.
  exact (fold_opt_inv (fun s => no_equal_later (fst s)) (fun _ => True) _
           (fun s i s' _ N E => playlist_group_nodup _ _ _ _ _ _ E N)
           _ ([], ls) _ (Forall_True _) (FOP_nil _) E).
Qed.

(** Every entry of the playlist is a link of a group that is not skipped. *)
Definition from_groups (skip : pystr -> bool) (ls : list group) (pl : list pentry) : Prop :=
  forall p, In p pl -> exists g, In g ls /\ skip (source g) = false /\
                                exists lb, In (fst p, lb) (links g).

Definition origin_inv (skip : pystr -> bool) (ls : list group) (s : list pentry * list group) : Prop :=
  Forall2 grp_sub ls (snd s) /\ from_groups skip ls (fst s).

Lemma playlist_step_origin st rx skip ls i g0 x s y s' :
  nth_error ls i = Some g0 -> grp_sub g0 x -> skip (source x) = false -> In y (links x) ->
  origin_inv skip ls s -> playlist_step st rx skip i s y = Some s' -> origin_inv skip ls s'.
Proof.
  intros N [Sx Ix] Hx Hy [F O]. destruct s as [pl gs]. unfold playlist_step.
  destruct (parse_episode st (snd y)) as [epsd|]; [|discriminate].
  destruct (playlist_key rx (fst y) epsd) as [k|]; [|discriminate].
  destruct (prune_later st skip epsd i 0 gs) as [gs'|] eqn:P; [|discriminate].
  intros H. injection H as <-. split.
  - exact (Forall2_grp_sub_trans _ _ _ F (prune_later_sub _ _ _ _ _ _ _ P)).
  - cbn [fst]. destruct (pentry_in (fst y, k) pl); [exact O|].
    intros p Hp. apply in_app_or in Hp as [Hp|[<-|[]]]; [exact (O p Hp)|].
    exists g0. split; [exact (nth_error_In _ _ N)|]. split; [rewrite <- Sx; exact Hx|].
    exists (snd y). apply Ix. destruct y. exact Hy.
Qed.

Lemma playlist_group_origin st rx skip ls s i s' :
  origin_inv skip ls s -> playlist_group st rx skip s i = Some s' -> origin_inv skip ls s'.
Proof.
  intros Inv. unfold playlist_group.
  destruct (nth_error (snd s) i) as [x|] eqn:N; [|discriminate].
  destruct (skip (source x)) eqn:Hx; [injection 1 as <-; exact Inv|].
  destruct (Forall2_nth_error_r _ _ _ _ _ (proj1 Inv) N) as (g0 & N0 & Sub).
  intros H.
  exact (fold_opt_inv (origin_inv skip ls) (fun y => In y (links x)) _
           (fun s y s' Hy I E => playlist_step_origin _ _ _ _ _ _ _ _ _ _ N0 Sub Hx Hy I E)
           (links x) s s' (proj2 (Forall_forall _ _) (fun y Hy => Hy)) Inv H).
Qed.

Lemma Forall2_grp_sub_refl l : Forall2 grp_sub l l.
Proof. induction l; constructor; [apply grp_sub_refl | assumption]. Qed.

Lemma playlist_loop_origin st rx skip ls pl :
  playlist_loop st rx skip ls = Some pl -> from_groups skip ls pl.
Proof.
  unfold playlist_loop.
  destruct (fold_opt (playlist_group st rx skip) (seq 0 (List.length ls)) ([], ls))
    as [[pl' gs]|] eqn:E; [|discriminate].
  injection 1 as <-.
  assert (I0 : origin_inv skip ls ([], ls)).
  { split; [apply Forall2_grp_sub_refl | intros p []]. }
  exact (proj2 (fold_opt_inv (origin_inv skip ls) (fun _ => True) _
                  (fun s i s' _ I E => playlist_group_origin _ _ _ _ _ _ _ I E)
                  _ ([], ls) _ (Forall_True _) I0 E)).
Qed.

(** No label of a group shares a token with, or is a near match of, the label
    of a link of an earlier group (both groups not skipped). *)
Definition unrelated (st : site) (skip : pystr -> bool) (ls : list group) : Prop :=
  forall i j gi gj, (i < j)%nat -> nth_error ls i = Some gi -> nth_error ls j = Some gj ->
  skip (source gi) = false -> skip (source gj) = false ->
  forall y b epsd ep, In y (links gi) -> In b (links gj) ->
  parse_episode st (snd y) = Some epsd -> parse_episode st (snd b) = Some ep ->
  forall e, In e epsd -> tok_in e ep = false /\ near_match e ep = Some false.

Definition no_match_in (st : site) (e : token) (bs : list entry) : Prop :=
  forall b, In b bs -> forall ep, parse_episode st (snd b) = Some ep ->
  tok_in e ep = false /\ near_match e ep = Some false.

Lemma scan_group_empty st e bs z d :
  no_match_in st e bs -> scan_group st e bs = Some (z, d) -> z = [] /\ d = [].
Proof.
  revert z d. induction bs as [|b rest IH]; intros z d Hn H; simpl in H.
  - injection H as <- <-. split; reflexivity.
  - destruct (parse_episode st (snd b)) as [ep|] eqn:P; [|discriminate].
    destruct (Hn b (or_introl eq_refl) ep P) as [T N]. rewrite N, T in H.
    destruct (scan_group st e rest) as [[z' d']|] eqn:R; [|discriminate].
    injection H as <- <-.
    apply (IH z' d'); [|reflexivity].
    intros b' Hb'. apply Hn. right. exact Hb'.
Qed.

Lemma fold_prune_same st es bs bs' :
  (forall e, In e es -> no_match_in st e bs) ->
  fold_opt (prune_token st) es bs = Some bs' -> bs' = bs.
Proof.
  revert bs'. induction es as [|e rest IH]; intros bs' Hn H; simpl in H.
  - injection H as <-. reflexivity.
  - unfold prune_token at 1 in H.
    destruct (scan_group st e bs) as [[z d]|] eqn:S; [|discriminate].
    destruct (scan_group_empty _ _ _ _ _ (Hn e (or_introl eq_refl)) S) as [-> ->].
    cbn [prune] in H. apply IH; [|exact H].
    intros e' He'. apply Hn. right. exact He'.
Qed.

Lemma prune_later_same st skip epsd i j gs gs' :
  (forall k a, nth_error gs k = Some a -> skip (source a) = false -> (i < j + k)%nat ->
   forall e, In e epsd -> no_match_in st e (links a)) ->
  prune_later st skip epsd i j gs = Some gs' -> gs' = gs.
Proof.
  revert j gs'. induction gs as [|a rest IH]; intros j gs' Hn H; simpl in H.
  - injection H as <-. reflexivity.
  - destruct (prune_later st skip epsd i (S j) rest) as [rest'|] eqn:R;
      [| destruct (negb (skip (source a)) && (i <? j)%nat);
         [destruct (fold_opt (prune_token st) epsd (links a)) | ]; discriminate].
    assert (Er : rest' = rest).
    { apply (IH (S j)); [|exact R].
      intros k a' Ha' Hs Hik. apply (Hn (S k) a' Ha' Hs). lia. }
    subst rest'.
    destruct (skip (source a)) eqn:Hs; cbn [negb andb] in H.
    + injection H as <-. reflexivity.
    + destruct (i <? j)%nat eqn:Hij.
      * destruct (fold_opt (prune_token st) epsd (links a)) as [l'|] eqn:F; [|discriminate].
        cbn [option_map] in H. injection H as <-.
        rewrite (fold_prune_same _ _ _ _ (Hn 0%nat a eq_refl Hs ltac:(apply Nat.ltb_lt in Hij; lia)) F).
        destruct a. reflexivity.
      * injection H as <-. reflexivity.
Qed.

Lemma playlist_group_unrelated st rx skip ls s i s' :
  unrelated st skip ls -> snd s = ls -> playlist_group st rx skip s i = Some s' ->
  snd s' = ls /\ incl (fst s) (fst s') /\
  forall g, nth_error ls i = Some g -> skip (source g) = false ->
  forall y, In y (links g) -> exists k, In (fst y, k) (fst s').
Proof.
  intros U Hs H. pose proof (playlist_group_grow _ _ _ _ _ _ H) as Grow.
  unfold playlist_group in H. rewrite Hs in H.
  destruct (nth_error ls i) as [x|] eqn:N; [|discriminate].
  destruct (skip (source x)) eqn:Hx.
  - injection H as <-. split; [exact Hs|]. split; [exact Grow|].
    intros g Eg. injection Eg as <-. rewrite Hx. discriminate.
  - assert (Keep : snd s' = ls).
    { refine (fold_opt_inv (fun s => snd s = ls) (fun y => In y (links x)) _ _ (links x) s s'
                (proj2 (Forall_forall _ _) (fun y Hy => Hy)) Hs H).
      intros [pl gs] y s2 Hy Hgs E. cbn [snd] in Hgs. subst gs.
      unfold playlist_step in E.
      destruct (parse_episode st (snd y)) as [epsd|] eqn:Py; [|discriminate].
      destruct (playlist_key rx (fst y) epsd) as [k|]; [|discriminate].
      destruct (prune_later st skip epsd i 0 ls) as [gs'|] eqn:P; [|discriminate].
      injection E as <-. cbn [snd]. apply (prune_later_same st skip epsd i 0 ls); [|exact P].
      intros kk a Ha Hsa Hik e He b Hb ep Pb.
      exact (U i kk x a Hik N Ha Hx Hsa y b epsd ep Hy Hb Py Pb e He). }
    split; [exact Keep|]. split; [exact Grow|].
    intros g Eg _. injection Eg as <-.
    exact (proj2 (fold_step_grow _ _ _ _ _ _ _ H)).
Qed.

Lemma fold_groups_unrelated st rx skip ls idx s s' :
  unrelated st skip ls -> snd s = ls ->
  fold_opt (playlist_group st rx skip) idx s = Some s' ->
  forall i, In i idx -> forall g, nth_error ls i = Some g -> skip (source g) = false ->
  forall y, In y (links g) -> exists k, In (fst y, k) (fst s').
Proof.
  intros U. revert s. induction idx as [|i0 rest IH]; intros s Hs H i Hi; [destruct Hi|].
  simpl in H. destruct (playlist_group st rx skip s i0) as [s1|] eqn:E; [|discriminate].
  destruct (playlist_group_unrelated _ _ _ _ _ _ _ U Hs E) as (Hs1 & _ & All).
  destruct Hi as [<-|Hi].
  - intros g Ng Hg y Hy. destruct (All g Ng Hg y Hy) as [k Hk].
    exists k. exact (fold_groups_grow _ _ _ _ _ _ H _ Hk).
  - exact (IH s1 Hs1 H i Hi).
Qed.

Lemma playlist_loop_unrelated st rx skip ls pl :
  unrelated st skip ls -> playlist_loop st rx skip ls = Some pl ->
  forall g, In g ls -> skip (source g) = false ->
  forall y, In y (links g) -> exists k, In (fst y, k) pl.
Proof.
  intros U. unfold playlist_loop.
  destruct (fold_opt (playlist_group st rx skip) (seq 0 (List.length ls)) ([], ls))
    as [[pl' gs]|] eqn:E; [|discriminate].
  injection 1 as <-. intros g Hg.
  destruct (In_nth_error _ _ Hg) as [i Ni].
  apply (fold_groups_unrelated st rx skip ls _ ([], ls) _ U eq_refl E i); [|exact Ni].
  apply in_seq. split; [lia|]. apply nth_error_Some. rewrite Ni. discriminate.
Qed.

Lemma insert_by_key_perm x l : Permutation (insert_by_key x l) (x :: l).
Proof.
  induction l as [|h l IH]; simpl; [reflexivity|].
  destruct (pkey_ltb (snd x) (snd h)); [reflexivity|].
  rewrite IH. apply perm_swap.
Qed.

Lemma sort_by_key_perm l : Permutation (sort_by_key l) l.
Proof.
  unfold sort_by_key.
  cut (forall acc, Permutation (fold_left (fun acc x => insert_by_key x acc) l acc)
                               (l ++ acc)).
  { intro H. rewrite H, app_nil_r. reflexivity. }
  induction l as [|x l IH]; intro acc; simpl; [reflexivity|].
  rewrite IH, insert_by_key_perm. symmetry. apply Permutation_middle.
Qed.

Lemma playlist_urls_in prefix pl p : In p pl -> In (prefix ++ fst p) (playlist_urls prefix pl).
Proof.
  intros Hp. unfold playlist_urls. apply (in_map (fun x : pentry => prefix ++ fst x)).
  exact (Permutation_in _ (Permutation_sym (sort_by_key_perm pl)) Hp).
Qed.

Lemma playlist_urls_from prefix pl u :
  In u (playlist_urls prefix pl) -> exists p, In p pl /\ u = prefix ++ fst p.
Proof.
  unfold playlist_urls. rewrite in_map_iff. intros (p & <- & Hp).
  exists p. split; [exact (Permutation_in _ (sort_by_key_perm pl) Hp) | reflexivity].
Qed.

Lemma str_eqb_refl a : str_eqb a a = true.
Proof. induction a as [|x a IH]; simpl; [reflexivity|]. rewrite Z.eqb_refl. exact IH. Qed.

Lemma str_eqb_neq a b : a <> b -> str_eqb a b = false.
Proof.
  intros H. destruct (str_eqb a b) eqn:E; [|reflexivity].
  apply str_eqb_eq in E. contradiction.
Qed.

Definition bilibili : pystr := utf8 "bilibili".

Lemma bilibili_skipped bs :
  Forall (fun b => source b = bilibili) bs ->
  Forall (fun b => str_eqb (source b) (utf8 "bilibili") = true) bs.
Proof.
  intros H. apply Forall_forall. intros b Hb.
  rewrite (proj1 (Forall_forall _ _) H b Hb). apply str_eqb_refl.
Qed.

(** A test of [unrelated] on a given list of groups. *)
Definition pair_unrelatedb (st : site) (g g' : group) : bool :=
  forallb (fun y =>
    match parse_episode st (snd y) with
    | Some epsd =>
        forallb (fun b =>
          match parse_episode st (snd b) with
          | Some ep => forallb (fun e => negb (tok_in e ep) &&
                                         match near_match e ep with Some false => true | _ => false end)
                               epsd
          | None => true
          end) (links g')
    | None => true
    end) (links g).

Fixpoint unrelatedb (st : site) (skip : pystr -> bool) (ls : list group) : bool :=
  match ls with
  | [] => true
  | g :: rest =>
      (skip (source g) || forallb (fun g' => skip (source g') || pair_unrelatedb st g g') rest)
      && unrelatedb st skip rest
  end.

Lemma unrelatedb_sound st skip ls : unrelatedb st skip ls = true -> unrelated st skip ls.
Proof.
  induction ls as [|g rest IH]; intros H i j gi gj Hij Ni Nj Si Sj y b epsd ep Hy Hb Py Pb e He.
  - destruct i; discriminate.
  - simpl in H. apply andb_prop in H as [H1 H2].
    destruct i as [|i]; destruct j as [|j]; [lia| | lia |].
    + cbn in Ni, Nj. injection Ni as <-. rewrite Si in H1. cbn [orb] in H1.
      rewrite forallb_forall in H1.
      pose proof (H1 gj (nth_error_In _ _ Nj)) as H3. rewrite Sj in H3. cbn [orb] in H3.
      unfold pair_unrelatedb in H3. rewrite forallb_forall in H3.
      specialize (H3 y Hy). rewrite Py, forallb_forall in H3.
      specialize (H3 b Hb). rewrite Pb, forallb_forall in H3.
      specialize (H3 e He). apply andb_prop in H3 as [T N].
      split; [destruct (tok_in e ep); [discriminate | reflexivity]|].
      destruct (near_match e ep) as [[|]|]; [discriminate | reflexivity | discriminate].
    + exact (IH H2 i j gi gj ltac:(lia) Ni Nj Si Sj y b epsd ep Hy Hb Py Pb e He).
Qed.


(** The playlist of [GimyDetailIE] ([create_playlist]) and of [IdoltvVodIE]
    never holds an entry [==] to an earlier one. *)
Theorem playlist_no_equal_entries :
  (forall ls rx pl, create_playlist ls rx = Some pl -> no_equal_later pl) /\
  (forall ls pl, vod_playlist ls = Some pl -> no_equal_later pl).
Proof.
  split; intros *; apply playlist_loop_nodup.
Qed.

(** Every link of the first group of [GimyDetailIE], and of the first group
    that is not [bilibili] in [IdoltvVodIE], gives an entry of the playlist,
    whose URL is the URL prefix followed by the link. *)
Theorem playlist_first_group_kept :
  (forall g rest rx pl prefix, create_playlist (g :: rest) rx = Some pl ->
   forall y, In y (links g) -> In (prefix ++ fst y) (playlist_urls prefix pl)) /\
  (forall bs g rest pl, Forall (fun b => source b = bilibili) bs -> source g <> bilibili ->
   vod_playlist (bs ++ g :: rest) = Some pl ->
   forall y, In y (links g) -> In (utf8 "https://idoltv.tv" ++ fst y)
                                    (playlist_urls (utf8 "https://idoltv.tv") pl)).
Proof.
  split.
  - intros g rest rx pl prefix H y Hy.
    destruct (playlist_loop_first_group Gimy rx (fun _ => false) [] g rest pl
                (Forall_nil _) eq_refl H y Hy) as [k Hk].
    exact (playlist_urls_in prefix pl (fst y, k) Hk).
  - intros bs g rest pl Hbs Hg H y Hy.
    destruct (playlist_loop_first_group Idoltv re_key_cc
                (fun s => str_eqb s (utf8 "bilibili")) bs g rest pl
                (bilibili_skipped bs Hbs) (str_eqb_neq _ _ Hg) H y Hy) as [k Hk].
    exact (playlist_urls_in _ pl (fst y, k) Hk).
Qed.

(** Every URL of the playlist is the URL prefix followed by a link of one of
    the groups; in [IdoltvVodIE], of a group that is not [bilibili]. *)
Theorem playlist_urls_from_links :
  (forall ls rx pl prefix u, create_playlist ls rx = Some pl ->
   In u (playlist_urls prefix pl) ->
   exists g lk lb, In g ls /\ In (lk, lb) (links g) /\ u = prefix ++ lk) /\
  (forall ls pl u, vod_playlist ls = Some pl ->
   In u (playlist_urls (utf8 "https://idoltv.tv") pl) ->
   exists g lk lb, In g ls /\ source g <> bilibili /\ In (lk, lb) (links g) /\
                   u = utf8 "https://idoltv.tv" ++ lk).
Proof.
  split.
  - intros ls rx pl prefix u H Hu.
    destruct (playlist_urls_from _ _ _ Hu) as (p & Hp & ->).
    destruct (playlist_loop_origin _ _ _ _ _ H p Hp) as (g & Hg & _ & lb & Hl).
    exists g, (fst p), lb. auto.
  - intros ls pl u H Hu.
    destruct (playlist_urls_from _ _ _ Hu) as (p & Hp & ->).
    destruct (playlist_loop_origin _ _ _ _ _ H p Hp) as (g & Hg & Hs & lb & Hl).
    exists g, (fst p), lb. split; [exact Hg|]. split; [|auto].
    intros E. rewrite E in Hs. rewrite str_eqb_refl in Hs. discriminate.
Qed.

(** A link of the first group (the first that is not [bilibili] in
    [IdoltvVodIE]) whose label's first token is neither a date nor an
    episode number, and whose link does not match the key pattern, makes the
    playlist raise: the playlist is never returned ([re.findall(...)[0]] on
    that link is an [IndexError], unless an earlier step raises first). *)
Theorem playlist_key_index_error :
  (forall g rest rx y t ts, In y (links g) ->
   parse_episode Gimy (snd y) = Some (t :: ts) ->
   tok_kind t <> kind_d -> tok_kind t <> kind_e -> findall_first2 rx (fst y) = None ->
   create_playlist (g :: rest) rx = None) /\
  (forall bs g rest y t ts, Forall (fun b => source b = bilibili) bs -> source g <> bilibili ->
   In y (links g) -> parse_episode Idoltv (snd y) = Some (t :: ts) ->
   tok_kind t <> kind_d -> tok_kind t <> kind_e -> findall_first2 re_key_cc (fst y) = None ->
   vod_playlist (bs ++ g :: rest) = None).
Proof.
  assert (K : forall st rx y t ts, parse_episode st (snd y) = Some (t :: ts) ->
                tok_kind t <> kind_d -> tok_kind t <> kind_e -> findall_first2 rx (fst y) = None ->
                forall epsd, parse_episode st (snd y) = Some epsd -> playlist_key rx (fst y) epsd = None).
  { intros st rx y t ts P Hd He F epsd P'. rewrite P in P'. injection P' as <-.
    unfold playlist_key. apply Z.eqb_neq in Hd, He. rewrite Hd, He. cbn [orb]. rewrite F.
    reflexivity. }
  split.
  - intros g rest rx y t ts Hy P Hd He F.
    exact (playlist_loop_first_group_fails Gimy rx (fun _ => false) [] g rest y
             (Forall_nil _) eq_refl Hy (K _ _ _ _ _ P Hd He F)).
  - intros bs g rest y t ts Hbs Hg Hy P Hd He F.
    exact (playlist_loop_first_group_fails Idoltv re_key_cc _ bs g rest y
             (bilibili_skipped bs Hbs) (str_eqb_neq _ _ Hg) Hy (K _ _ _ _ _ P Hd He F)).
Qed.

(** When no label of a group shares a token with, or is a near match (a
    date one day apart) of, the label of a link of an earlier group, no link
    is removed: every link of every group (not [bilibili] in [IdoltvVodIE])
    gives an entry of the playlist. *)
Theorem playlist_unrelated_groups_kept :
  (forall ls rx pl prefix, unrelated Gimy (fun _ => false) ls ->
   create_playlist ls rx = Some pl ->
   forall g y, In g ls -> In y (links g) -> In (prefix ++ fst y) (playlist_urls prefix pl)) /\
  (forall ls pl, unrelated Idoltv (fun s => str_eqb s bilibili) ls ->
   vod_playlist ls = Some pl ->
   forall g y, In g ls -> source g <> bilibili -> In y (links g) ->
   In (utf8 "https://idoltv.tv" ++ fst y) (playlist_urls (utf8 "https://idoltv.tv") pl)).
Proof.
  split.
  - intros ls rx pl prefix U H g y Hg Hy.
    destruct (playlist_loop_unrelated _ _ _ _ _ U H g Hg eq_refl y Hy) as [k Hk].
    exact (playlist_urls_in _ pl (fst y, k) Hk).
  - intros ls pl U H g y Hg Hs Hy.
    destruct (playlist_loop_unrelated _ _ _ _ _ U H g Hg (str_eqb_neq _ _ Hs) y Hy) as [k Hk].
    exact (playlist_urls_in _ pl (fst y, k) Hk).
Qed.


Lemma playlist_no_equal_entries_witness :
  create_playlist
    [mk_group (utf8 "A") [(utf8 "/v/1-1-1.html", utf8 "第1集"); (utf8 "/v/1-1-2.html", utf8 "第2集")];
     mk_group (utf8 "B") [(utf8 "/v/1-2-1.html", utf8 "第01集"); (utf8 "/v/1-2-2.html", utf8 "第2集");
                          (utf8 "/v/1-2-3.html", utf8 "預告")]] re_key_cc
  = Some [(utf8 "/v/1-1-1.html", KFloat (f64_of_Z 1)); (utf8 "/v/1-1-2.html", KFloat (f64_of_Z 2));
          (utf8 "/v/1-2-3.html", KInt 23)] /\
  no_equal_later [(utf8 "/v/1-1-1.html", KFloat (f64_of_Z 1)); (utf8 "/v/1-1-2.html", KFloat (f64_of_Z 2));
                  (utf8 "/v/1-2-3.html", KInt 23)] /\
  vod_playlist
    [mk_group bilibili [(utf8 "/play/5-9-1.html", utf8 "第1集")];
     mk_group (utf8 "A") [(utf8 "/play/5-1-1.html", utf8 "第1集"); (utf8 "/play/5-1-2.html", utf8 "第2集")];
     mk_group (utf8 "B") [(utf8 "/play/5-2-1.html", utf8 "第1集"); (utf8 "/play/5-2-3.html", utf8 "第3集")]]
  = Some [(utf8 "/play/5-1-1.html", KFloat (f64_of_Z 1)); (utf8 "/play/5-1-2.html", KFloat (f64_of_Z 2));
          (utf8 "/play/5-2-3.html", KFloat (f64_of_Z 3))] /\
  no_equal_later [(utf8 "/play/5-1-1.html", KFloat (f64_of_Z 1));
                  (utf8 "/play/5-1-2.html", KFloat (f64_of_Z 2));
                  (utf8 "/play/5-2-3.html", KFloat (f64_of_Z 3))].
Proof.
  match goal with |- ?A = _ /\ _ /\ ?B = _ /\ _ =>
    assert (H1 : A = _) by (vm_compute; reflexivity);
    assert (H2 : B = _) by (vm_compute; reflexivity) end.
  split; [exact H1|]. split; [exact (proj1 playlist_no_equal_entries _ _ _ H1)|].
  split; [exact H2 | exact (proj2 playlist_no_equal_entries _ _ H2)].
Defined.

Lemma playlist_first_group_kept_witness :
  create_playlist
    [mk_group (utf8 "A") [(utf8 "/v/1-1-1.html", utf8 "第1集"); (utf8 "/v/1-1-2.html", utf8 "第2集")];
     mk_group (utf8 "B") [(utf8 "/v/1-2-1.html", utf8 "第01集"); (utf8 "/v/1-2-2.html", utf8 "第2集")]]
    re_key_cc
  = Some [(utf8 "/v/1-1-1.html", KFloat (f64_of_Z 1)); (utf8 "/v/1-1-2.html", KFloat (f64_of_Z 2))] /\
  In (utf8 "https://gimy.cc" ++ utf8 "/v/1-1-2.html")
     (playlist_urls (utf8 "https://gimy.cc")
        [(utf8 "/v/1-1-1.html", KFloat (f64_of_Z 1)); (utf8 "/v/1-1-2.html", KFloat (f64_of_Z 2))]) /\
  vod_playlist
    [mk_group bilibili [(utf8 "/play/5-9-1.html", utf8 "第1集")];
     mk_group (utf8 "A") [(utf8 "/play/5-1-1.html", utf8 "第1集")];
     mk_group (utf8 "B") [(utf8 "/play/5-2-1.html", utf8 "第1集")]]
  = Some [(utf8 "/play/5-1-1.html", KFloat (f64_of_Z 1))] /\
  In (utf8 "https://idoltv.tv" ++ utf8 "/play/5-1-1.html")
     (playlist_urls (utf8 "https://idoltv.tv") [(utf8 "/play/5-1-1.html", KFloat (f64_of_Z 1))]).
Proof.
  match goal with |- ?A = _ /\ _ /\ ?B = _ /\ _ =>
    assert (H1 : A = _) by (vm_compute; reflexivity);
    assert (H2 : B = _) by (vm_compute; reflexivity) end.
  split; [exact H1|].
  split; [exact (proj1 playlist_first_group_kept _ _ _ _ _ H1
                   (utf8 "/v/1-1-2.html", utf8 "第2集") (or_intror (or_introl eq_refl)))|].
  split; [exact H2|].
  refine (proj2 playlist_first_group_kept
            [mk_group bilibili [(utf8 "/play/5-9-1.html", utf8 "第1集")]] _
            [mk_group (utf8 "B") [(utf8 "/play/5-2-1.html", utf8 "第1集")]] _
            _ _ H2 (utf8 "/play/5-1-1.html", utf8 "第1集") (or_introl eq_refl)).
  - repeat constructor.
  - vm_compute. discriminate.
Defined.

Lemma playlist_urls_from_links_witness :
  create_playlist [mk_group (utf8 "A") [(utf8 "/v/1-1-1.html", utf8 "第1集")]] re_key_cc
    = Some [(utf8 "/v/1-1-1.html", KFloat (f64_of_Z 1))] /\
  In (utf8 "https://gimy.cc/v/1-1-1.html")
     (playlist_urls (utf8 "https://gimy.cc") [(utf8 "/v/1-1-1.html", KFloat (f64_of_Z 1))]) /\
  (exists g lk lb, In g [mk_group (utf8 "A") [(utf8 "/v/1-1-1.html", utf8 "第1集")]] /\
     In (lk, lb) (links g) /\ utf8 "https://gimy.cc/v/1-1-1.html" = utf8 "https://gimy.cc" ++ lk) /\
  vod_playlist [mk_group (utf8 "A") [(utf8 "/play/5-1-1.html", utf8 "第1集")]]
    = Some [(utf8 "/play/5-1-1.html", KFloat (f64_of_Z 1))] /\
  In (utf8 "https://idoltv.tv/play/5-1-1.html")
     (playlist_urls (utf8 "https://idoltv.tv") [(utf8 "/play/5-1-1.html", KFloat (f64_of_Z 1))]) /\
  (exists g lk lb, In g [mk_group (utf8 "A") [(utf8 "/play/5-1-1.html", utf8 "第1集")]] /\
     source g <> bilibili /\ In (lk, lb) (links g) /\
     utf8 "https://idoltv.tv/play/5-1-1.html" = utf8 "https://idoltv.tv" ++ lk).
Proof.
  match goal with |- ?A = _ /\ ?U /\ _ /\ ?B = _ /\ ?V /\ _ =>
    assert (H1 : A = _) by (vm_compute; reflexivity);
    assert (U1 : U) by (vm_compute; left; reflexivity);
    assert (H2 : B = _) by (vm_compute; reflexivity);
    assert (V1 : V) by (vm_compute; left; reflexivity) end.
  split; [exact H1|]. split; [exact U1|].
  split; [exact (proj1 playlist_urls_from_links _ _ _ _ _ H1 U1)|].
  split; [exact H2|]. split; [exact V1|].
  exact (proj2 playlist_urls_from_links _ _ _ H2 V1).
Defined.

Lemma playlist_key_index_error_witness :
  parse_episode Gimy (utf8 "預告") = Some [(TStr (utf8 "預告"), utf8 "預告", kind_n)] /\
  parse_episode Idoltv (utf8 "預告") = Some [(TStr (utf8 "預告"), utf8 "預告", kind_n)] /\
  findall_first2 re_key_cc (utf8 "/v/1/preview") = None /\
  create_playlist [mk_group (utf8 "A") [(utf8 "/v/1/preview", utf8 "預告")]] re_key_cc = None /\
  vod_playlist [mk_group bilibili []; mk_group (utf8 "A") [(utf8 "/v/1/preview", utf8 "預告")]] = None.
Proof.
  assert (P1 : parse_episode Gimy (utf8 "預告") = Some [(TStr (utf8 "預告"), utf8 "預告", kind_n)])
    by (vm_compute; reflexivity).
  assert (P2 : parse_episode Idoltv (utf8 "預告") = Some [(TStr (utf8 "預告"), utf8 "預告", kind_n)])
    by (vm_compute; reflexivity).
  assert (F : findall_first2 re_key_cc (utf8 "/v/1/preview") = None) by (vm_compute; reflexivity).
  assert (Nd : tok_kind (TStr (utf8 "預告"), utf8 "預告", kind_n) <> kind_d)
    by (vm_compute; discriminate).
  assert (Ne : tok_kind (TStr (utf8 "預告"), utf8 "預告", kind_n) <> kind_e)
    by (vm_compute; discriminate).
  split; [exact P1|]. split; [exact P2|]. split; [exact F|]. split.
  - exact (proj1 playlist_key_index_error
             (mk_group (utf8 "A") [(utf8 "/v/1/preview", utf8 "預告")]) [] re_key_cc (utf8 "/v/1/preview", utf8 "預告") _ []
             (or_introl eq_refl) P1 Nd Ne F).
  - refine (proj2 playlist_key_index_error [mk_group bilibili []]
              (mk_group (utf8 "A") [(utf8 "/v/1/preview", utf8 "預告")]) []
              (utf8 "/v/1/preview", utf8 "預告") _ [] _ _
              (or_introl eq_refl) P2 Nd Ne F).
    + repeat constructor.
    + vm_compute. discriminate.
Defined.

Lemma playlist_unrelated_groups_kept_witness :
  unrelated Gimy (fun _ => false)
    [mk_group (utf8 "A") [(utf8 "/v/1-1-1.html", utf8 "第1集")];
     mk_group (utf8 "B") [(utf8 "/v/1-2-2.html", utf8 "第2集")]] /\
  create_playlist
    [mk_group (utf8 "A") [(utf8 "/v/1-1-1.html", utf8 "第1集")];
     mk_group (utf8 "B") [(utf8 "/v/1-2-2.html", utf8 "第2集")]] re_key_cc
  = Some [(utf8 "/v/1-1-1.html", KFloat (f64_of_Z 1)); (utf8 "/v/1-2-2.html", KFloat (f64_of_Z 2))] /\
  In (utf8 "https://gimy.cc" ++ utf8 "/v/1-2-2.html")
     (playlist_urls (utf8 "https://gimy.cc")
        [(utf8 "/v/1-1-1.html", KFloat (f64_of_Z 1)); (utf8 "/v/1-2-2.html", KFloat (f64_of_Z 2))]) /\
  unrelated Idoltv (fun s => str_eqb s bilibili)
    [mk_group bilibili [(utf8 "/play/5-9-1.html", utf8 "第1集")];
     mk_group (utf8 "A") [(utf8 "/play/5-1-1.html", utf8 "第1集")];
     mk_group (utf8 "B") [(utf8 "/play/5-2-2.html", utf8 "第2集")]] /\
  vod_playlist
    [mk_group bilibili [(utf8 "/play/5-9-1.html", utf8 "第1集")];
     mk_group (utf8 "A") [(utf8 "/play/5-1-1.html", utf8 "第1集")];
     mk_group (utf8 "B") [(utf8 "/play/5-2-2.html", utf8 "第2集")]]
  = Some [(utf8 "/play/5-1-1.html", KFloat (f64_of_Z 1)); (utf8 "/play/5-2-2.html", KFloat (f64_of_Z 2))] /\
  In (utf8 "https://idoltv.tv" ++ utf8 "/play/5-2-2.html")
     (playlist_urls (utf8 "https://idoltv.tv")
        [(utf8 "/play/5-1-1.html", KFloat (f64_of_Z 1)); (utf8 "/play/5-2-2.html", KFloat (f64_of_Z 2))]).
Proof.
  match goal with |- ?U1 /\ ?A = _ /\ _ /\ ?U2 /\ ?B = _ /\ _ =>
    assert (V1 : U1) by (apply unrelatedb_sound; vm_compute; reflexivity);
    assert (H1 : A = _) by (vm_compute; reflexivity);
    assert (V2 : U2) by (apply unrelatedb_sound; vm_compute; reflexivity);
    assert (H2 : B = _) by (vm_compute; reflexivity) end.
  split; [exact V1|]. split; [exact H1|].
  split; [exact (proj1 playlist_unrelated_groups_kept _ _ _ _ V1 H1 _ (utf8 "/v/1-2-2.html", utf8 "第2集")
                   (or_intror (or_introl eq_refl)) (or_introl eq_refl))|].
  split; [exact V2|]. split; [exact H2|].
  refine (proj2 playlist_unrelated_groups_kept _ _ V2 H2
            (mk_group (utf8 "B") [(utf8 "/play/5-2-2.html", utf8 "第2集")])
            (utf8 "/play/5-2-2.html", utf8 "第2集")
            (or_intror (or_intror (or_introl eq_refl))) _ (or_introl eq_refl)).
  vm_compute. discriminate.
Defined.

(** * Search results *)

(** ** The search results of [IdoltvSearchIE] *)

Lemma digit_value_in_nonneg starts x v : digit_value_in starts x = Some v -> 0 <= v.
Proof.
  induction starts as [|b rest IH]; simpl; [discriminate|].
  destruct ((b <=? x) && (x <? b + 10)) eqn:E; [|exact IH].
  intro H. injection H as <-. apply andb_true_iff in E as [E _]. apply Z.leb_le in E. lia.
Qed.

Lemma digits_value_ge acc w v : digits_value acc w = Some v -> 0 <= acc -> acc <= v.
Proof.
  revert acc. induction w as [|x w IH]; simpl; intros acc H Ha.
  - injection H as <-. lia.
  - destruct (digit_value x) as [d|] eqn:D; [|discriminate].
    apply digit_value_in_nonneg in D. apply IH in H; lia.
Qed.

Lemma prefix_count_pos p : 1 <= prefix_count p.
Proof.
  unfold prefix_count, py_int_digits.
  destruct p as [|x w]; [lia|].
  destruct (4300 <? List.length (x :: w))%nat; [lia|].
  destruct (digits_value 0 (x :: w)) as [v|] eqn:E; [|lia].
  apply digits_value_ge in E; [|lia].
  destruct (v =? 0) eqn:V; [lia|]. apply Z.eqb_neq in V. lia.
Qed.

Lemma py_slice_to_length {X : Type} (l : list X) n :
  0 <= n -> Z.of_nat (List.length (py_slice_to l n)) <= n.
Proof.
  intro Hn. unfold py_slice_to.
  replace (n <? 0) with false by (symmetry; apply Z.ltb_ge; lia).
  rewrite length_firstn. lia.
Qed.

(** Strings without [:]: the group [prefix] ends at the first [:]. *)
Definition colon_free (w : pystr) : Prop := Forall (fun x => x <> 58) w.

Lemma colon_split_unique w1 w2 t1 t2 :
  colon_free w1 -> colon_free w2 -> w1 ++ 58 :: t1 = w2 ++ 58 :: t2 -> w1 = w2.
Proof.
  intro H1. revert w2. induction H1 as [|x w1 Hx H1 IH]; intros w2 H2 E;
    destruct H2 as [|y w2 Hy H2]; simpl in E.
  - reflexivity.
  - injection E as E. congruence.
  - injection E as E. congruence.
  - injection E as -> E. f_equal. apply IH; assumption.
Qed.

Lemma rset_digits_colon_free n s c s' c' :
  mrel n (RStar (rset "0123456789")) s c s' c' ->
  c' = c /\ exists w, s = w ++ s' /\ colon_free w.
Proof.
  intro H. apply mrel_star_class in H as [-> (w & -> & Hw)].
  split; [reflexivity|]. exists w. split; [reflexivity|].
  eapply Forall_impl; [|exact Hw]. cbn beta. intros x Hx ->. discriminate Hx.
Qed.

(** Any match of [valid_url_search] on ["idoltvsearch" + p + ":" + q], [p]
    without [:], has [prefix] = [p] and no [http]. *)
Lemma search_url_groups n p q s c :
  colon_free p ->
  mrel n valid_url_search (utf8 "idoltvsearch" ++ p ++ 58 :: q) [] s c ->
  group_text c 2 = p /\ group_text c 3 = [].
Proof.
  intros Hp H. unfold valid_url_search in H. cbn [rseq fold_right ralts] in H.
  apply mrel_seq_inv in H as (s1 & c1 & H1 & H).
  apply mrel_seq_inv in H as (s2 & c2 & H2 & H).
  apply mrel_eps_inv in H as [-> ->].
  apply mrel_group_inv in H2 as (c3 & H2 & ->). gfree_caps H2.
  apply mrel_group_inv in H1 as (c4 & H1 & ->).
  apply mrel_alt_inv in H1 as [H1|H1].
  - apply mrel_seq_inv in H1 as (t1 & d1 & L & H1).
    apply mrel_lit in L as [E ->]. apply app_inv_head in E. subst t1.
    apply mrel_seq_inv in H1 as (t2 & d2 & G & H1).
    apply mrel_seq_inv in H1 as (t3 & d3 & C & H1).
    apply mrel_eps_inv in H1 as [E1 E2]; subst t3 d3.
    apply mrel_char in C as [-> ->]. change (ch ":") with 58 in *.
    apply mrel_group_inv in G as (d4 & G & ->).
    assert (W : exists w, p ++ 58 :: q = w ++ 58 :: s1 /\ colon_free w /\ d4 = []).
    { apply mrel_alt_inv in G as [G|G].
      - apply mrel_eps_inv in G as [E ->]. exists []. repeat split; [|constructor].
        symmetry. exact E.
      - apply mrel_alt_inv in G as [G|G].
        + apply mrel_seq_inv in G as (u1 & e1 & G1 & G2).
          apply mrel_class_inv in G1 as (x & Ex & Hx & ->).
          apply rset_digits_colon_free in G2 as [-> (w & Ew & Hw)].
          exists (x :: w). split; [rewrite Ex, Ew; reflexivity|]. split; [|reflexivity].
          constructor; [|exact Hw]. intros ->. discriminate Hx.
        + apply mrel_lit in G as [E ->]. exists (utf8 "all"). split; [exact E|].
          split; [|reflexivity]. repeat constructor; discriminate. }
    destruct W as (w & E & Hw & ->).
    rewrite E. cbn [group_text find fst snd Nat.eqb].
    assert (Ew := colon_split_unique _ _ _ _ Hp Hw E). subst w.
    apply app_inv_head in E. injection E as E. subst s1.
    change (58 :: q) with ([58] ++ q). rewrite slice_app. auto.
  - apply mrel_seq_inv in H1 as (t1 & d1 & L & _).
    apply mrel_group_inv in L as (d2 & L & _).
    apply mrel_lit in L as [E _]. discriminate E.
Qed.

(** The entries of a search are the first page's links, or the links of the
    pages fetched, cut at [result_end]; with no [playlist_items] and a
    [playlistend] that is not negative, at most [result_end] of them. *)
Lemma search_entries_bound url mt pe page c s first es :
  re_match valid_url_search url = Some (s, c) -> page 1 = Some first ->
  0 <= mt -> (forall p, pe = Some p -> 0 <= p) ->
  search_entries url mt pe None page = Some es ->
  Z.of_nat (List.length es) <=
    Z.max 0 (Z.min (if str_eqb (group_text c 2) (utf8 "all")
                        || negb (str_eqb (group_text c 3) [])
                     then mt else prefix_count (group_text c 2))
                   (match pe with Some p => if p =? 0 then mt else p | None => mt end)).
Proof.
  intros M P1 Hmt Hpe H. unfold search_entries in H. rewrite M, P1 in H.
  set (a := if str_eqb (group_text c 2) (utf8 "all") || negb (str_eqb (group_text c 3) [])
            then mt else prefix_count (group_text c 2)) in *.
  set (b := match pe with Some p => if p =? 0 then mt else p | None => mt end) in *.
  assert (Hb : 0 <= b).
  { subst b. destruct pe as [p|]; [|lia]. destruct (p =? 0); [lia|]. apply Hpe. reflexivity. }
  destruct (0 <? mt) eqn:T.
  2:{ injection H as <-. simpl. lia. }
  apply Z.ltb_lt in T.
  assert (Ha : 1 <= a).
  { subst a. destruct (_ || _); [lia | apply prefix_count_pos]. }
  destruct (Z.of_nat (List.length first) <? Z.min a b) eqn:L.
  - destruct (pnum_truediv (NInt (Z.min a b)) _) as [f|]; [|discriminate].
    destruct (py_ceil f) as [n|]; [|discriminate].
    destruct (fold_opt _ _ first) as [pl|]; [|discriminate].
    injection H as <-. rewrite length_map.
    eapply Z.le_trans; [apply py_slice_to_length; lia | lia].
  - injection H as <-. rewrite length_map.
    eapply Z.le_trans; [apply py_slice_to_length; lia | lia].
Qed.

Lemma digits_value_colon_free acc w v : digits_value acc w = Some v -> colon_free w.
Proof.
  revert acc. induction w as [|x w IH]; simpl; intros acc H; [constructor|].
  destruct (digit_value x) as [d|] eqn:D; [|discriminate].
  constructor; [|exact (IH _ H)].
  intros ->. vm_compute in D. discriminate D.
Qed.

Lemma runs_any_end n q c :
  q <> [] -> runs n (rplus (RClass (fun _ => true))) q c [] c.
Proof.
  intros Hq A k v Hk. destruct q as [|x w]; [congruence|].
  change (mt n (RClass (fun _ => true)) (x :: w) c
            (fun s1 c1 => star_loop (mt n (RClass (fun _ => true))) k
                            (S (List.length s1)) s1 c1) = Some v).
  apply (runs_class n (fun _ => true) x w c eq_refl).
  rewrite <- (app_nil_r w).
  apply (star_loop_class_max n); [| exact I | exact Hk | rewrite length_app; simpl; lia].
  clear. induction w; constructor; auto.
Qed.

(** The URL ["idoltvsearch:" + q] is accepted, with an empty [prefix]. *)
Lemma search_url_default q :
  q <> [] ->
  exists s c, re_match valid_url_search (utf8 "idoltvsearch:" ++ q) = Some (s, c) /\
              group_text c 2 = [] /\ group_text c 3 = [].
Proof.
  intro Hq.
  replace (utf8 "idoltvsearch:" ++ q) with (utf8 "idoltvsearch" ++ [] ++ 58 :: q)
    by (vm_compute; reflexivity).
  match goal with |- context [re_match _ ?S] =>
    eassert (R : runs (List.length S) valid_url_search S [] _ _) end.
  { unfold valid_url_search.
    eapply runs_rseq_cons.
    { apply runs_group, runs_alt_l.
      eapply runs_rseq_cons; [apply runs_lit|].
      eapply runs_rseq_cons; [apply runs_group, runs_alt_l, runs_eps|].
      eapply runs_rseq_cons; [apply (runs_char _ ":" q); reflexivity|].
      apply runs_rseq_nil. }
    eapply runs_rseq_cons; [apply runs_group, runs_any_end; exact Hq|].
    apply runs_rseq_nil. }
  apply re_match_runs in R.
  eexists [], _. split; [exact R|].
  apply re_match_sound in R.
  exact (search_url_groups _ [] q _ _ (Forall_nil _) R).
Qed.

(** Items that are slices with a positive finite [float] stop make
    [items_end] a [float]. *)
Definition float_stop (x : pitem) : Prop :=
  exists m e, x = PSlice (Some (NFloat (S754_finite false m e))).

Lemma items_step_float r x0 x :
  float_stop x -> (x0 = NInt 0 \/ exists g, x0 = NFloat g) ->
  exists g, items_step r x0 x = NFloat g.
Proof.
  intros (m & e & ->) H0. cbn [items_step pnum_truthy]. unfold py_max.
  destruct H0 as [-> | [g ->]].
  - exists (S754_finite false m e). cbn [pnum_gtb float_cmp_int].
    destruct (0 <=? e) eqn:E.
    + replace (Z.pos m * 2 ^ e ?= 0) with Gt; [reflexivity|].
      symmetry. apply Z.compare_gt_iff. apply Z.leb_le in E.
      apply Z.mul_pos_pos; [lia | apply Z.pow_pos_nonneg; lia].
    + reflexivity.
  - destruct (pnum_gtb (NFloat g) _); eauto.
Qed.

Lemma items_end_float r l :
  l <> [] -> Forall float_stop l -> exists g, items_end r l = NFloat g.
Proof.
  unfold items_end. intros Hl Hf.
  assert (G : forall l x0, Forall float_stop l -> (x0 = NInt 0 \/ exists g, x0 = NFloat g) ->
              fold_left (items_step r) l x0 = x0 \/ exists g, fold_left (items_step r) l x0 = NFloat g).
  { induction l0 as [|x l0 IH]; intros x0 F H0; [left; reflexivity|].
    inversion F as [|? ? Fx F']; subst. simpl.
    destruct (items_step_float r x0 x Fx H0) as [g Hg]. rewrite Hg.
    destruct (IH (NFloat g) F' (or_intror (ex_intro _ g eq_refl))) as [-> | H]; eauto. }
  destruct l as [|x l]; [congruence|].
  inversion Hf as [|? ? Fx F']; subst. simpl.
  destruct (items_step_float r (NInt 0) x Fx (or_introl eq_refl)) as [g Hg]. rewrite Hg.
  destruct (G l (NFloat g) F' (or_intror (ex_intro _ g eq_refl))) as [-> | H]; eauto.
Qed.

(** When the site reports results but no link is found on the first result
    page, the search raises [ZeroDivisionError] ([result_end / 0]),
    whatever [playlist_items] is, unless [playlistend] is negative. *)
Theorem search_empty_first_page_raises url match_total playlistend playlist_items page :
  page 1 = Some [] -> 0 < match_total ->
  (forall p, playlistend = Some p -> 0 <= p) ->
  search_entries url match_total playlistend playlist_items page = None.
Proof.
  intros P1 T Hpe. unfold search_entries.
  destruct (re_match valid_url_search url) as [[s c]|]; [|reflexivity].
  rewrite P1. apply Z.ltb_lt in T as T'. rewrite T'.
  set (a := if _ || _ then match_total else _).
  set (b := match playlistend with Some p => _ | None => match_total end).
  assert (Ha : 1 <= a).
  { subst a. destruct (_ || _); [lia | apply prefix_count_pos]. }
  assert (Hb : 1 <= b).
  { subst b. destruct playlistend as [p|]; [|lia].
    destruct (p =? 0) eqn:E; [lia|]. apply Z.eqb_neq in E. specialize (Hpe p eq_refl). lia. }
  clearbody a b. cbn [List.length Z.of_nat].
  replace (0 <? Z.min a b) with true by (symmetry; apply Z.ltb_lt; lia).
  destruct (match playlist_items with Some l => _ | None => _ end); reflexivity.
Qed.

(** Without [playlist_items], a search gives at most [playlistend] entries
    when it is positive, and at most [match_total] when it is unset or 0. *)
Theorem search_entries_at_most url match_total playlistend page es :
  0 <= match_total -> (forall p, playlistend = Some p -> 0 <= p) ->
  search_entries url match_total playlistend None page = Some es ->
  (forall p, playlistend = Some p -> 0 < p -> Z.of_nat (List.length es) <= p) /\
  (playlistend = None \/ playlistend = Some 0 -> Z.of_nat (List.length es) <= match_total).
Proof.
  intros Hmt Hpe H.
  destruct (re_match valid_url_search url) as [[s c]|] eqn:M;
    [|unfold search_entries in H; rewrite M in H; discriminate].
  destruct (page 1) as [first|] eqn:P1;
    [|unfold search_entries in H; rewrite M, P1 in H; discriminate].
  assert (B := search_entries_bound _ _ _ _ _ _ _ _ M P1 Hmt Hpe H).
  split.
  - intros p -> Hp. replace (p =? 0) with false in B by (symmetry; apply Z.eqb_neq; lia). lia.
  - intros [-> | ->]; [|rewrite Z.eqb_refl in B]; lia.
Qed.

(** [idoltvsearchN:query] (N without [:], at most 4300 digits, of value
    [v > 0]) gives at most [v] entries, without [playlist_items] and with a
    [playlistend] that is not negative. *)
Theorem search_prefix_at_most digits v q match_total playlistend page es :
  (List.length digits <= 4300)%nat -> digits_value 0 digits = Some v -> 0 < v ->
  0 <= match_total -> (forall p, playlistend = Some p -> 0 <= p) ->
  search_entries (utf8 "idoltvsearch" ++ digits ++ utf8 ":" ++ q)
                 match_total playlistend None page = Some es ->
  Z.of_nat (List.length es) <= v.
Proof.
  intros Hlen D Hv Hmt Hpe H.
  set (url := utf8 "idoltvsearch" ++ digits ++ utf8 ":" ++ q) in H.
  destruct (re_match valid_url_search url) as [[s c]|] eqn:M;
    [|unfold search_entries in H; rewrite M in H; discriminate].
  destruct (page 1) as [first|] eqn:P1;
    [|unfold search_entries in H; rewrite M, P1 in H; discriminate].
  assert (B := search_entries_bound _ _ _ _ _ _ _ _ M P1 Hmt Hpe H).
  apply re_match_sound in M. subst url.
  destruct (search_url_groups _ digits q _ _ (digits_value_colon_free _ _ _ D) M) as [G2 G3].
  rewrite G2, G3 in B.
  assert (NA : str_eqb digits (utf8 "all") = false).
  { apply str_eqb_neq. intros ->. vm_compute in D. discriminate D. }
  assert (PC : prefix_count digits = v).
  { unfold prefix_count, py_int_digits.
    destruct digits as [|x w]; [vm_compute in D; injection D as <-; lia|].
    replace (4300 <? List.length (x :: w))%nat with false by (symmetry; apply Nat.ltb_ge; lia).
    rewrite D. replace (v =? 0) with false by (symmetry; apply Z.eqb_neq; lia). reflexivity. }
  rewrite NA, PC in B. cbn [orb negb str_eqb] in B. lia.
Qed.

(** [idoltvsearch:query] (empty prefix: [int_or_none('') or 1]) gives
    exactly the first link of the first result page, when that page has
    links and a positive result count [match_total]. *)
Theorem search_default_first_link q match_total playlistend playlist_items page x xs :
  q <> [] -> page 1 = Some (x :: xs) -> 0 < match_total ->
  (forall p, playlistend = Some p -> 0 <= p) ->
  search_entries (utf8 "idoltvsearch:" ++ q) match_total playlistend playlist_items page
  = Some [utf8 "https://idoltv.tv" ++ x].
Proof.
  intros Hq P1 T Hpe.
  destruct (search_url_default q Hq) as (s & c & M & G2 & G3).
  unfold search_entries. rewrite M, P1, G2, G3.
  apply Z.ltb_lt in T as T'. rewrite T'.
  replace (str_eqb [] (utf8 "all") || negb (str_eqb [] [])) with false by reflexivity.
  replace (prefix_count []) with 1 by reflexivity.
  set (b := match playlistend with Some p => _ | None => match_total end).
  assert (Hb : 1 <= b).
  { subst b. destruct playlistend as [p|]; [|lia].
    destruct (p =? 0) eqn:E; [lia|]. apply Z.eqb_neq in E. specialize (Hpe p eq_refl). lia. }
  clearbody b.
  replace (Z.min 1 b) with 1 by lia.
  replace (Z.of_nat (List.length (x :: xs)) <? 1) with false
    by (symmetry; apply Z.ltb_ge; cbn [List.length]; lia).
  reflexivity.
Qed.

(** With a positive result count [match_total], a negative [playlistend]
    makes [result_end] negative: no further page is fetched and the entries
    are the first page's links without the last [-playlistend]
    ([playlist[:result_end]]). *)
Theorem search_negative_playlistend url match_total p playlist_items page first :
  re_match valid_url_search url <> None -> page 1 = Some first ->
  0 < match_total -> p < 0 ->
  search_entries url match_total (Some p) playlist_items page =
  Some (map (fun x => utf8 "https://idoltv.tv" ++ x)
            (firstn (Z.to_nat (Z.of_nat (List.length first) + p)) first)).
Proof.
  intros M P1 T Hp. unfold search_entries.
  destruct (re_match valid_url_search url) as [[s c]|]; [|congruence].
  rewrite P1. apply Z.ltb_lt in T as T'. rewrite T'.
  set (a := if _ || _ then match_total else _).
  assert (Ha : 1 <= a).
  { subst a. destruct (_ || _); [lia | apply prefix_count_pos]. }
  clearbody a.
  replace (p =? 0) with false by (symmetry; apply Z.eqb_neq; lia).
  replace (Z.min a p) with p by lia.
  replace (Z.of_nat (List.length first) <? p) with false by (symmetry; apply Z.ltb_ge; lia).
  unfold py_slice_to. replace (p <? 0) with true by (symmetry; apply Z.ltb_lt; lia).
  reflexivity.
Qed.

(** With [idoltvsearchall:query], more results than the first page holds
    a non-empty first page and [playlist_items] made of slices with positive
    [float] stops (a range [a-b]), [result_end] becomes a [float]: the
    extractor raises, at [playlist[:result_end]] ([TypeError]) unless a page
    download raises first. *)
Theorem search_float_stop_raises q match_total page first l :
  page 1 = Some first -> first <> [] -> Z.of_nat (List.length first) < match_total ->
  l <> [] -> Forall float_stop l ->
  search_entries (utf8 "idoltvsearchall:" ++ q) match_total None (Some l) page = None.
Proof.
  intros P1 _ T Hl Hf. unfold search_entries.
  destruct (re_match valid_url_search (utf8 "idoltvsearchall:" ++ q)) as [[s c]|] eqn:M;
    [|reflexivity].
  apply re_match_sound in M.
  replace (utf8 "idoltvsearchall:" ++ q) with (utf8 "idoltvsearch" ++ utf8 "all" ++ 58 :: q)
    in M by (vm_compute; reflexivity).
  destruct (search_url_groups _ (utf8 "all") q _ _ ltac:(repeat constructor; discriminate) M) as [G2 _].
  rewrite P1, G2. cbn [str_eqb].
  replace (str_eqb (utf8 "all") (utf8 "all")) with true by reflexivity. cbn [orb].
  replace (0 <? match_total) with true by (symmetry; apply Z.ltb_lt; lia).
  rewrite Z.min_id.
  replace (Z.of_nat (List.length first) <? match_total) with true by (symmetry; apply Z.ltb_lt; lia).
  destruct (items_end_float match_total l Hl Hf) as [g ->].
  destruct (pnum_truediv (NFloat g) _) as [f|]; [|reflexivity].
  destruct (py_ceil f) as [n|]; [|reflexivity].
  destruct (fold_opt _ _ first); reflexivity.
Qed.

Lemma search_empty_first_page_raises_witness :
  search_entries (utf8 "idoltvsearchall:2022") 2 None None (fun _ => Some []) = None.
Proof.
  apply search_empty_first_page_raises; [reflexivity | lia | intros p E; discriminate E].
Defined.

Lemma search_entries_at_most_witness :
  exists es,
    search_entries (utf8 "idoltvsearch5:2022") 10 (Some 3) None
      (fun i => if i =? 1 then Some [utf8 "/vod/1"; utf8 "/vod/2"]
                else if i =? 2 then Some [utf8 "/vod/3"; utf8 "/vod/4"]
                else Some [utf8 "/vod/5"]) = Some es /\
    Z.of_nat (List.length es) <= 3.
Proof.
  exists (map (fun x => utf8 "https://idoltv.tv" ++ x) [utf8 "/vod/1"; utf8 "/vod/2"; utf8 "/vod/3"]).
  match goal with |- search_entries ?U ?M ?P ?I ?G = ?R /\ _ =>
    assert (H : search_entries U M P I G = R) by (vm_compute; reflexivity) end.
  split; [exact H|].
  apply (proj1 (search_entries_at_most (utf8 "idoltvsearch5:2022") 10 (Some 3) _ _ ltac:(lia)
                  ltac:(intros p E; injection E as <-; lia) H) 3 eq_refl); lia.
Defined.

Lemma search_prefix_at_most_witness :
  exists es,
    search_entries (utf8 "idoltvsearch" ++ utf8 "5" ++ utf8 ":" ++ utf8 "2022") 10 None None
      (fun i => if i =? 1 then Some [utf8 "/vod/1"; utf8 "/vod/2"]
                else if i =? 2 then Some [utf8 "/vod/3"; utf8 "/vod/4"]
                else Some [utf8 "/vod/5"; utf8 "/vod/6"]) = Some es /\
    Z.of_nat (List.length es) <= 5.
Proof.
  exists (map (fun x => utf8 "https://idoltv.tv" ++ x)
              [utf8 "/vod/1"; utf8 "/vod/2"; utf8 "/vod/3"; utf8 "/vod/4"; utf8 "/vod/5"]).
  match goal with |- search_entries ?U ?M ?P ?I ?G = ?R /\ _ =>
    assert (H : search_entries U M P I G = R) by (vm_compute; reflexivity) end.
  split; [exact H|].
  apply (search_prefix_at_most (utf8 "5") 5 (utf8 "2022") 10 None _ _
           ltac:(simpl; lia) ltac:(vm_compute; reflexivity) ltac:(lia) ltac:(lia)
           ltac:(intros p E; discriminate E) H).
Defined.

Lemma search_default_first_link_witness :
  search_entries (utf8 "idoltvsearch:" ++ utf8 "2022") 2 None None
    (fun i => if i =? 1 then Some [utf8 "/vod/1"; utf8 "/vod/2"] else None)
  = Some [utf8 "https://idoltv.tv" ++ utf8 "/vod/1"].
Proof.
  eapply search_default_first_link;
    [vm_compute; discriminate | reflexivity | lia | intros p E; discriminate E].
Defined.

Lemma search_negative_playlistend_witness :
  search_entries (utf8 "idoltvsearchall:2022") 10 (Some (-1)) None
    (fun i => if i =? 1 then Some [utf8 "/vod/1"; utf8 "/vod/2"] else None)
  = Some (map (fun x => utf8 "https://idoltv.tv" ++ x)
              (firstn (Z.to_nat (Z.of_nat 2 + -1)) [utf8 "/vod/1"; utf8 "/vod/2"])).
Proof.
  apply (search_negative_playlistend _ _ (-1) None _ [utf8 "/vod/1"; utf8 "/vod/2"]);
    [vm_compute; discriminate | reflexivity | lia | lia].
Defined.

Lemma search_float_stop_raises_witness :
  search_entries (utf8 "idoltvsearchall:" ++ utf8 "2022") 10 None
    (Some [PSlice (Some (NFloat (f64_of_Z 5)))])
    (fun i => if i =? 1 then Some [utf8 "/vod/1"; utf8 "/vod/2"]
              else Some [utf8 "/vod/3"; utf8 "/vod/4"])
  = None.
Proof.
  apply (search_float_stop_raises _ _ _ [utf8 "/vod/1"; utf8 "/vod/2"]);
    [reflexivity | discriminate | simpl; lia | discriminate |].
  constructor; [|constructor]. do 2 eexists. vm_compute. reflexivity.
Defined.

(** * Text fields of the pages *)

(** ** Substrings: [find], [index] and [split] *)

Lemma prefixb_nil_r (p : pystr) : p <> [] -> prefixb p [] = false.
Proof. destruct p; [congruence | reflexivity]. Qed.

Lemma find_sub_nil (p : pystr) : p <> [] -> find_sub p [] = None.
Proof. intros H. cbn. rewrite prefixb_nil_r by exact H. reflexivity. Qed.

Lemma prefixb_firstn (p s : pystr) (n : nat) :
  prefixb p (firstn n s) = true -> prefixb p s = true.
Proof.
  revert s n. induction p as [|x p IH]; intros s n H; [reflexivity|].
  destruct n, s; try discriminate. cbn in H |- *.
  apply andb_true_iff in H as [H1 H2]. rewrite H1. exact (IH _ _ H2).
Qed.

Lemma prefixb_app (p s t : pystr) : prefixb p s = true -> prefixb p (s ++ t) = true.
Proof.
  revert s. induction p as [|x p IH]; intros s H; [reflexivity|].
  destruct s; [discriminate|]. cbn in H |- *.
  apply andb_true_iff in H as [H1 H2]. rewrite H1. exact (IH _ H2).
Qed.

Lemma prefixb_self (p t : pystr) : prefixb p (p ++ t) = true.
Proof. induction p; cbn; [reflexivity|]. rewrite Z.eqb_refl. exact IHp. Qed.

(** The text before the first occurrence holds no occurrence. *)
Lemma find_sub_firstn_none (p s : pystr) (k : nat) :
  p <> [] -> find_sub p s = Some k -> find_sub p (firstn k s) = None.
Proof.
  intros Hp. revert k. induction s as [|x s IH]; intros k H.
  - rewrite find_sub_nil in H by exact Hp. discriminate.
  - cbn in H. destruct (prefixb p (x :: s)) eqn:P.
    + injection H as <-. apply find_sub_nil, Hp.
    + destruct (find_sub p s) as [k'|] eqn:F; [|discriminate].
      cbn in H. injection H as <-. cbn [firstn].
      cbn [find_sub]. destruct (prefixb p (x :: firstn k' s)) eqn:P'.
      * exfalso. apply (prefixb_firstn p (x :: s) (S k')) in P'. congruence.
      * rewrite (IH k' eq_refl). reflexivity.
Qed.

Lemma find_sub_some_nonempty (p s : pystr) (k : nat) :
  p <> [] -> find_sub p s = Some k -> s <> [].
Proof. intros Hp H ->. rewrite find_sub_nil in H by exact Hp. discriminate. Qed.

(** [s.split(sep)] has a second piece exactly when [sep] occurs in [s]. *)
Lemma py_split_second (sep s : pystr) :
  sep <> [] -> (nth_error (py_split sep s) 1 = None <-> find_sub sep s = None).
Proof.
  intros Hsep. unfold py_split. cbn [split_fuel].
  destruct (find_sub sep s) as [k|] eqn:F.
  - split; [|discriminate]. intros H. exfalso.
    destruct s as [|x s]; [exact (find_sub_some_nonempty _ _ _ Hsep F eq_refl)|].
    cbn [List.length split_fuel] in H.
    destruct (find_sub sep (skipn (k + List.length sep) (x :: s))); cbn in H; discriminate.
  - split; reflexivity.
Qed.

Lemma py_split_first (sep s : pystr) (k : nat) :
  find_sub sep s = Some k -> hd [] (py_split sep s) = firstn k s.
Proof. intros F. unfold py_split. cbn [split_fuel]. rewrite F. reflexivity. Qed.

Lemma bar_nonempty : bar <> [].
Proof. discriminate. Qed.

Lemma find_sub_eq (p s : pystr) :
  find_sub p s = if prefixb p s then Some 0%nat
                 else match s with [] => None | _ :: r => option_map S (find_sub p r) end.
Proof. destruct s; reflexivity. Qed.

(** The first occurrence in [pre ++ p ++ rest] when none starts in [pre]. *)
Lemma find_sub_after (p pre rest : pystr) :
  (forall i, (i < List.length pre)%nat -> prefixb p (skipn i (pre ++ p ++ rest)) = false) ->
  find_sub p (pre ++ p ++ rest) = Some (List.length pre).
Proof.
  induction pre as [|x pre IH]; intros H.
  - rewrite app_nil_l, find_sub_eq, prefixb_self. reflexivity.
  - pose proof (H 0%nat ltac:(cbn; lia)) as H0. cbn [skipn] in H0.
    rewrite find_sub_eq, H0, <- app_comm_cons.
    rewrite IH; [reflexivity|].
    intros i Hi. exact (H (S i) ltac:(cbn; lia)).
Qed.

(** No position has an occurrence: no [find]. *)
Lemma find_sub_none (p s : pystr) :
  (forall i, prefixb p (skipn i s) = false) -> find_sub p s = None.
Proof.
  induction s as [|x s IH]; intros H.
  - rewrite find_sub_eq. rewrite (H 0%nat : prefixb p [] = false). reflexivity.
  - rewrite find_sub_eq. rewrite (H 0%nat : prefixb p (x :: s) = false). rewrite IH; [reflexivity|].
    intros i. exact (H (S i)).
Qed.

(** ** The [description] of gimy and the heading of [IdoltvIE] *)

(** The [description] of [GimyIE], [GimyLaIE] and [GimyDetailIE], for a
    non-empty [intro] and a meta description [pre + head + rest], where
    [head] is [intro[0:max(intro.find('，'), intro.find(','), 4)]] and no
    occurrence of [head] starts inside [pre]: it is [pre] followed by the
    whole [intro]. *)
Theorem description_full_intro (pre rest it : pystr) :
  it <> [] ->
  (forall i, (i < List.length pre)%nat ->
     prefixb (intro_head it) (skipn i (pre ++ intro_head it ++ rest)) = false) ->
  describe (Some (pre ++ intro_head it ++ rest)) (Some it) = Some (Some (pre ++ it)).
Proof.
  intros Hit H. unfold describe.
  destruct it as [|c it']; [congruence|].
  rewrite (find_sub_after _ _ _ H).
  rewrite firstn_app, Nat.sub_diag, firstn_O, app_nil_r, firstn_all. reflexivity.
Qed.

(** With a non-empty [intro], the [description] raises when the meta
    description is missing or does not contain the beginning [head] of
    [intro] ([ValueError] of [index]). *)
Theorem description_missing_head_raises (dm : option pystr) (it : pystr) :
  it <> [] ->
  (dm = None \/ exists s, dm = Some s /\ forall i, prefixb (intro_head it) (skipn i s) = false) ->
  describe dm (Some it) = None.
Proof.
  intros Hit H. unfold describe.
  destruct it as [|c it']; [congruence|].
  destruct H as [-> | (s & -> & Hs)]; [reflexivity|].
  rewrite (find_sub_none _ _ Hs). reflexivity.
Qed.

(** [IdoltvIE] raises [IndexError] at its [catagory], [title] and [episode]
    exactly when the page title or the heading [video_inf[0]] holds no
    [' | ']; an empty heading, replaced by the first piece of the page title,
    always raises. *)
Theorem idoltv_heading_index_error (fulltitle h2 : pystr) :
  idoltv_heading fulltitle h2 = None <->
  (find_sub bar fulltitle = None \/ find_sub bar h2 = None).
Proof.
  unfold idoltv_heading.
  pose proof (py_split_second bar fulltitle bar_nonempty) as S1.
  destruct (nth_error (py_split bar fulltitle) 1) as [cat|] eqn:N1.
  - assert (F1 : find_sub bar fulltitle <> None) by (intros E; apply S1 in E; discriminate).
    destruct (find_sub bar fulltitle) as [k|] eqn:Fk; [|congruence].
    destruct h2 as [|x h2'].
    + rewrite (py_split_first _ _ _ Fk).
      rewrite (proj2 (py_split_second bar _ bar_nonempty)
                 (find_sub_firstn_none _ _ _ bar_nonempty Fk)).
      split; [intros _; right; apply find_sub_nil, bar_nonempty | reflexivity].
    + pose proof (py_split_second bar (x :: h2') bar_nonempty) as S2.
      destruct (nth_error (py_split bar (x :: h2')) 1) eqn:N2.
      * split; [discriminate|]. intros [E|E]; [discriminate|].
        apply S2 in E. discriminate.
      * split; [intros _; right; apply S2; reflexivity | reflexivity].
  - split; [intros _; left; apply S1; reflexivity | reflexivity].
Qed.

Lemma description_full_intro_witness :
  describe (Some (utf8 "某劇劇情：" ++ intro_head (utf8 "這是一個很長很長的故事，後來他們") ++ utf8 "..."))
           (Some (utf8 "這是一個很長很長的故事，後來他們"))
  = Some (Some (utf8 "某劇劇情：" ++ utf8 "這是一個很長很長的故事，後來他們")).
Proof.
  apply description_full_intro; [discriminate|].
  intros i Hi. vm_compute in Hi.
  do 5 (destruct i as [|i]; [vm_compute; reflexivity|]). lia.
Defined.

Lemma description_missing_head_raises_witness :
  describe (Some (utf8 "劇情：這是一個很長")) (Some (utf8 "這是一個很長很長的故事，後來")) = None.
Proof.
  apply description_missing_head_raises; [discriminate|].
  right. eexists. split; [reflexivity|].
  intros i. do 10 (destruct i as [|i]; [vm_compute; reflexivity|]).
  rewrite skipn_all2 by (vm_compute; lia). vm_compute. reflexivity.
Defined.

(** * The claims *)

(** ** [_parse_episode] *)

(** C3: for every label, with either extractor's parser, [_parse_episode]
    raises nothing and returns a non-empty list; every space-separated
    segment that matches none of the date, episode-number, bare-number,
    range and quality patterns contributes the literal token
    [(segment, part, 'n')]. *)
Theorem parse_episode_total st s :
  exists toks, parse_episode st s = Some toks /\ toks <> [] /\
    forall seg, In seg (split_on (ch " ") (normalize s)) ->
      re_found (re_date_search st) seg = false -> re_found re_ep_search seg = false ->
      re_found re_num_search seg = false -> re_found re_range_search seg = false ->
      re_found (re_res st) seg = false ->
      In (TStr seg, episode_part (normalize s), kind_n) toks.
Proof.
  destruct (parse_episode_some st s) as (xs & _ & Hp & Hall).
  exists (sort_by_kind (List.concat xs)). split; [exact Hp|]. split.
  - destruct (Forall2_nonempty _ _ _ Hall (split_on_nonempty _ _))
      as (e & toks & segs & xs' & _ & -> & _ & Hne & _).
    intro E. pose proof (Permutation_length (sort_by_kind_perm (List.concat (toks :: xs'))))
      as L. rewrite E in L.
    simpl in L. rewrite length_app in L. destruct toks; [congruence | discriminate].
  - intros seg Hin H1 H2 H3 H4 H5.
    destruct (Forall2_in_left _ _ _ _ Hall Hin) as (toks & Htoks & _ & _ & _ & Hlit).
    rewrite (Hlit H1 H2 H3 H4 H5) in Htoks.
    apply (Permutation_in _ (Permutation_sym (sort_by_kind_perm _))).
    apply in_concat. exists [(TStr seg, episode_part (normalize s), kind_n)].
    split; [exact Htoks | left; reflexivity].
Qed.

(** C9: every token of a label carries the same part tag, the value
    [episode_part] computes once from the whole normalised label (the
    digits of a trailing [-N] or [_N] suffix without one leading ['0'],
    else ['預告'], else ['']). *)
Theorem parse_episode_part st s :
  exists toks, parse_episode st s = Some toks /\
    Forall (fun t => tok_part t = episode_part (normalize s)) toks.
Proof.
  destruct (parse_episode_some st s) as (xs & _ & Hp & Hall).
  exists (sort_by_kind (List.concat xs)). split; [exact Hp|].
  apply Forall_forall. intros t Ht.
  apply (Permutation_in _ (sort_by_kind_perm _)) in Ht. revert t Ht.
  apply Forall_forall.
  apply (concat_tokens_forall _ _ _ _ Hall).
  intros e toks (_ & _ & HF & _). revert HF. apply Forall_impl. tauto.
Qed.

(** C5 (amended): the tokens of a label are sorted by their one-character
    kind, compared as strings: ['d'] (date) < ['e'] (episode number) <
    ['n'] (literal) < ['r'] (resolution); a literal token thus precedes a
    resolution token. *)
Theorem parse_episode_sorted st s :
  kind_d < kind_e < kind_n /\ kind_n < kind_r /\
  exists toks, parse_episode st s = Some toks /\ StronglySorted kind_le toks /\
    Forall (fun t => In (tok_kind t) token_kinds) toks.
Proof.
  split; [split; reflexivity|]. split; [reflexivity|].
  destruct (parse_episode_some st s) as (xs & _ & Hp & Hall).
  exists (sort_by_kind (List.concat xs)). split; [exact Hp|].
  split; [apply sort_by_kind_sorted|].
  apply Forall_forall. intros t Ht.
  apply (Permutation_in _ (sort_by_kind_perm _)) in Ht. revert t Ht.
  apply Forall_forall.
  apply (concat_tokens_forall _ _ _ _ Hall).
  intros e toks (_ & _ & HF & _). revert HF. apply Forall_impl. tauto.
Qed.

(** C5, counterexample: the label ['HD abc'] parses to the literal token
    before the resolution token. *)
Lemma parse_episode_literal_before_res :
  parse_episode Gimy (utf8 "HD abc") =
    Some [(TStr (utf8 "abc"), [], kind_n); (TStr (utf8 "RES"), [], kind_r)] /\
  parse_episode Idoltv (utf8 "HD abc") =
    Some [(TStr (utf8 "abc"), [], kind_n); (TStr (utf8 "RES"), [], kind_r)].
Proof. split; vm_compute; reflexivity. Qed.

(** ** [_extract_other_src] *)

(** C6: on entries that are tuples, as [_extract_links] builds them with
    [re.findall], the reconciler leaves the heap as it was and only adds
    objects: [y += (source,)] allocates a new tuple for each entry, so the
    groups' entries are not changed, and every reference returned points to
    such a new tuple, built from an entry of a group whose source differs
    from [current_source]. *)
Theorem hextract_no_side_effects st h links episode cur h' res :
  Forall (fun l => HeapFacts.tuples h (Heap.hlinks l)) links ->
  Heap.hextract_other_src st h links episode cur = Some (h', res) ->
  (exists hnew, h' = h ++ hnew) /\
  Forall (fun y => exists l a xs, In l links /\ str_eqb (Heap.hsource l) cur = false /\
            In a (Heap.hlinks l) /\ nth_error h a = Some (Heap.OTuple xs) /\
            nth_error h' y = Some (Heap.OTuple (xs ++ [Heap.hsource l])) /\
            (List.length h <= y)%nat) res.
Proof.
  intros T H.
  destruct (HeapFacts.hextract_inv _ _ _ _ _ _ _ T H) as [[k Hk] HF]. simpl in Hk, HF.
  split; [exists k; exact Hk|].
  revert HF. apply Forall_impl.
  intros y (l & Hl & a & xs & Ha & Hx & Hy & Hle).
  apply filter_In in Hl as [Hl Hs]. apply negb_true_iff in Hs.
  exists l, a, xs. auto 7.
Qed.

Lemma hextract_no_side_effects_witness :
  Forall (fun l => HeapFacts.tuples [Heap.OTuple [utf8 "/b/4"; utf8 "EP4"]] (Heap.hlinks l))
    [Heap.mk_hgroup (utf8 "B") [0%nat]] /\
  Heap.hextract_other_src Gimy [Heap.OTuple [utf8 "/b/4"; utf8 "EP4"]]
    [Heap.mk_hgroup (utf8 "B") [0%nat]] (utf8 "第4集") (utf8 "A")
  = Some ([Heap.OTuple [utf8 "/b/4"; utf8 "EP4"];
           Heap.OTuple [utf8 "/b/4"; utf8 "EP4"; utf8 "B"]], [1%nat]) /\
  ((exists hnew, [Heap.OTuple [utf8 "/b/4"; utf8 "EP4"];
                  Heap.OTuple [utf8 "/b/4"; utf8 "EP4"; utf8 "B"]]
                 = [Heap.OTuple [utf8 "/b/4"; utf8 "EP4"]] ++ hnew) /\
   Forall (fun y => exists l a xs, In l [Heap.mk_hgroup (utf8 "B") [0%nat]] /\
            str_eqb (Heap.hsource l) (utf8 "A") = false /\
            In a (Heap.hlinks l) /\
            nth_error [Heap.OTuple [utf8 "/b/4"; utf8 "EP4"]] a = Some (Heap.OTuple xs) /\
            nth_error [Heap.OTuple [utf8 "/b/4"; utf8 "EP4"];
                       Heap.OTuple [utf8 "/b/4"; utf8 "EP4"; utf8 "B"]] y
              = Some (Heap.OTuple (xs ++ [Heap.hsource l])) /\
            (List.length [Heap.OTuple [utf8 "/b/4"; utf8 "EP4"]] <= y)%nat) [1%nat]).
Proof.
  assert (T : Forall (fun l => HeapFacts.tuples [Heap.OTuple [utf8 "/b/4"; utf8 "EP4"]]
                                  (Heap.hlinks l)) [Heap.mk_hgroup (utf8 "B") [0%nat]]).
  { repeat constructor. eexists. reflexivity. }
  assert (E : Heap.hextract_other_src Gimy [Heap.OTuple [utf8 "/b/4"; utf8 "EP4"]]
    [Heap.mk_hgroup (utf8 "B") [0%nat]] (utf8 "第4集") (utf8 "A")
    = Some ([Heap.OTuple [utf8 "/b/4"; utf8 "EP4"];
             Heap.OTuple [utf8 "/b/4"; utf8 "EP4"; utf8 "B"]], [1%nat])).
  { vm_compute. reflexivity. }
  split; [exact T|]. split; [exact E|].
  exact (hextract_no_side_effects _ _ _ _ _ _ _ T E).
Defined.

(** C10: a segment of three or four digits followed by ['P'] gives two
    tokens, an episode number with the value of the digits and the
    resolution marker; so ['1080P'] holds the token of ['第1080集']. *)
Theorem res_number_segment st part ds :
  (3 <= List.length ds <= 4)%nat -> Forall (fun x => is_digit x = true) ds ->
  (exists n, digits_value 0 ds = Some n /\
     parse_segment st part (ds ++ [ch "P"]) =
       Some [(TNum (f64_of_Z n), part, kind_e); (TStr (utf8 "RES"), part, kind_r)]) /\
  parse_episode st (utf8 "1080P") =
    Some [(TNum (f64_of_Z 1080), [], kind_e); (TStr (utf8 "RES"), [], kind_r)] /\
  parse_episode st (utf8 "第1080集") = Some [(TNum (f64_of_Z 1080), [], kind_e)] /\
  tok_in (TNum (f64_of_Z 1080), [], kind_e)
    [(TNum (f64_of_Z 1080), [], kind_e); (TStr (utf8 "RES"), [], kind_r)] = true.
Proof.
  intros L D. split.
  - destruct (num_find_value ds L D) as (n & g & Hn & Hf & Hg).
    destruct (num_res_found st ds L D) as [Hnum Hres].
    exists n. split; [exact Hn|].
    change (ds ++ [80]) with (ds ++ [ch "P"]) in Hf, Hnum, Hres.
    assert (Hd : re_found (re_date_search st) (ds ++ [ch "P"]) = false).
    { apply date_search_short. rewrite length_app. simpl. lia. }
    assert (He : re_found re_ep_search (ds ++ [ch "P"]) = false).
    { apply ep_search_digits. intros x Hx. apply in_app_or in Hx as [Hx | [<- | []]].
      - left. rewrite Forall_forall in D. apply D, Hx.
      - right. reflexivity. }
    unfold parse_segment, seg_date, seg_number, seg_res.
    rewrite Hd, He, Hnum, Hf, Hg, Hres. reflexivity.
  - destruct st; repeat split; vm_compute; reflexivity.
Qed.

Lemma res_number_segment_witness :
  (3 <= List.length (utf8 "1080") <= 4)%nat /\
  Forall (fun x => is_digit x = true) (utf8 "1080") /\
  parse_segment Gimy [] (utf8 "1080P") =
    Some [(TNum (f64_of_Z 1080), [], kind_e); (TStr (utf8 "RES"), [], kind_r)].
Proof.
  assert (L : (3 <= List.length (utf8 "1080") <= 4)%nat) by (simpl; lia).
  assert (D : Forall (fun x => is_digit x = true) (utf8 "1080")) by (repeat constructor).
  split; [exact L|]. split; [exact D|].
  destruct (res_number_segment Gimy [] (utf8 "1080") L D) as [(n & Hn & Hp) _].
  vm_compute in Hn. injection Hn as <-. exact Hp.
Defined.

(** C7: ['第4集'] and ['04'] both parse to the single episode-number token
    [(4.0, '', 'e')], equal to itself under tuple equality; so a group
    [B] whose one entry is ['04'] is matched by the reference ['第4集']. *)
Theorem episode_four_tokens st :
  parse_episode st (utf8 "第4集") = Some [(TNum (f64_of_Z 4), [], kind_e)] /\
  parse_episode st (utf8 "04") = Some [(TNum (f64_of_Z 4), [], kind_e)] /\
  token_eqb (TNum (f64_of_Z 4), [], kind_e) (TNum (f64_of_Z 4), [], kind_e) = true /\
  extract_other_src st [mk_group (utf8 "B") [(utf8 "/b/4", utf8 "04")]]
    (utf8 "第4集") (utf8 "A") = Some [(utf8 "/b/4", utf8 "04", utf8 "B")].
Proof. destruct st; repeat split; vm_compute; reflexivity. Qed.

(** C4 (a failing input): the reference ['240000'] gives a date token,
    [strptime('240000', '%y%m%d')] raises [ValueError] (month 0), and so
    the reconciler raises as soon as it meets a candidate group. *)
Theorem extract_invalid_date_raises st :
  parse_episode st (utf8 "240000") = Some [(TStr (utf8 "240000"), [], kind_d)] /\
  py_strptime (TStr (utf8 "240000")) = None /\
  extract_other_src st [mk_group (utf8 "B") [(utf8 "/1", utf8 "E1")]]
    (utf8 "240000") (utf8 "A") = None.
Proof. destruct st; repeat split; vm_compute; reflexivity. Qed.

(** C8 (a failing input): ['1080P'] has no date token, so its date is the
    placeholder ['500101'], one day before ['500102']; the entry ['1080P']
    is a near match of the reference date ['500102'] and is accepted. *)
Theorem res_label_near_match st :
  parse_episode st (utf8 "1080P") =
    Some [(TNum (f64_of_Z 1080), [], kind_e); (TStr (utf8 "RES"), [], kind_r)] /\
  parse_episode st (utf8 "500102") = Some [(TStr (utf8 "500102"), [], kind_d)] /\
  near_match (TStr (utf8 "500102"), [], kind_d)
    [(TNum (f64_of_Z 1080), [], kind_e); (TStr (utf8 "RES"), [], kind_r)] = Some true /\
  extract_other_src st [mk_group (utf8 "B") [(utf8 "/1", utf8 "1080P")]]
    (utf8 "500102") (utf8 "A") = Some [(utf8 "/1", utf8 "1080P", utf8 "B")].
Proof. destruct st; repeat split; vm_compute; reflexivity. Qed.




(** C1 (amended): the reconciler returns entries of the groups whose source
    differs from [current_source] only, and runs through those groups in
    order and, in each, through the tokens of the reference label in their
    sorted order; at each step the exact candidates are the group's entries
    that hold the token AND are not already in the result (from an earlier
    group or token), the near candidates are all the group's entries that
    are near matches; one exact candidate is accepted, else, with no exact
    candidate, one near candidate is, else nothing is. *)
Theorem extract_other_src_steps st groups episode cur res :
  extract_other_src st groups episode cur = Some res ->
  (exists toks, parse_episode st episode = Some toks /\
     grp_steps st toks (filter (fun l => negb (str_eqb (source l) cur)) groups) [] res) /\
  Forall (fun y => exists l, In l groups /\ str_eqb (source l) cur = false /\
                             In y (named (source l) (links l))) res.
Proof.
  intro H. destruct (parse_episode_some st episode) as (xs & _ & Hp & _).
  pose proof (grp_fold_steps _ _ _ _ _ _ Hp H) as Hs.
  split; [exists (sort_by_kind (List.concat xs)); split; [exact Hp | exact Hs]|].
  apply Forall_forall. intros y Hy.
  destruct (grp_steps_from _ _ _ _ _ _ Hs Hy) as [[] | (l & Hl & Hy')].
  apply filter_In in Hl as [Hl Hs']. apply negb_true_iff in Hs'.
  exists l. auto.
Qed.

Lemma extract_other_src_steps_witness :
  extract_other_src Gimy [mk_group (utf8 "B") [(utf8 "/b/4", utf8 "EP4")]]
    (utf8 "第4集") (utf8 "A") = Some [(utf8 "/b/4", utf8 "EP4", utf8 "B")] /\
  (exists toks, parse_episode Gimy (utf8 "第4集") = Some toks /\
     grp_steps Gimy toks
       (filter (fun l => negb (str_eqb (source l) (utf8 "A")))
          [mk_group (utf8 "B") [(utf8 "/b/4", utf8 "EP4")]]) []
       [(utf8 "/b/4", utf8 "EP4", utf8 "B")]) /\
  Forall (fun y => exists l, In l [mk_group (utf8 "B") [(utf8 "/b/4", utf8 "EP4")]] /\
            str_eqb (source l) (utf8 "A") = false /\ In y (named (source l) (links l)))
    [(utf8 "/b/4", utf8 "EP4", utf8 "B")].
Proof.
  assert (E : extract_other_src Gimy [mk_group (utf8 "B") [(utf8 "/b/4", utf8 "EP4")]]
                (utf8 "第4集") (utf8 "A") = Some [(utf8 "/b/4", utf8 "EP4", utf8 "B")])
    by (vm_compute; reflexivity).
  split; [exact E|]. exact (extract_other_src_steps _ _ _ _ _ E).
Defined.

(** C1, counterexample: in group [B], both ['E1 240101'] and ['E1'] hold
    the token [(1.0, '', 'e')] of the reference ['E1 240101'], yet both
    are accepted: the first is accepted for the date token, and is then no
    longer an exact candidate for the number token. *)
Lemma extract_two_exact_both_accepted :
  parse_episode Gimy (utf8 "E1 240101") =
    Some [(TStr (utf8 "240101"), [], kind_d); (TNum (f64_of_Z 1), [], kind_e)] /\
  parse_episode Idoltv (utf8 "E1 240101") =
    Some [(TStr (utf8 "240101"), [], kind_d); (TNum (f64_of_Z 1), [], kind_e)] /\
  parse_episode Gimy (utf8 "E1") = Some [(TNum (f64_of_Z 1), [], kind_e)] /\
  parse_episode Idoltv (utf8 "E1") = Some [(TNum (f64_of_Z 1), [], kind_e)] /\
  extract_other_src Gimy
    [mk_group (utf8 "B") [(utf8 "/1", utf8 "E1 240101"); (utf8 "/2", utf8 "E1")]]
    (utf8 "E1 240101") (utf8 "A") =
    Some [(utf8 "/1", utf8 "E1 240101", utf8 "B"); (utf8 "/2", utf8 "E1", utf8 "B")] /\
  extract_other_src Idoltv
    [mk_group (utf8 "B") [(utf8 "/1", utf8 "E1 240101"); (utf8 "/2", utf8 "E1")]]
    (utf8 "E1 240101") (utf8 "A") =
    Some [(utf8 "/1", utf8 "E1 240101", utf8 "B"); (utf8 "/2", utf8 "E1", utf8 "B")].
Proof. repeat split; vm_compute; reflexivity. Qed.
